(** * AMQPProcessManagerIPC: the worker-side IPC client

    A shallow embedding of [AMQPProcessManagerIPC.py] (Python 2.7): the
    line-delimited JSON framing spoken with the manager over stdin and
    stdout, the keyword dispatch of [receive_message] and the two senders.

    - Text is a sequence of Unicode code points.  The inbound stream is the
      UTF-8 text the manager sends, decoded, as far as it is still unread;
      the text is all there is (at its end [readline] returns the empty
      string, as on a closed pipe).  The outbound stream is what has been
      written to stdout.
    - The methods are functions of the class attributes in a small state and
      exception monad; a call returns, raises, or waits for ever on a lock.
      [assert] statements are executed (no [-O]).
    - Python's [json] module is rendered with its default options:
      [ensure_ascii], separators [", "] and [": "], strict string scanning,
      surrogate pairs joined (a build with 32-bit characters).  Floats stay
      abstract behind the [PyFloat] interface; the recursion limit of the
      interpreter, which ends [json.dumps] and [json.loads] on deeply
      nested values with [RuntimeError], is the [PyLimit] interface.
    - Threads are interleaved statement by statement. *)

From Stdlib Require Import String Ascii.
From Stdlib Require Import List NArith ZArith Bool Lia.
From Stdlib Require Import DecimalFacts DecimalPos DecimalZ.
From Stdlib Require Import Permutation.
Import ListNotations.

Local Open Scope N_scope.

(** ** Text *)

Abbreviation text := (list N) (only parsing).

(** A Rocq string literal read as text (one code point per character). *)
Definition u (s : string) : text := map N_of_ascii (list_ascii_of_string s).

(** The same, with every apostrophe turned into a double quote, so that
    JSON text can be written down legibly: [wire "['heartbeat']"] is the
    line of the heartbeat envelope, and a backslash before an apostrophe
    gives an escaped quote inside a JSON string. *)
Definition wire (s : string) : text :=
  map (fun c => if c =? 39 then 34 else c) (u s).

Fixpoint text_eqb (a b : text) : bool :=
  match a, b with
  | [], [] => true
  | x :: a', y :: b' => (x =? y) && text_eqb a' b'
  | _, _ => false
  end.

Fixpoint dropwhile (p : N -> bool) (s : text) : text :=
  match s with
  | [] => []
  | c :: r => if p c then dropwhile p r else s
  end.

Fixpoint takewhile (p : N -> bool) (s : text) : text :=
  match s with
  | [] => []
  | c :: r => if p c then c :: takewhile p r else []
  end.

(** Removal of the trailing characters that satisfy [p]. *)
Fixpoint rstrip_with (p : N -> bool) (s : text) : text :=
  match s with
  | [] => []
  | c :: r =>
      match rstrip_with p r with
      | [] => if p c then [] else [c]
      | r' => c :: r'
      end
  end.

(** [str.isspace] of a byte string (C locale): space, \t, \n, \v, \f, \r. *)
Definition str_isspace (c : N) : bool :=
  (c =? 32) || ((9 <=? c) && (c <=? 13)).

(** [unicode.isspace]: bidirectional type WS, B or S, or category Zs. *)
Definition unicode_isspace (c : N) : bool :=
  ((9 <=? c) && (c <=? 13)) || ((28 <=? c) && (c <=? 32))
  || (c =? 133) || (c =? 160) || (c =? 5760) || (c =? 6158)
  || ((8192 <=? c) && (c <=? 8202)) || (c =? 8232) || (c =? 8233)
  || (c =? 8239) || (c =? 8287) || (c =? 12288).

(** [s.rstrip()] on the [str] read from stdin. *)
Definition str_rstrip (s : text) : text := rstrip_with str_isspace s.

(** [s.strip()] on a [unicode] object. *)
Definition unicode_strip (s : text) : text :=
  rstrip_with unicode_isspace (dropwhile unicode_isspace s).

(** ** The process state and the effects of the module *)

Inductive exn : Type :=
| ValueError
| AssertionError
| TypeError
| KeyError
| AttributeError
| IndexError
| ThreadError
| RuntimeError
| Exception (msg : text).

(** A buffered output file: what [flush] has pushed to the pipe, and what
    [write] has queued since. *)
Record outfile : Type := mkOut { flushed : text; pending : text }.

(** The class attributes after [init()]: the two locks (held or free), the
    text still unread on the manager's side of stdin, and stdout. *)
Record state : Type := mkState {
  from_lock : bool;
  to_lock : bool;
  fh_from_manager : text;
  fh_to_manager : outfile
}.

(** What a call does: it returns, it raises, or it never comes back (it
    waits for a lock that is held). *)
Inductive outcome (A : Type) : Type :=
| Return (a : A) (st : state)
| Raise (e : exn) (st : state)
| Hangs.
Arguments Return {A} a st.
Arguments Raise {A} e st.
Arguments Hangs {A}.

Definition M (A : Type) : Type := state -> outcome A.

Definition ret {A} (a : A) : M A := fun st => Return a st.
Definition raise {A} (e : exn) : M A := fun st => Raise e st.
Definition bind {A B} (m : M A) (k : A -> M B) : M B :=
  fun st =>
    match m st with
    | Return a st' => k a st'
    | Raise e st' => Raise e st'
    | Hangs => Hangs
    end.

Notation "x <- m ;; k" := (bind m (fun x => k))
  (at level 61, m at next level, right associativity).
Notation "m ;;; k" := (bind m (fun _ => k))
  (at level 61, right associativity).

(** [assert(b)] *)
Definition py_assert (b : bool) : M unit :=
  if b then ret tt else raise AssertionError.

(** [lock.acquire(True)] and [lock.release()] *)
Definition acquire_from : M unit := fun st =>
  if from_lock st then Hangs
  else Return tt (mkState true (to_lock st) (fh_from_manager st) (fh_to_manager st)).

Definition release_from : M unit := fun st =>
  if from_lock st
  then Return tt (mkState false (to_lock st) (fh_from_manager st) (fh_to_manager st))
  else Raise ThreadError st.

Definition acquire_to : M unit := fun st =>
  if to_lock st then Hangs
  else Return tt (mkState (from_lock st) true (fh_from_manager st) (fh_to_manager st)).

Definition release_to : M unit := fun st =>
  if to_lock st
  then Return tt (mkState (from_lock st) false (fh_from_manager st) (fh_to_manager st))
  else Raise ThreadError st.

(** [fh.readline()]: the text up to and including the first newline, or
    whatever is left when there is none (empty at end of file). *)
Fixpoint split_line (s : text) : text * text :=
  match s with
  | [] => ([], [])
  | c :: r =>
      if c =? 10 then ([c], r)
      else let '(l, r') := split_line r in (c :: l, r')
  end.

Definition readline : M text := fun st =>
  let '(l, r) := split_line (fh_from_manager st) in
  Return l (mkState (from_lock st) (to_lock st) r (fh_to_manager st)).

(** [fh.write(s)] and [fh.flush()] *)
Definition write (s : text) : M unit := fun st =>
  let f := fh_to_manager st in
  Return tt (mkState (from_lock st) (to_lock st) (fh_from_manager st)
                     (mkOut (flushed f) (pending f ++ s))).

Definition flush : M unit := fun st =>
  let f := fh_to_manager st in
  Return tt (mkState (from_lock st) (to_lock st) (fh_from_manager st)
                     (mkOut (flushed f ++ pending f) [])).

(** ** The process

    The class inside the interpreter: the two locks with the process's
    original stdin and stdout ([sys.__stdin__], [sys.__stdout__]), whether
    the class attributes [fh_from_manager] and [fh_to_manager] refer to them
    yet, the file [sys.stdout] stands for, and the text written to stderr
    (which is not buffered). *)

Inductive target : Type := ToStdout | ToStderr.

Record process : Type := mkProcess {
  std : state;
  bound : bool;
  sys_stdout : target;
  stderr_text : text
}.

Inductive poutcome (A : Type) : Type :=
| PReturn (a : A) (p : process)
| PRaise (e : exn) (p : process)
| PHangs.
Arguments PReturn {A} a p.
Arguments PRaise {A} e p.
Arguments PHangs {A}.

(** A method of the class, run inside the process. *)
Definition in_process {A} (m : M A) (p : process) : poutcome A :=
  match m (std p) with
  | Return a st => PReturn a (mkProcess st (bound p) (sys_stdout p) (stderr_text p))
  | Raise e st => PRaise e (mkProcess st (bound p) (sys_stdout p) (stderr_text p))
  | Hangs => PHangs
  end.

(** [init()]: [sys.stdout = sys.stderr], then the two handles. *)
Definition p_init (p : process) : process :=
  mkProcess (std p) true ToStderr (stderr_text p).

(** [fh.readline], [fh.write] and [fh.flush] as the class attributes
    stand: on [None] the attribute look-up raises. *)
Definition p_readline (p : process) : M text :=
  if bound p then readline else raise AttributeError.

Definition p_write (p : process) (s : text) : M unit :=
  if bound p then write s else raise AttributeError.

Definition p_flush (p : process) : M unit :=
  if bound p then flush else raise AttributeError.

(** [print s] somewhere in the program: [s] and a newline, written to the
    file [sys.stdout] stands for. *)
Definition p_print (s : text) (p : process) : process :=
  match sys_stdout p with
  | ToStdout =>
      let st := std p in
      let f := fh_to_manager st in
      mkProcess (mkState (from_lock st) (to_lock st) (fh_from_manager st)
                         (mkOut (flushed f) (pending f ++ s ++ [10])))
                (bound p) (sys_stdout p) (stderr_text p)
  | ToStderr =>
      mkProcess (std p) (bound p) (sys_stdout p) (stderr_text p ++ s ++ [10])
  end.

(** ** Python values

    The values that travel through this module are the ones [json.loads]
    builds: [None], booleans, integers, floats, unicode strings, lists and
    dictionaries with string keys.  A dictionary is kept as its list of items
    (keys pairwise distinct). *)

Class PyFloat := {
  pyfloat : Type;
  (** [float(s)] on a literal of the JSON number grammar, or the constants
      [NaN], [Infinity], [-Infinity] *)
  float_of_literal : text -> pyfloat;
  (** what [json.dumps] prints for a float *)
  float_repr : pyfloat -> text
}.

(** The recursion limit of the interpreter.  [json.dumps] and [json.loads]
    go one level deeper for every list or dictionary they enter and raise
    [RuntimeError] ("maximum recursion depth exceeded") when the limit is
    reached.  How many levels are left when this module calls them depends
    on [sys.getrecursionlimit()] (1000 unless changed) and on the stack of
    the caller; the two numbers below are what is left, whatever it is.
    The module is taken to run where there is room for an envelope when
    reading, and when writing for an envelope or a value of two levels,
    as in the examples of its documentation. *)
Class PyLimit := {
  dumps_depth : nat;
  loads_depth : nat;
  dumps_depth_min : (2 <= dumps_depth)%nat;
  loads_depth_min : (1 <= loads_depth)%nat
}.

(** What scanning a text gives: a result, a refusal ([StopIteration] or
    [ValueError]), or the recursion limit reached ([RuntimeError]). *)
Inductive scanned (A : Type) : Type :=
| Scanned (a : A)
| NoJSON
| TooDeep.
Arguments Scanned {A} a.
Arguments NoJSON {A}.
Arguments TooDeep {A}.

Section IPC.

Context {PF : PyFloat} {PL : PyLimit}.

Unset Elimination Schemes.
Inductive json : Type :=
| JNull
| JBool (b : bool)
| JInt (z : Z)
| JFloat (f : pyfloat)
| JStr (s : text)
| JArr (l : list json)
| JObj (items : list (text * json)).
Set Elimination Schemes.

(** *** [json.dumps] *)

(** ['{0:04x}'.format(n)] for [n < 0x10000]. *)
Definition hexdigit (d : N) : N := if d <? 10 then 48 + d else 87 + d.

Definition hex4 (n : N) : text :=
  [hexdigit (n / 4096); hexdigit ((n / 256) mod 16);
   hexdigit ((n / 16) mod 16); hexdigit (n mod 16)].

(** The replacement [encode_basestring_ascii] makes for one character:
    [ESCAPE_DCT] for the quote, the backslash and the control characters
    with a short form, the character itself in [' '..'~'], a [\uXXXX]
    escape otherwise (a surrogate pair above the basic plane). *)
Definition escape_char (c : N) : text :=
  if c =? 34 then [92; 34]
  else if c =? 92 then [92; 92]
  else if c =? 8 then [92; 98]
  else if c =? 12 then [92; 102]
  else if c =? 10 then [92; 110]
  else if c =? 13 then [92; 114]
  else if c =? 9 then [92; 116]
  else if (32 <=? c) && (c <=? 126) then [c]
  else if c <? 65536 then 92 :: 117 :: hex4 c
  else
    let n := c - 65536 in
    let s1 := N.lor 55296 (N.land (N.shiftr n 10) 1023) in
    let s2 := N.lor 56320 (N.land n 1023) in
    (92 :: 117 :: hex4 s1) ++ (92 :: 117 :: hex4 s2).

Definition encode_basestring_ascii (s : text) : text :=
  34 :: flat_map escape_char s ++ [34].

Fixpoint text_of_uint (d : Decimal.uint) : text :=
  match d with
  | Decimal.Nil => []
  | Decimal.D0 d => 48 :: text_of_uint d
  | Decimal.D1 d => 49 :: text_of_uint d
  | Decimal.D2 d => 50 :: text_of_uint d
  | Decimal.D3 d => 51 :: text_of_uint d
  | Decimal.D4 d => 52 :: text_of_uint d
  | Decimal.D5 d => 53 :: text_of_uint d
  | Decimal.D6 d => 54 :: text_of_uint d
  | Decimal.D7 d => 55 :: text_of_uint d
  | Decimal.D8 d => 56 :: text_of_uint d
  | Decimal.D9 d => 57 :: text_of_uint d
  end.

(** [str(z)] for an [int] or [long]. *)
Definition str_int (z : Z) : text :=
  match Z.to_int z with
  | Decimal.Pos d => text_of_uint d
  | Decimal.Neg d => 45 :: text_of_uint d
  end.

(** [", ".join(parts)] *)
Fixpoint join_comma (parts : list text) : text :=
  match parts with
  | [] => []
  | [p] => p
  | p :: rest => p ++ 44 :: 32 :: join_comma rest
  end.

(** The text [json.dumps(v)] gives when it returns. *)
Fixpoint json_dumps (v : json) : text :=
  match v with
  | JNull => u "null"
  | JBool true => u "true"
  | JBool false => u "false"
  | JInt z => str_int z
  | JFloat f => float_repr f
  | JStr s => encode_basestring_ascii s
  | JArr l => 91 :: join_comma (map json_dumps l) ++ [93]
  | JObj items =>
      123 :: join_comma
               (map (fun kv => encode_basestring_ascii (fst kv)
                               ++ 58 :: 32 :: json_dumps (snd kv)) items)
          ++ [125]
  end.

(** The lists and dictionaries of [v], one inside the other: the levels
    the encoder goes down, an empty list or dictionary counting as one. *)
Fixpoint depth (v : json) : nat :=
  match v with
  | JArr l => S (list_max (map depth l))
  | JObj items => S (list_max (map (fun kv => depth (snd kv)) items))
  | _ => O
  end.

(** [json.dumps(v)], [None] standing for [RuntimeError]: the encoder
    gives up on a value nested deeper than the recursion limit allows. *)
Definition dumped (v : json) : option text :=
  if (depth v <=? dumps_depth)%nat then Some (json_dumps v) else None.

Fixpoint float_free (v : json) : bool :=
  match v with
  | JFloat _ => false
  | JArr l => forallb float_free l
  | JObj items => forallb (fun kv => float_free (snd kv)) items
  | _ => true
  end.

(** [v] as it is read from its own text: every float [f] in it has gone
    through [repr] and [float], everything else is as it was. *)
Fixpoint reread (v : json) : json :=
  match v with
  | JFloat f => JFloat (float_of_literal (float_repr f))
  | JArr l => JArr (map reread l)
  | JObj items => JObj (map (fun kv => (fst kv, reread (snd kv))) items)
  | _ => v
  end.

(** *** [json.loads] *)

(** [WHITESPACE = re.compile(r'[ \t\n\r]*')] *)
Definition json_ws (c : N) : bool :=
  (c =? 32) || (c =? 9) || (c =? 10) || (c =? 13).

Definition skip_ws (s : text) : text := dropwhile json_ws s.

Definition is_digit (c : N) : bool := (48 <=? c) && (c <=? 57).

Fixpoint strip_prefix (p s : text) : option text :=
  match p, s with
  | [], _ => Some s
  | x :: p', y :: s' => if x =? y then strip_prefix p' s' else None
  | _ :: _, [] => None
  end.

(** One hexadecimal digit of a [\uXXXX] escape. *)
Definition hexval (c : N) : option N :=
  if (48 <=? c) && (c <=? 57) then Some (c - 48)
  else if (97 <=? c) && (c <=? 102) then Some (c - 87)
  else if (65 <=? c) && (c <=? 70) then Some (c - 55)
  else None.

Definition hex4_value (a b c d : N) : option N :=
  match hexval a, hexval b, hexval c, hexval d with
  | Some x, Some y, Some z, Some w => Some (((x * 16 + y) * 16 + z) * 16 + w)
  | _, _, _, _ => None
  end.

(** The [BACKSLASH] table of the decoder. *)
Definition backslash (e : N) : option N :=
  if e =? 34 then Some 34
  else if e =? 92 then Some 92
  else if e =? 47 then Some 47
  else if e =? 98 then Some 8
  else if e =? 102 then Some 12
  else if e =? 110 then Some 10
  else if e =? 114 then Some 13
  else if e =? 116 then Some 9
  else None.

Definition push (c : N) (r : option (text * text)) : option (text * text) :=
  match r with
  | Some (s, rest) => Some (c :: s, rest)
  | None => None
  end.

(** [scanstring(s, end)] with [end] just after the opening quote: the
    decoded string and the text after the closing quote.  A raw control
    character, an unknown escape, a malformed [\uXXXX] and a missing closing
    quote raise [ValueError] ([None]).  A high surrogate escape directly
    followed by a low surrogate escape yields one character. *)
Fixpoint scanstring (s : text) : option (text * text) :=
  match s with
  | [] => None
  | c :: r =>
      if c =? 34 then Some ([], r)
      else if c =? 92 then
        match r with
        | [] => None
        | e :: r1 =>
            if e =? 117 then
              match r1 with
              | h1 :: h2 :: h3 :: h4 :: r2 =>
                  match hex4_value h1 h2 h3 h4 with
                  | None => None
                  | Some uni =>
                      match r2 with
                      | b :: x :: g1 :: g2 :: g3 :: g4 :: r3 =>
                          if (55296 <=? uni) && (uni <=? 56319)
                             && (b =? 92) && (x =? 117)
                          then
                            match hex4_value g1 g2 g3 g4 with
                            | None => None
                            | Some uni2 =>
                                if (56320 <=? uni2) && (uni2 <=? 57343)
                                then push (65536 + N.lor (N.shiftl (uni - 55296) 10)
                                                         (uni2 - 56320))
                                          (scanstring r3)
                                else push uni (scanstring r2)
                            end
                          else push uni (scanstring r2)
                      | _ => push uni (scanstring r2)
                      end
                  end
              | _ => None
              end
            else
              match backslash e with
              | Some ch => push ch (scanstring r1)
              | None => None
              end
        end
      else if c <? 32 then None
      else push c (scanstring r)
  end.

(** The digits of a decimal numeral (applied to digits only). *)
Fixpoint uint_of_text (s : text) : Decimal.uint :=
  match s with
  | [] => Decimal.Nil
  | c :: r =>
      let d := uint_of_text r in
      if c =? 48 then Decimal.D0 d else if c =? 49 then Decimal.D1 d
      else if c =? 50 then Decimal.D2 d else if c =? 51 then Decimal.D3 d
      else if c =? 52 then Decimal.D4 d else if c =? 53 then Decimal.D5 d
      else if c =? 54 then Decimal.D6 d else if c =? 55 then Decimal.D7 d
      else if c =? 56 then Decimal.D8 d else Decimal.D9 d
  end.

(** [int(s)] on the integer group of [NUMBER_RE]. *)
Definition parse_int (s : text) : Z :=
  match s with
  | [] => 0%Z
  | c :: r =>
      if c =? 45 then Z.of_int (Decimal.Neg (uint_of_text r))
      else Z.of_int (Decimal.Pos (uint_of_text s))
  end.

(** The three groups of [NUMBER_RE]: an integer part (an optional minus
    sign, then a single 0 or a non-zero digit followed by digits), an
    optional fraction (a dot and at least one digit) and an optional
    exponent (e or E, an optional sign, at least one digit). *)
Definition match_digits1 (s : text) : option (text * text) :=
  match s with
  | [] => None
  | c :: r =>
      if c =? 48 then Some ([48], r)
      else if is_digit c
      then Some (c :: takewhile is_digit r, dropwhile is_digit r)
      else None
  end.

Definition match_integer (s : text) : option (text * text) :=
  match s with
  | [] => None
  | c :: r =>
      if c =? 45 then
        match match_digits1 r with
        | Some (ds, rest) => Some (45 :: ds, rest)
        | None => None
        end
      else match_digits1 s
  end.

Definition match_frac (s : text) : text * text :=
  match s with
  | p :: c :: r =>
      if (p =? 46) && is_digit c
      then (p :: c :: takewhile is_digit r, dropwhile is_digit r)
      else ([], s)
  | _ => ([], s)
  end.

Definition match_exp (s : text) : text * text :=
  match s with
  | e :: c :: r =>
      if (e =? 101) || (e =? 69) then
        if is_digit c
        then (e :: c :: takewhile is_digit r, dropwhile is_digit r)
        else if (c =? 45) || (c =? 43) then
          match r with
          | d :: r' =>
              if is_digit d
              then (e :: c :: d :: takewhile is_digit r', dropwhile is_digit r')
              else ([], s)
          | [] => ([], s)
          end
        else ([], s)
      else ([], s)
  | _ => ([], s)
  end.

Definition is_nil (s : text) : bool :=
  match s with [] => true | _ => false end.

Definition match_number (s : text) : option (json * text) :=
  match match_integer s with
  | None => None
  | Some (i, r1) =>
      let '(f, r2) := match_frac r1 in
      let '(e, r3) := match_exp r2 in
      if is_nil f && is_nil e
      then Some (JInt (parse_int i), r3)
      else Some (JFloat (float_of_literal (i ++ f ++ e)), r3)
  end.

(** [dict(pairs)]: a later pair replaces an earlier one with the same key. *)
Fixpoint dict_set (d : list (text * json)) (k : text) (v : json)
  : list (text * json) :=
  match d with
  | [] => [(k, v)]
  | (k', v') :: d' =>
      if text_eqb k' k then (k', v) :: d' else (k', v') :: dict_set d' k v
  end.

Definition dict (pairs : list (text * json)) : list (text * json) :=
  fold_left (fun d kv => dict_set d (fst kv) (snd kv)) pairs [].

(** The loops of [JSONArray] and [JSONObject], over the scanner of one
    value.  [m] bounds the number of elements. *)
Section Items.

Variable scan : text -> scanned (json * text).

Fixpoint array_items (m : nat) (s : text) : scanned (list json * text) :=
  match m with
  | O => NoJSON
  | S m' =>
      match scan s with
      | NoJSON => NoJSON
      | TooDeep => TooDeep
      | Scanned (v, r) =>
          match skip_ws r with
          | [] => NoJSON
          | c :: r' =>
              if c =? 93 then Scanned ([v], r')
              else if c =? 44 then
                match array_items m' (skip_ws r') with
                | Scanned (vs, r'') => Scanned (v :: vs, r'')
                | other => other
                end
              else NoJSON
          end
      end
  end.

(** [s] starts just after the opening quote of a key. *)
Fixpoint object_items (m : nat) (s : text)
  : scanned (list (text * json) * text) :=
  match m with
  | O => NoJSON
  | S m' =>
      match scanstring s with
      | None => NoJSON
      | Some (key, r) =>
          match skip_ws r with
          | [] => NoJSON
          | c :: r1 =>
              if c =? 58 then
                match scan (skip_ws r1) with
                | NoJSON => NoJSON
                | TooDeep => TooDeep
                | Scanned (v, r2) =>
                    match skip_ws r2 with
                    | [] => NoJSON
                    | c2 :: r3 =>
                        if c2 =? 125 then Scanned ([(key, v)], r3)
                        else if c2 =? 44 then
                          match skip_ws r3 with
                          | [] => NoJSON
                          | q :: r4 =>
                              if q =? 34 then
                                match object_items m' r4 with
                                | Scanned (kvs, r5) => Scanned ((key, v) :: kvs, r5)
                                | other => other
                                end
                              else NoJSON
                          end
                        else NoJSON
                    end
                end
              else NoJSON
          end
      end
  end.

End Items.

(** [scan_once(string, idx)], with [d] levels of recursion left: entering
    a list or a dictionary takes one, and with none left the scanner raises
    [RuntimeError] there and then.  [n] bounds the length of the text.
    [NoJSON] stands for [StopIteration] and [ValueError] alike:
    [json.loads] turns both into [ValueError]. *)
Fixpoint scan_once (n : nat) (d : nat) (s : text) : scanned (json * text) :=
  match n with
  | O => NoJSON
  | S n' =>
      match s with
      | [] => NoJSON
      | c :: r =>
          if c =? 34 then
            match scanstring r with
            | Some (str, rest) => Scanned (JStr str, rest)
            | None => NoJSON
            end
          else if c =? 123 then
            match d with
            | O => TooDeep
            | S d' =>
                match skip_ws r with
                | [] => NoJSON
                | c' :: r' =>
                    if c' =? 125 then Scanned (JObj [], r')
                    else if c' =? 34 then
                      match object_items (scan_once n' d') n' r' with
                      | Scanned (pairs, rest) => Scanned (JObj (dict pairs), rest)
                      | NoJSON => NoJSON
                      | TooDeep => TooDeep
                      end
                    else NoJSON
                end
            end
          else if c =? 91 then
            match d with
            | O => TooDeep
            | S d' =>
                match skip_ws r with
                | [] => NoJSON
                | c' :: r' =>
                    if c' =? 93 then Scanned (JArr [], r')
                    else
                      match array_items (scan_once n' d') n' (skip_ws r) with
                      | Scanned (vs, rest) => Scanned (JArr vs, rest)
                      | NoJSON => NoJSON
                      | TooDeep => TooDeep
                      end
                end
            end
          else
            match strip_prefix (u "null") s with
            | Some rest => Scanned (JNull, rest)
            | None =>
            match strip_prefix (u "true") s with
            | Some rest => Scanned (JBool true, rest)
            | None =>
            match strip_prefix (u "false") s with
            | Some rest => Scanned (JBool false, rest)
            | None =>
            match match_number s with
            | Some res => Scanned res
            | None =>
            match strip_prefix (u "NaN") s with
            | Some rest => Scanned (JFloat (float_of_literal (u "NaN")), rest)
            | None =>
            match strip_prefix (u "Infinity") s with
            | Some rest => Scanned (JFloat (float_of_literal (u "Infinity")), rest)
            | None =>
            match strip_prefix (u "-Infinity") s with
            | Some rest => Scanned (JFloat (float_of_literal (u "-Infinity")), rest)
            | None => NoJSON
            end end end end end end end
      end
  end.

(** [json.loads(s)]: leading whitespace, one value, trailing whitespace,
    end of text.  [NoJSON] is [ValueError], [TooDeep] is [RuntimeError]. *)
Definition json_loads (s : text) : scanned json :=
  match scan_once (S (length s)) loads_depth (skip_ws s) with
  | Scanned (v, r) =>
      match skip_ws r with
      | [] => Scanned v
      | _ :: _ => NoJSON
      end
  | NoJSON => NoJSON
  | TooDeep => TooDeep
  end.

(** *** The operations of Python the module applies to what it decoded *)

(** [len(o)] *)
Definition py_len (o : json) : M nat :=
  match o with
  | JStr s => ret (List.length s)
  | JArr l => ret (List.length l)
  | JObj d => ret (List.length d)
  | _ => raise TypeError
  end.

(** [o[i]] for an index [i >= 0]; the keys of a dictionary are strings, so
    an integer is never one of them. *)
Definition py_getitem (o : json) (i : nat) : M json :=
  match o with
  | JStr s =>
      match nth_error s i with
      | Some c => ret (JStr [c])
      | None => raise IndexError
      end
  | JArr l =>
      match nth_error l i with
      | Some x => ret x
      | None => raise IndexError
      end
  | JObj _ => raise KeyError
  | _ => raise TypeError
  end.

(** [o[1:]] *)
Definition py_slice_from1 (o : json) : M json :=
  match o with
  | JStr s => ret (JStr (tl s))
  | JArr l => ret (JArr (tl l))
  | _ => raise TypeError
  end.

(** [o.strip()] *)
Definition py_strip (o : json) : M json :=
  match o with
  | JStr s => ret (JStr (unicode_strip s))
  | _ => raise AttributeError
  end.

(** [o == s] for a string literal [s] *)
Definition py_eq_str (o : json) (s : text) : bool :=
  match o with
  | JStr k => text_eqb k s
  | _ => false
  end.

(** [json.loads(o)] on a Python value *)
Definition py_json_loads (o : json) : M json :=
  match o with
  | JStr s =>
      match json_loads s with
      | Scanned v => ret v
      | NoJSON => raise ValueError
      | TooDeep => raise RuntimeError
      end
  | _ => raise TypeError
  end.

(** [json.dumps(o)] *)
Definition py_json_dumps (o : json) : M text :=
  match dumped o with
  | Some s => ret s
  | None => raise RuntimeError
  end.

(** ** The module *)

(** [init()], given the process's original stdin and stdout. *)
Definition init (sys_stdin : text) (sys_stdout : outfile) (st : state) : state :=
  mkState (from_lock st) (to_lock st) sys_stdin sys_stdout.

Definition _receive_ipc_message : M (json * json) :=
  acquire_from ;;;
  msg <- readline ;;
  release_from ;;;
  msg_obj <- py_json_loads (JStr (str_rstrip msg)) ;;
  n <- py_len msg_obj ;;
  py_assert (1 <=? n)%nat ;;;
  keyword <- py_getitem msg_obj 0 ;;
  payload <- py_slice_from1 msg_obj ;;
  stripped <- py_strip keyword ;;
  py_assert (negb (py_eq_str stripped [])) ;;;
  ret (keyword, payload).

Definition _send_ipc_message (msg_obj : json) : M unit :=
  s <- py_json_dumps msg_obj ;;
  acquire_to ;;;
  write s ;;;
  write [10] ;;;
  flush ;;;
  release_to.

(** The [while True] loop of [receive_message]; [fuel] bounds the number
    of lines read. *)
Fixpoint receive_loop (fuel : nat) : M json :=
  match fuel with
  | O => fun _ => Hangs
  | S fuel' =>
      msg_obj <- _receive_ipc_message ;;
      let '(keyword, data) := msg_obj in
      if py_eq_str keyword (u "message") then
        n <- py_len data ;;
        py_assert (n =? 1)%nat ;;;
        ret data
      else receive_loop fuel'
  end.

Definition receive_message (decode : option text) : M json :=
  decoder <- match decode with
             | Some d =>
                 if text_eqb d (u "json") then ret true
                 else raise (Exception (u "No such decoder: " ++ d))
             | None => ret false
             end ;;
  data <- (fun st => receive_loop (S (List.length (fh_from_manager st))) st) ;;
  msg_content <- py_getitem data 0 ;;
  if (decoder : bool) then py_json_loads msg_content else ret msg_content.

(** The first statement of [send_result]: the result as it will travel. *)
Definition encode_result (result : json) (encode : option text) : M json :=
  match encode with
  | Some e =>
      if text_eqb e (u "json")
      then s <- py_json_dumps result ;; ret (JStr s)
      else raise (Exception (u "No such encoder: " ++ e))
  | None => ret result
  end.

Definition send_result (result : json) (encode : option text) : M unit :=
  result' <- encode_result result encode ;;
  _send_ipc_message (JArr [JStr (u "result"); result']).

Definition send_heartbeat : M unit :=
  _send_ipc_message (JArr [JStr (u "heartbeat")]).

(** ** What "representable in JSON" means for a Python value *)

(** A Unicode scalar value: a code point that is not a surrogate. *)
Definition scalar (c : N) : bool :=
  (c <? 55296) || ((57344 <=? c) && (c <? 1114112)).

(** [s] is, from end to end, a number of the JSON grammar with a fraction or
    an exponent. *)
Definition float_literal (s : text) : bool :=
  match match_integer s with
  | None => false
  | Some (i, r1) =>
      let '(f, r2) := match_frac r1 in
      let '(e, r3) := match_exp r2 in
      negb (is_nil f && is_nil e) && is_nil r3
  end.

(** Strings are sequences of scalar values, the keys of a dictionary are
    pairwise distinct, and a float is a finite one: [json.dumps] prints it
    as a number of the JSON grammar. *)
Unset Elimination Schemes.
Inductive representable : json -> Prop :=
| rep_null : representable JNull
| rep_bool b : representable (JBool b)
| rep_int z : representable (JInt z)
| rep_float f :
    float_literal (float_repr f) = true ->
    representable (JFloat f)
| rep_str s : forallb scalar s = true -> representable (JStr s)
| rep_arr l : Forall representable l -> representable (JArr l)
| rep_obj items :
    NoDup (map fst items) ->
    Forall (fun kv => forallb scalar (fst kv) = true
                      /\ representable (snd kv)) items ->
    representable (JObj items).
Set Elimination Schemes.

(** The first character of a serialized value: never whitespace, never a
    closing bracket. *)
Definition value_start (c : N) : Prop := json_ws c = false /\ c <> 93.

(** The text after a number: nothing that could prolong it. *)
Definition num_end (rest : text) : bool :=
  match rest with
  | [] => true
  | c :: _ =>
      negb (is_digit c || (c =? 46) || (c =? 101) || (c =? 69)
            || (c =? 43) || (c =? 45))
  end.

(** ** Vocabulary of the statements *)

(** The characters [' '..'~']. *)
Definition printable (c : N) : bool := (32 <=? c) && (c <=? 126).

Definition num_char (c : N) : bool :=
  is_digit c || (c =? 45) || (c =? 43) || (c =? 46) || (c =? 101) || (c =? 69).

(** Empty or made of whitespace only: what [k.strip() != ''] rejects. *)
Definition blank (k : text) : bool := forallb unicode_isspace k.

(** The selectors [receive_message] and [send_result] accept. *)
Definition known_selector (sel : option text) : Prop :=
  sel = None \/ sel = Some (u "json").

(** The envelope a decoded line stands for, if any: a list that starts
    with a string that is not blank gives that string and the rest of the
    list; a string that starts with a character that is not whitespace gives
    that character and the rest of the string. *)
Definition envelope_of (v : json) : option (json * json) :=
  match v with
  | JArr (JStr k :: payload) =>
      if blank k then None else Some (JStr k, JArr payload)
  | JStr (c :: s) =>
      if unicode_isspace c then None else Some (JStr [c], JStr s)
  | _ => None
  end.

(** The state after the next line has been read off stdin, and that line. *)
Definition next_line (st : state) : text := fst (split_line (fh_from_manager st)).

Definition after_line (st : state) : state :=
  mkState (from_lock st) (to_lock st)
          (snd (split_line (fh_from_manager st))) (fh_to_manager st).

(** From [st], the envelopes met up to [st'] all decode and none has the
    keyword ["message"]. *)
Inductive discards : state -> state -> Prop :=
| discards_nil st : discards st st
| discards_cons st keyword data st1 st2 :
    _receive_ipc_message st = Return (keyword, data) st1 ->
    py_eq_str keyword (u "message") = false ->
    discards st1 st2 ->
    discards st st2.

(** The state after [s] and a newline have been written and flushed. *)
Definition sent (s : text) (st : state) : state :=
  mkState (from_lock st) (to_lock st) (fh_from_manager st)
          (mkOut (flushed (fh_to_manager st)
                  ++ (pending (fh_to_manager st) ++ s) ++ [10]) []).

(** The exception [_receive_ipc_message] ends with on a decoded value that
    gives no envelope. *)
Definition decode_failure (v : json) : exn :=
  match v with
  | JStr _ | JArr [] | JArr (JStr _ :: _) | JObj [] => AssertionError
  | JArr (_ :: _) => AttributeError
  | JObj (_ :: _) => KeyError
  | _ => TypeError
  end.

(** The inbound text of the filtering scenario: three lines. *)
Definition filtering_stream : text :=
  wire "['heartbeat']" ++ 10 :: wire "['message', 'X']" ++ 10
  :: wire "['other', 1]" ++ [10].

(** The line [send_result({"a": [1, 2, 3]}, 'json')] writes, without its
    newline: the result travels as one JSON string. *)
Definition json_mode_line : text := wire "['result', '{\'a\': [1, 2, 3]}']".

(** ** Threads

    Several threads call the senders at once.  A thread is known by the
    statement it is about to execute; one step of the system is one
    statement of one thread, and a thread that waits for the lock has no
    step.  What a thread does before [to_lock.acquire] touches nothing
    shared. *)

Inductive call : Type :=
| Heartbeat
| Result (result : json) (encode : option text).

Inductive thread : Type :=
| Called (c : call)         (* the call has not started *)
| Dumped (s : text)         (* s = json.dumps(msg_obj); next: to_lock.acquire(True) *)
| Locked (s : text)         (* next: fh_to_manager.write(s) *)
| WroteText (s : text)      (* next: fh_to_manager.write('\n') *)
| WroteNewline (s : text)   (* next: fh_to_manager.flush() *)
| Flushed (s : text)        (* next: to_lock.release() *)
| Returned (s : text)       (* the call has returned *)
| Raised (e : exn).         (* the call has raised *)

(** One statement [m], then [next]. *)
Definition advance {A} (m : M A) (next : A -> thread) (st : state)
  : option (thread * state) :=
  match m st with
  | Return a st' => Some (next a, st')
  | Raise e st' => Some (Raised e, st')
  | Hangs => None
  end.

Definition thread_step (t : thread) (st : state) : option (thread * state) :=
  match t with
  | Called Heartbeat =>
      advance (py_json_dumps (JArr [JStr (u "heartbeat")])) Dumped st
  | Called (Result result encode) =>
      advance (r <- encode_result result encode ;;
               py_json_dumps (JArr [JStr (u "result"); r]))
              Dumped st
  | Dumped s => advance acquire_to (fun _ => Locked s) st
  | Locked s => advance (write s) (fun _ => WroteText s) st
  | WroteText s => advance (write [10]) (fun _ => WroteNewline s) st
  | WroteNewline s => advance flush (fun _ => Flushed s) st
  | Flushed s => advance release_to (fun _ => Returned s) st
  | Returned _ | Raised _ => None
  end.

Fixpoint set_nth {A} (i : nat) (x : A) (l : list A) : list A :=
  match l, i with
  | [], _ => []
  | _ :: l', O => x :: l'
  | y :: l', S i' => y :: set_nth i' x l'
  end.

(** Thread [i] executes its next statement. *)
Definition step (cfg : state * list thread) (i : nat)
  : option (state * list thread) :=
  let '(st, ts) := cfg in
  match nth_error ts i with
  | None => None
  | Some t =>
      match thread_step t st with
      | None => None
      | Some (t', st') => Some (st', set_nth i t' ts)
      end
  end.

Inductive reachable (c0 : state * list thread) : state * list thread -> Prop :=
| reach_init : reachable c0 c0
| reach_step c i c' : reachable c0 c -> step c i = Some c' -> reachable c0 c'.

(** A thread run on its own, statement after statement. *)
Fixpoint run_thread (fuel : nat) (t : thread) (st : state) : thread * state :=
  match fuel with
  | O => (t, st)
  | S fuel' =>
      match thread_step t st with
      | Some (t', st') => run_thread fuel' t' st'
      | None => (t, st)
      end
  end.

(** The text a call sends, if its selector is a known one and the
    recursion limit lets [json.dumps] through. *)
Definition line_of_call (c : call) : option text :=
  match c with
  | Heartbeat => dumped (JArr [JStr (u "heartbeat")])
  | Result result None => dumped (JArr [JStr (u "result"); result])
  | Result result (Some e) =>
      if text_eqb e (u "json")
      then match dumped result with
           | Some s => dumped (JArr [JStr (u "result"); JStr s])
           | None => None
           end
      else None
  end.

Definition call_representable (c : call) : Prop :=
  match c with
  | Heartbeat => True
  | Result result _ => representable result
  end.

(** Between [acquire] and [release]. *)
Definition critical (t : thread) : bool :=
  match t with
  | Locked _ | WroteText _ | WroteNewline _ | Flushed _ => true
  | _ => false
  end.

Definition terminated (t : thread) : bool :=
  match t with
  | Returned _ | Raised _ => true
  | _ => false
  end.

(** What a thread inside the critical section has written so far. *)
Definition written (t : thread) : text :=
  match t with
  | WroteText s => s
  | WroteNewline s | Flushed s => s ++ [10]
  | _ => []
  end.

(** The texts of the calls that have returned, in thread order. *)
Definition returned_texts (ts : list thread) : list text :=
  flat_map (fun t => match t with Returned s => [s] | _ => [] end) ts.

(** Everything written to stdout so far, flushed or not. *)
Definition out (st : state) : text :=
  flushed (fh_to_manager st) ++ pending (fh_to_manager st).

Definition lines (done : list text) : text :=
  concat (map (fun s => s ++ [10]) done).

(** Thread [t] is somewhere in call [c]. *)
Definition follows (c : call) (t : thread) : Prop :=
  match t with
  | Called c' => c' = c
  | Dumped s | Locked s | WroteText s | WroteNewline s | Flushed s | Returned s =>
      line_of_call c = Some s
  | Raised _ => line_of_call c = None
  end.

(** The file as the thread in the critical section, if any, has left it,
    [f] being the text flushed before it came in. *)
Definition file_at (f : text) (holder : list thread) : option outfile :=
  match holder with
  | [] | [Locked _] => Some (mkOut f [])
  | [WroteText s] => Some (mkOut f s)
  | [WroteNewline s] => Some (mkOut f (s ++ [10]))
  | [Flushed s] => Some (mkOut (f ++ s ++ [10]) [])
  | _ => None
  end.

(** What holds of every state the threads can reach from [st0]. *)
Definition serialized (calls : list call) (st0 : state)
           (cfg : state * list thread) : Prop :=
  let '(st, ts) := cfg in
  exists done : list text,
    Permutation done (returned_texts ts)
    /\ Forall2 follows calls ts
    /\ to_lock st = existsb critical ts
    /\ file_at (flushed (fh_to_manager st0) ++ lines done) (filter critical ts)
       = Some (fh_to_manager st).

(** The call a thread runs, as the method it is. *)
Definition run_call (c : call) : M unit :=
  match c with
  | Heartbeat => send_heartbeat
  | Result result encode => send_result result encode
  end.

(** ** Concrete states and runs *)

(** Locks free, nothing written yet, [stdin] to be read. *)
Definition idle (stdin : text) : state := mkState false false stdin (mkOut [] []).

(** The threads scheduled one after the other. *)
Fixpoint run_schedule (cfg : state * list thread) (schedule : list nat)
  : option (state * list thread) :=
  match schedule with
  | [] => Some cfg
  | i :: rest =>
      match step cfg i with
      | Some cfg' => run_schedule cfg' rest
      | None => None
      end
  end.

(** What a receive leaves of a state: the locks as they were, stdout
    untouched, and of the inbound text a suffix. *)
Definition receive_frame (st st' : state) : Prop :=
  from_lock st' = from_lock st /\ to_lock st' = to_lock st
  /\ fh_to_manager st' = fh_to_manager st
  /\ exists consumed, fh_from_manager st = consumed ++ fh_from_manager st'.

(** ** Sequences of calls and of envelopes *)

(** The calls of one thread, one after the other; the first exception
    ends the sequence. *)
Fixpoint run_calls (cs : list call) : M unit :=
  match cs with
  | [] => ret tt
  | c :: rest => run_call c ;;; run_calls rest
  end.

(** [n] envelopes read in a row. *)
Fixpoint receive_n (n : nat) : M (list (json * json)) :=
  match n with
  | O => ret []
  | S n' =>
      e <- _receive_ipc_message ;;
      es <- receive_n n' ;;
      ret (e :: es)
  end.

Definition call_known (c : call) : Prop :=
  match c with
  | Heartbeat => True
  | Result _ encode => known_selector encode
  end.

(** The result of the call is nested no deeper than [json.dumps] can go:
    on its own when it is encoded first, inside the envelope otherwise. *)
Definition call_fits (c : call) : Prop :=
  match c with
  | Heartbeat => True
  | Result result None => (S (depth result) <= dumps_depth)%nat
  | Result result (Some _) => (depth result <= dumps_depth)%nat
  end.

(** The line of the call is within the limit of the reader: a result
    that travels as it is must fit; one that travels as JSON text is a
    string to the reader. *)
Definition call_readable (c : call) : Prop :=
  match c with
  | Result result None => (S (depth result) <= loads_depth)%nat
  | _ => True
  end.


(** [n] lists, one inside the other, around [v]. *)
Fixpoint nest (n : nat) (v : json) : json :=
  match n with
  | O => v
  | S n' => JArr [nest n' v]
  end.

(** The message a call hands to [_send_ipc_message], as the pair of a
    keyword and a payload. *)
Definition envelope_of_call (c : call) : json * json :=
  match c with
  | Heartbeat => (JStr (u "heartbeat"), JArr [])
  | Result result None => (JStr (u "result"), JArr [result])
  | Result result (Some _) => (JStr (u "result"), JArr [JStr (json_dumps result)])
  end.

(** The envelope of a call as the reader gets it. *)
Definition envelope_read (c : call) : json * json :=
  (fst (envelope_of_call c), reread (snd (envelope_of_call c))).

(** The line of an envelope on the wire. *)
Definition envelope_line (keyword : text) (payload : list json) : text :=
  json_dumps (JArr (JStr keyword :: payload)) ++ [10].

(** A value whose text [json.loads] reads to the end: representable, and
    nested no deeper than the recursion limit lets the decoder go. *)
Definition readable (v : json) : Prop :=
  representable v /\ (depth v <= loads_depth)%nat.

(** An envelope, given as keyword and payload, that [receive_message]
    reads and drops. *)
Definition droppable (e : text * list json) : Prop :=
  blank (fst e) = false /\ fst e <> u "message"
  /\ readable (JArr (JStr (fst e) :: snd e)).

(** What [receive_message] makes of the one element of a message. *)
Definition deliver (decode : option text) (content : json) (st : state)
  : outcome json :=
  match decode with
  | None => Return content st
  | Some _ =>
      match content with
      | JStr s =>
          match json_loads s with
          | Scanned v => Return v st
          | NoJSON => Raise ValueError st
          | TooDeep => Raise RuntimeError st
          end
      | _ => Raise TypeError st
      end
  end.

(** ** The class around its file handles

    The methods again, over what [fh_from_manager.readline],
    [fh_to_manager.write] and [fh_to_manager.flush] do: once [init()] has
    bound the handles these are [readline], [write] and [flush], and the
    methods are the ones above; before, the handles are [None] and the
    attribute look-up raises. *)

Section Handles.

Variable fh_readline : M text.
Variable fh_write : text -> M unit.
Variable fh_flush : M unit.

Definition receive_ipc_message_on : M (json * json) :=
  acquire_from ;;;
  msg <- fh_readline ;;
  release_from ;;;
  msg_obj <- py_json_loads (JStr (str_rstrip msg)) ;;
  n <- py_len msg_obj ;;
  py_assert (1 <=? n)%nat ;;;
  keyword <- py_getitem msg_obj 0 ;;
  payload <- py_slice_from1 msg_obj ;;
  stripped <- py_strip keyword ;;
  py_assert (negb (py_eq_str stripped [])) ;;;
  ret (keyword, payload).

Definition send_ipc_message_on (msg_obj : json) : M unit :=
  s <- py_json_dumps msg_obj ;;
  acquire_to ;;;
  fh_write s ;;;
  fh_write [10] ;;;
  fh_flush ;;;
  release_to.

Fixpoint receive_loop_on (fuel : nat) : M json :=
  match fuel with
  | O => fun _ => Hangs
  | S fuel' =>
      msg_obj <- receive_ipc_message_on ;;
      let '(keyword, data) := msg_obj in
      if py_eq_str keyword (u "message") then
        n <- py_len data ;;
        py_assert (n =? 1)%nat ;;;
        ret data
      else receive_loop_on fuel'
  end.

Definition receive_message_on (decode : option text) : M json :=
  decoder <- match decode with
             | Some d =>
                 if text_eqb d (u "json") then ret true
                 else raise (Exception (u "No such decoder: " ++ d))
             | None => ret false
             end ;;
  data <- (fun st => receive_loop_on (S (List.length (fh_from_manager st))) st) ;;
  msg_content <- py_getitem data 0 ;;
  if (decoder : bool) then py_json_loads msg_content else ret msg_content.

Definition send_result_on (result : json) (encode : option text) : M unit :=
  result' <- encode_result result encode ;;
  send_ipc_message_on (JArr [JStr (u "result"); result']).

Definition send_heartbeat_on : M unit :=
  send_ipc_message_on (JArr [JStr (u "heartbeat")]).

End Handles.

(** ** The methods in the process *)

Definition p_receive_message (decode : option text) (p : process) : poutcome json :=
  in_process (receive_message_on (p_readline p) decode) p.

Definition p_send_result (result : json) (encode : option text) (p : process)
  : poutcome unit :=
  in_process (send_result_on (p_write p) (p_flush p) result encode) p.

Definition p_send_heartbeat (p : process) : poutcome unit :=
  in_process (send_heartbeat_on (p_write p) (p_flush p)) p.

(** What a program does, as far as the streams go: it prints and it calls
    the senders. *)
Inductive action : Type :=
| Print (s : text)
| Send (c : call).

Definition p_run_call (c : call) (p : process) : poutcome unit :=
  match c with
  | Heartbeat => p_send_heartbeat p
  | Result result encode => p_send_result result encode p
  end.

Fixpoint run_actions (acts : list action) (p : process) : poutcome unit :=
  match acts with
  | [] => PReturn tt p
  | Print s :: rest => run_actions rest (p_print s p)
  | Send c :: rest =>
      match p_run_call c p with
      | PReturn _ p' => run_actions rest p'
      | PRaise e p' => PRaise e p'
      | PHangs => PHangs
      end
  end.

(** The lines of the calls among [acts], and the text of its prints. *)
Fixpoint sent_lines (acts : list action) : list text :=
  match acts with
  | [] => []
  | Print _ :: rest => sent_lines rest
  | Send c :: rest =>
      match line_of_call c with
      | Some s => s :: sent_lines rest
      | None => sent_lines rest
      end
  end.

Fixpoint printed (acts : list action) : text :=
  match acts with
  | [] => []
  | Print s :: rest => s ++ 10 :: printed rest
  | Send _ :: rest => printed rest
  end.

(** An action whose call, if it is one, has a known selector. *)
Definition action_known (a : action) : Prop :=
  match a with
  | Print _ => True
  | Send c => call_known c
  end.

Definition action_fits (a : action) : Prop :=
  match a with
  | Print _ => True
  | Send c => call_fits c
  end.


End IPC.

(** Floats read as the literal that denotes them: the instance behind the
    closed examples at the end, none of which holds a float. *)
Definition literal_float : PyFloat :=
  {| pyfloat := text; float_of_literal := fun s => s; float_repr := fun s => s |}.

(** The default recursion limit with none of it used up, the most an
    interpreter that has not changed it can have left: the limit behind the
    closed examples at the end, which are nested two deep at most or 1500
    deep. *)
Definition default_limit : PyLimit :=
  {| dumps_depth := 1000; loads_depth := 1000;
     dumps_depth_min := proj1 (Nat.leb_le 2 1000) eq_refl;
     loads_depth_min := proj1 (Nat.leb_le 1 1000) eq_refl |}.


(** * Properties *)

Section Theory.

Context {PF : PyFloat} {PL : PyLimit}.

(** ** Text *)

Lemma text_eqb_spec (a b : text) : reflect (a = b) (text_eqb a b).
Proof.
  revert b; induction a as [|x a IH]; intros [|y b]; simpl;
    try (constructor; congruence).
  destruct (N.eqb_spec x y) as [->|Hne]; simpl.
  - destruct (IH b) as [->|Hne]; constructor; congruence.
  - constructor; congruence.
Qed.

Lemma text_eqb_refl (a : text) : text_eqb a a = true.
Proof. destruct (text_eqb_spec a a); congruence. Qed.

Lemma text_eqb_neq (a b : text) : a <> b -> text_eqb a b = false.
Proof. destruct (text_eqb_spec a b); congruence. Qed.

Lemma takewhile_app_all p (a rest : text) :
  Forall (fun c => p c = true) a ->
  match rest with [] => True | c :: _ => p c = false end ->
  takewhile p (a ++ rest) = a.
Proof.
  induction 1 as [|c a Hc _ IH]; intros Hr; simpl.
  - destruct rest as [|c r]; simpl; [reflexivity | now rewrite Hr].
  - rewrite Hc, IH; auto.
Qed.

Lemma dropwhile_app_all p (a rest : text) :
  Forall (fun c => p c = true) a ->
  match rest with [] => True | c :: _ => p c = false end ->
  dropwhile p (a ++ rest) = rest.
Proof.
  induction 1 as [|c a Hc _ IH]; intros Hr; simpl.
  - destruct rest as [|c r]; simpl; [reflexivity | now rewrite Hr].
  - rewrite Hc, IH; auto.
Qed.

Lemma dropwhile_head p (c : N) (r : text) :
  p c = false -> dropwhile p (c :: r) = c :: r.
Proof. intros H; simpl; now rewrite H. Qed.

Lemma rstrip_with_app_last p (a : text) (c : N) :
  p c = false -> rstrip_with p (a ++ [c]) = a ++ [c].
Proof.
  intros Hc; induction a as [|x a IH]; simpl.
  - now rewrite Hc.
  - rewrite IH. destruct a; reflexivity.
Qed.

Lemma rstrip_with_app_space p (a : text) (c : N) :
  p c = true -> rstrip_with p (a ++ [c]) = rstrip_with p a.
Proof.
  intros Hc; induction a as [|x a IH]; simpl.
  - now rewrite Hc.
  - now rewrite IH.
Qed.

Lemma split_line_app (l rest : text) :
  ~ In 10 l -> split_line (l ++ 10 :: rest) = (l ++ [10], rest).
Proof.
  induction l as [|c l IH]; intros Hin; simpl.
  - reflexivity.
  - destruct (N.eqb_spec c 10) as [->|_].
    + exfalso; apply Hin; now left.
    + rewrite IH; [reflexivity | intros H; apply Hin; now right].
Qed.

Lemma split_line_length (s : text) :
  (List.length (snd (split_line s)) <= List.length s)%nat
  /\ (s <> [] -> List.length (snd (split_line s)) < List.length s)%nat.
Proof.
  induction s as [|c s [IH1 IH2]]; simpl.
  - split; [lia | congruence].
  - destruct (c =? 10); simpl.
    + split; [lia | intros _; lia].
    + destruct (split_line s) as [l r]; simpl in *. split; [lia | intros _; lia].
Qed.

(** ** Decimal numerals *)

Lemma uint_of_text_of_uint (d : Decimal.uint) :
  uint_of_text (text_of_uint d) = d.
Proof. induction d; simpl; congruence. Qed.

Lemma text_of_uint_digits (d : Decimal.uint) :
  Forall (fun c => is_digit c = true) (text_of_uint d).
Proof. induction d; simpl; constructor; auto. Qed.

Lemma pos_to_uint_normal (p : positive) :
  Decimal.unorm (Pos.to_uint p) = Pos.to_uint p.
Proof.
  rewrite <- (DecimalPos.Unsigned.to_of (Pos.to_uint p)).
  rewrite DecimalPos.Unsigned.of_to. reflexivity.
Qed.

Lemma pos_to_uint_head (p : positive) :
  exists c r, text_of_uint (Pos.to_uint p) = c :: r
              /\ is_digit c = true /\ c <> 48.
Proof.
  pose proof (pos_to_uint_normal p) as Hn.
  pose proof (DecimalPos.Unsigned.to_uint_nonzero p) as Hz.
  pose proof (DecimalPos.Unsigned.to_uint_nonnil p) as Hnil.
  destruct (Pos.to_uint p) as [|d|d|d|d|d|d|d|d|d|d] eqn:E;
    try congruence;
    try (simpl; eexists _, _; split; [reflexivity | split; [reflexivity | lia]]).
  exfalso. rewrite DecimalFacts.unorm_D0 in Hn. unfold Decimal.unorm in Hn.
  pose proof (DecimalFacts.nzhead_nonzero d) as Hnz.
  destruct (Decimal.nzhead d) eqn:E'; congruence.
Qed.

(** ** Numbers *)

Lemma takewhile_app p (s rest : text) :
  match rest with [] => True | c :: _ => p c = false end ->
  takewhile p (s ++ rest) = takewhile p s.
Proof.
  intros Hr; induction s as [|c s IH]; simpl.
  - destruct rest as [|c r]; simpl; [reflexivity | now rewrite Hr].
  - now rewrite IH.
Qed.

Lemma dropwhile_app p (s rest : text) :
  match rest with [] => True | c :: _ => p c = false end ->
  dropwhile p (s ++ rest) = dropwhile p s ++ rest.
Proof.
  intros Hr; induction s as [|c s IH]; simpl.
  - destruct rest as [|c r]; simpl; [reflexivity | now rewrite Hr].
  - rewrite IH. now destruct (p c).
Qed.

Lemma takewhile_dropwhile p (s : text) :
  takewhile p s ++ dropwhile p s = s.
Proof.
  induction s as [|c s IH]; simpl; [reflexivity|].
  destruct (p c); simpl; congruence.
Qed.

Lemma num_end_digit (rest : text) :
  num_end rest = true ->
  match rest with [] => True | c :: _ => is_digit c = false end.
Proof.
  destruct rest as [|c r]; simpl; [auto|].
  intros H. apply negb_true_iff in H.
  repeat (apply orb_false_iff in H; destruct H as [H ?]). exact H.
Qed.

Lemma num_end_head (c : N) (r : text) :
  num_end (c :: r) = true ->
  is_digit c = false /\ (c =? 46) = false /\ (c =? 101) = false
  /\ (c =? 69) = false /\ (c =? 43) = false /\ (c =? 45) = false.
Proof.
  simpl. intros H. apply negb_true_iff in H.
  repeat (apply orb_false_iff in H; destruct H as [H ?]). auto 10.
Qed.

Lemma match_digits1_app (s rest i r : text) :
  num_end rest = true ->
  match_digits1 s = Some (i, r) ->
  match_digits1 (s ++ rest) = Some (i, r ++ rest).
Proof.
  intros Hr. pose proof (num_end_digit _ Hr) as Hd.
  destruct s as [|c s]; simpl; [discriminate|].
  destruct (c =? 48); [intros [= <- <-]; reflexivity|].
  destruct (is_digit c); [|discriminate].
  intros [= <- <-]. now rewrite takewhile_app, dropwhile_app.
Qed.

Lemma match_integer_app (s rest i r : text) :
  num_end rest = true ->
  match_integer s = Some (i, r) ->
  match_integer (s ++ rest) = Some (i, r ++ rest).
Proof.
  intros Hr. destruct s as [|c s]; [discriminate|].
  unfold match_integer. rewrite <- app_comm_cons.
  destruct (c =? 45).
  - destruct (match_digits1 s) as [[ds r']|] eqn:E; [|discriminate].
    intros [= <- <-]. now rewrite (match_digits1_app _ _ _ _ Hr E).
  - rewrite app_comm_cons. now apply match_digits1_app.
Qed.

Lemma match_frac_app (s rest f r : text) :
  num_end rest = true ->
  match_frac s = (f, r) ->
  match_frac (s ++ rest) = (f, r ++ rest).
Proof.
  intros Hr. pose proof (num_end_digit _ Hr) as Hd.
  destruct s as [|p [|c s]]; simpl.
  - intros [= <- <-]. destruct rest as [|x [|y rest]]; try reflexivity.
    apply num_end_head in Hr. destruct Hr as (_ & Hdot & _).
    simpl. now rewrite Hdot.
  - intros [= <- <-]. destruct rest as [|x rest]; [reflexivity|].
    simpl. rewrite Hd. now rewrite andb_false_r.
  - destruct ((p =? 46) && is_digit c); intros [= <- <-]; [|reflexivity].
    now rewrite takewhile_app, dropwhile_app.
Qed.

Lemma match_exp_app (s rest e r : text) :
  num_end rest = true ->
  match_exp s = (e, r) ->
  match_exp (s ++ rest) = (e, r ++ rest).
Proof.
  intros Hr. pose proof (num_end_digit _ Hr) as Hd.
  destruct s as [|x [|c s]]; simpl.
  - intros [= <- <-]. destruct rest as [|y [|z rest]]; try reflexivity.
    apply num_end_head in Hr. destruct Hr as (_ & _ & He1 & He2 & _).
    simpl. now rewrite He1, He2.
  - intros [= <- <-]. destruct rest as [|y rest]; [reflexivity|].
    simpl. rewrite Hd.
    apply num_end_head in Hr. destruct Hr as (_ & _ & _ & _ & Hp & Hm).
    rewrite Hp, Hm. simpl. now destruct ((x =? 101) || (x =? 69)).
  - destruct ((x =? 101) || (x =? 69)); [|intros [= <- <-]; reflexivity].
    destruct (is_digit c).
    { intros [= <- <-]. now rewrite takewhile_app, dropwhile_app. }
    destruct ((c =? 45) || (c =? 43)); [|intros [= <- <-]; reflexivity].
    destruct s as [|d s]; simpl.
    + intros [= <- <-]. destruct rest as [|y rest]; [reflexivity|].
      now rewrite Hd.
    + destruct (is_digit d); intros [= <- <-]; [|reflexivity].
      now rewrite takewhile_app, dropwhile_app.
Qed.

Lemma match_number_app (s rest r : text) (v : json) :
  num_end rest = true ->
  match_number s = Some (v, r) ->
  match_number (s ++ rest) = Some (v, r ++ rest).
Proof.
  intros Hr. unfold match_number.
  destruct (match_integer s) as [[i r1]|] eqn:Ei; [|discriminate].
  rewrite (match_integer_app _ _ _ _ Hr Ei).
  destruct (match_frac r1) as [f r2] eqn:Ef.
  rewrite (match_frac_app _ _ _ _ Hr Ef).
  destruct (match_exp r2) as [e r3] eqn:Ee.
  rewrite (match_exp_app _ _ _ _ Hr Ee).
  destruct (is_nil f && is_nil e); now intros [= <- <-].
Qed.

Lemma match_digits1_pos (p : positive) :
  match_digits1 (text_of_uint (Pos.to_uint p))
  = Some (text_of_uint (Pos.to_uint p), []).
Proof.
  destruct (pos_to_uint_head p) as (c & r & E & Hd & Hz).
  pose proof (text_of_uint_digits (Pos.to_uint p)) as Hall.
  rewrite E in *. simpl. apply N.eqb_neq in Hz. rewrite Hz, Hd.
  inversion Hall; subst.
  rewrite <- (List.app_nil_r r) at 1 2.
  now rewrite takewhile_app_all, dropwhile_app_all.
Qed.

Lemma match_integer_str_int (z : Z) :
  match_integer (str_int z) = Some (str_int z, []).
Proof.
  destruct z as [|p|p]; unfold str_int; simpl Z.to_int; cbv iota.
  - reflexivity.
  - destruct (pos_to_uint_head p) as (c & r & E & Hd & Hz).
    unfold match_integer. rewrite E.
    replace (c =? 45) with false.
    + rewrite <- E. apply match_digits1_pos.
    + symmetry. apply N.eqb_neq. unfold is_digit in Hd.
      apply andb_true_iff in Hd. destruct Hd as [H1 H2].
      apply N.leb_le in H1, H2. lia.
  - unfold match_integer. rewrite N.eqb_refl. now rewrite match_digits1_pos.
Qed.

Lemma parse_int_str_int (z : Z) : parse_int (str_int z) = z.
Proof.
  rewrite <- (DecimalZ.of_to z) at 2.
  destruct z as [|p|p]; unfold str_int; simpl Z.to_int; cbv iota.
  - reflexivity.
  - destruct (pos_to_uint_head p) as (c & r & E & Hd & Hz).
    unfold parse_int. rewrite E.
    replace (c =? 45) with false.
    + rewrite <- E. now rewrite uint_of_text_of_uint.
    + symmetry. apply N.eqb_neq. unfold is_digit in Hd.
      apply andb_true_iff in Hd. destruct Hd as [H1 H2].
      apply N.leb_le in H1, H2. lia.
  - unfold parse_int. rewrite N.eqb_refl. now rewrite uint_of_text_of_uint.
Qed.

Lemma match_number_int (z : Z) (rest : text) :
  num_end rest = true ->
  match_number (str_int z ++ rest) = Some (JInt z, rest).
Proof.
  intros Hr. apply (match_number_app (str_int z) rest [] (JInt z) Hr).
  unfold match_number. rewrite match_integer_str_int. simpl.
  now rewrite parse_int_str_int.
Qed.

Lemma match_integer_split (s i r : text) :
  match_integer s = Some (i, r) -> s = i ++ r.
Proof.
  assert (Hd : forall s i r, match_digits1 s = Some (i, r) -> s = i ++ r).
  { intros [|c t] i' r'; simpl; [discriminate|].
    destruct (c =? 48) eqn:E0.
    - apply N.eqb_eq in E0. subst. now intros [= <- <-].
    - destruct (is_digit c); [|discriminate]. intros [= <- <-].
      simpl. now rewrite takewhile_dropwhile. }
  destruct s as [|c t]; [discriminate|].
  unfold match_integer. destruct (c =? 45) eqn:E.
  - apply N.eqb_eq in E. subst.
    destruct (match_digits1 t) as [[ds r']|] eqn:E'; [|discriminate].
    intros [= <- <-]. simpl. f_equal. now apply Hd.
  - apply Hd.
Qed.

Lemma match_frac_split (s f r : text) : match_frac s = (f, r) -> s = f ++ r.
Proof.
  destruct s as [|p [|c s]]; simpl; try (now intros [= <- <-]).
  destruct ((p =? 46) && is_digit c); intros [= <- <-]; [|reflexivity].
  simpl. now rewrite takewhile_dropwhile.
Qed.

Lemma match_exp_split (s e r : text) : match_exp s = (e, r) -> s = e ++ r.
Proof.
  destruct s as [|x [|c s]]; simpl; try (now intros [= <- <-]).
  destruct ((x =? 101) || (x =? 69)); [|now intros [= <- <-]].
  destruct (is_digit c).
  { intros [= <- <-]. simpl. now rewrite takewhile_dropwhile. }
  destruct ((c =? 45) || (c =? 43)); [|now intros [= <- <-]].
  destruct s as [|d s]; [now intros [= <- <-]|].
  destruct (is_digit d); intros [= <- <-]; [|reflexivity].
  simpl. now rewrite takewhile_dropwhile.
Qed.

Lemma match_number_float (f : pyfloat) (rest : text) :
  float_literal (float_repr f) = true ->
  num_end rest = true ->
  match_number (float_repr f ++ rest)
  = Some (JFloat (float_of_literal (float_repr f)), rest).
Proof.
  intros Hl Hr.
  apply (match_number_app (float_repr f) rest []
           (JFloat (float_of_literal (float_repr f))) Hr).
  unfold float_literal in Hl. unfold match_number.
  destruct (match_integer (float_repr f)) as [[i r1]|] eqn:Ei; [|discriminate].
  destruct (match_frac r1) as [fr r2] eqn:Ef.
  destruct (match_exp r2) as [e r3] eqn:Ee.
  apply andb_true_iff in Hl. destruct Hl as [Hne Hnil].
  apply negb_true_iff in Hne. rewrite Hne.
  destruct r3; [|discriminate].
  apply match_integer_split in Ei. apply match_frac_split in Ef.
  apply match_exp_split in Ee. subst r2 r1.
  rewrite List.app_nil_r in Ei. rewrite <- Ei. reflexivity.
Qed.

(** ** Strings *)

Ltac nlia := zify; Z.to_euclidean_division_equations; lia.

Lemma hexval_hexdigit (d : N) : d < 16 -> hexval (hexdigit d) = Some d.
Proof.
  intros H.
  assert (d = 0 \/ d = 1 \/ d = 2 \/ d = 3 \/ d = 4 \/ d = 5 \/ d = 6 \/ d = 7
          \/ d = 8 \/ d = 9 \/ d = 10 \/ d = 11 \/ d = 12 \/ d = 13 \/ d = 14
          \/ d = 15) as Hc by lia.
  repeat (destruct Hc as [-> | Hc]; [reflexivity|]). subst; reflexivity.
Qed.

Lemma hex4_value_hex4 (n : N) :
  n < 65536 ->
  hex4_value (hexdigit (n / 4096)) (hexdigit ((n / 256) mod 16))
             (hexdigit ((n / 16) mod 16)) (hexdigit (n mod 16)) = Some n.
Proof.
  intros H. unfold hex4_value.
  rewrite !hexval_hexdigit by nlia. f_equal. nlia.
Qed.

Lemma lor_shifted (x y : N) : y < 1024 -> N.lor (x * 1024) y = x * 1024 + y.
Proof.
  intros Hy.
  assert (Hland : N.land (x * 1024) y = 0).
  { apply N.bits_inj. intros i. rewrite N.land_spec, N.bits_0.
    destruct (N.lt_ge_cases i 10) as [Hi|Hi].
    - change 1024 with (2 ^ 10). now rewrite N.mul_pow2_bits_low.
    - destruct (N.eq_dec y 0) as [->|Hy0].
      + now rewrite N.bits_0, andb_false_r.
      + rewrite (N.bits_above_log2 y i), andb_false_r; [reflexivity|].
        apply N.log2_lt_pow2; [lia|].
        apply N.lt_le_trans with (2 ^ 10); [exact Hy|].
        apply N.pow_le_mono_r; lia. }
  rewrite <- (N.lxor_lor _ _ Hland). symmetry. now apply N.add_nocarry_lxor.
Qed.

Lemma surrogate_pair (c : N) :
  65536 <= c -> c < 1114112 ->
  let n := c - 65536 in
  let s1 := N.lor 55296 (N.land (N.shiftr n 10) 1023) in
  let s2 := N.lor 56320 (N.land n 1023) in
  s1 = 55296 + n / 1024 /\ s2 = 56320 + n mod 1024
  /\ 65536 + N.lor (N.shiftl (s1 - 55296) 10) (s2 - 56320) = c.
Proof.
  intros Hlo Hhi n s1 s2.
  assert (Hn : n < 1048576) by (unfold n; lia).
  assert (E1 : s1 = 55296 + n / 1024).
  { unfold s1. rewrite N.shiftr_div_pow2. change (2 ^ 10) with 1024.
    change 1023 with (N.ones 10). rewrite N.land_ones.
    change (2 ^ 10) with 1024. rewrite N.mod_small by nlia.
    change 55296 with (54 * 1024). apply lor_shifted. nlia. }
  assert (E2 : s2 = 56320 + n mod 1024).
  { unfold s2. change 1023 with (N.ones 10). rewrite N.land_ones.
    change (2 ^ 10) with 1024.
    change 56320 with (55 * 1024). apply lor_shifted. nlia. }
  split; [exact E1 | split; [exact E2 |]].
  rewrite E1, E2, N.shiftl_mul_pow2. change (2 ^ 10) with 1024.
  replace (55296 + n / 1024 - 55296) with (n / 1024) by nlia.
  replace (56320 + n mod 1024 - 56320) with (n mod 1024) by nlia.
  rewrite lor_shifted by nlia. unfold n. nlia.
Qed.

(** After a [\uXXXX] escape that is not a high surrogate the scanner goes
    on with the character as it stands. *)
Lemma scanstring_uXXXX (uni : N) (h1 h2 h3 h4 : N) (r2 : text) :
  hex4_value h1 h2 h3 h4 = Some uni ->
  (55296 <=? uni) && (uni <=? 56319) = false ->
  scanstring (92 :: 117 :: h1 :: h2 :: h3 :: h4 :: r2)
  = push uni (scanstring r2).
Proof.
  intros Hh Hs. cbn [scanstring]. cbn [N.eqb Pos.eqb N.ltb N.compare Pos.compare Pos.compare_cont].
  rewrite Hh, Hs. cbn [andb].
  destruct r2 as [|b [|x [|g1 [|g2 [|g3 [|g4 r3]]]]]]; reflexivity.
Qed.

Lemma scanstring_pair (u1 u2 : N) (h1 h2 h3 h4 g1 g2 g3 g4 : N) (r3 : text) :
  hex4_value h1 h2 h3 h4 = Some u1 ->
  hex4_value g1 g2 g3 g4 = Some u2 ->
  (55296 <=? u1) && (u1 <=? 56319) = true ->
  (56320 <=? u2) && (u2 <=? 57343) = true ->
  scanstring (92 :: 117 :: h1 :: h2 :: h3 :: h4
              :: 92 :: 117 :: g1 :: g2 :: g3 :: g4 :: r3)
  = push (65536 + N.lor (N.shiftl (u1 - 55296) 10) (u2 - 56320))
         (scanstring r3).
Proof.
  intros H1 H2 Hs1 Hs2. cbn [scanstring].
  cbn [N.eqb Pos.eqb N.ltb N.compare Pos.compare Pos.compare_cont].
  rewrite H1, Hs1. cbn [andb N.eqb Pos.eqb]. rewrite H2, Hs2. reflexivity.
Qed.

Lemma scanstring_plain (c : N) (r : text) :
  c <> 34 -> c <> 92 -> 32 <= c ->
  scanstring (c :: r) = push c (scanstring r).
Proof.
  intros H1 H2 H3. cbn [scanstring].
  apply N.eqb_neq in H1, H2. rewrite H1, H2.
  replace (c <? 32) with false by (symmetry; apply N.ltb_ge; lia).
  reflexivity.
Qed.

Lemma scanstring_escape_char (c : N) (tail s rest : text) :
  scalar c = true ->
  scanstring tail = Some (s, rest) ->
  scanstring (escape_char c ++ tail) = Some (c :: s, rest).
Proof.
  intros Hc IH. unfold escape_char.
  repeat match goal with
  | |- context [if c =? ?k then _ else _] =>
      destruct (N.eqb_spec c k) as [->|?];
      [cbn [app scanstring]; cbn; now rewrite IH|]
  end.
  destruct ((32 <=? c) && (c <=? 126)) eqn:Hr.
  { apply andb_true_iff in Hr. destruct Hr as [Hr _]. apply N.leb_le in Hr.
    cbn [app]. rewrite scanstring_plain by assumption. now rewrite IH. }
  assert (Hs : c < 55296 \/ (57344 <= c /\ c < 1114112)).
  { unfold scalar in Hc. apply orb_true_iff in Hc. destruct Hc as [Hc|Hc].
    - left. now apply N.ltb_lt.
    - right. apply andb_true_iff in Hc. destruct Hc as [Ha Hb].
      apply N.leb_le in Ha. apply N.ltb_lt in Hb. lia. }
  destruct (N.ltb_spec c 65536) as [Hlt|Hge].
  - unfold hex4. cbn [app].
    rewrite (scanstring_uXXXX c).
    + now rewrite IH.
    + now apply hex4_value_hex4.
    + apply andb_false_iff. destruct Hs as [Hs|[Hs _]].
      * left. apply N.leb_gt. lia.
      * right. apply N.leb_gt. lia.
  - destruct (surrogate_pair c Hge) as (E1 & E2 & E3); [lia|].
    cbv zeta in E1, E2, E3 |- *. unfold hex4. cbn [app].
    set (s1 := N.lor 55296 (N.land (N.shiftr (c - 65536) 10) 1023)) in *.
    set (s2 := N.lor 56320 (N.land (c - 65536) 1023)) in *.
    assert (Hn : (c - 65536) / 1024 < 1024) by nlia.
    assert (Hm : (c - 65536) mod 1024 < 1024) by nlia.
    rewrite (scanstring_pair s1 s2).
    + rewrite E3, IH. reflexivity.
    + apply hex4_value_hex4. rewrite E1. clear -Hn. nlia.
    + apply hex4_value_hex4. rewrite E2. clear -Hm. nlia.
    + rewrite E1. clear -Hn. apply andb_true_iff. split; apply N.leb_le; nlia.
    + rewrite E2. clear -Hm. apply andb_true_iff. split; apply N.leb_le; nlia.
Qed.

Lemma scanstring_encoded (s rest : text) :
  forallb scalar s = true ->
  scanstring (flat_map escape_char s ++ 34 :: rest) = Some (s, rest).
Proof.
  induction s as [|c s IH]; intros Hs.
  - reflexivity.
  - simpl in Hs. apply andb_true_iff in Hs. destruct Hs as [Hc Hs].
    cbn [flat_map]. rewrite <- app_assoc.
    apply scanstring_escape_char; auto.
Qed.

(** ** Values *)

Lemma json_induction (P : json -> Prop) :
  P JNull ->
  (forall b, P (JBool b)) ->
  (forall z, P (JInt z)) ->
  (forall f, P (JFloat f)) ->
  (forall s, P (JStr s)) ->
  (forall l, Forall P l -> P (JArr l)) ->
  (forall items, Forall (fun kv => P (snd kv)) items -> P (JObj items)) ->
  forall v, P v.
Proof.
  intros Hnull Hbool Hint Hfloat Hstr Harr Hobj.
  fix IH 1. intros [ |b|z|f|s|l|items].
  - exact Hnull.
  - apply Hbool.
  - apply Hint.
  - apply Hfloat.
  - apply Hstr.
  - apply Harr. revert l. fix IHl 1. intros [|x l]; constructor.
    + apply IH.
    + apply IHl.
  - apply Hobj. revert items. fix IHl 1. intros [|[k x] l]; constructor.
    + apply IH.
    + apply IHl.
Qed.

Lemma is_digit_range (c : N) : is_digit c = true <-> 48 <= c <= 57.
Proof.
  unfold is_digit. rewrite andb_true_iff, !N.leb_le. tauto.
Qed.

Lemma match_integer_head (s i r : text) :
  match_integer s = Some (i, r) ->
  exists c t, s = c :: t /\ (is_digit c = true \/ c = 45).
Proof.
  destruct s as [|c t]; [discriminate|].
  unfold match_integer. intros H. exists c, t. split; [reflexivity|].
  destruct (N.eqb_spec c 45); [now right|]. left.
  simpl in H. destruct (N.eqb_spec c 48) as [->|_]; [reflexivity|].
  now destruct (is_digit c).
Qed.

Lemma str_int_head (z : Z) :
  exists c t, str_int z = c :: t /\ (is_digit c = true \/ c = 45).
Proof.
  eapply match_integer_head. apply match_integer_str_int.
Qed.

Lemma float_literal_head (s : text) :
  float_literal s = true ->
  exists c t, s = c :: t /\ (is_digit c = true \/ c = 45).
Proof.
  unfold float_literal.
  destruct (match_integer s) as [[i r]|] eqn:E; [|discriminate].
  intros _. eapply match_integer_head; eauto.
Qed.

Lemma number_start (c : N) : is_digit c = true \/ c = 45 -> value_start c.
Proof.
  intros [H| ->]; [|split; [reflexivity | lia]].
  apply is_digit_range in H. split; [|lia].
  unfold json_ws. repeat (apply orb_false_iff; split); apply N.eqb_neq; lia.
Qed.

Lemma dumps_head (v : json) :
  representable v ->
  exists c r, json_dumps v = c :: r /\ value_start c.
Proof.
  intros Hv.
  assert (Hlit : forall c r, json_ws c = false -> c <> 93 ->
                 exists c' r', c :: r = c' :: r' /\ value_start c').
  { intros c r H1 H2. exists c, r. repeat split; assumption. }
  destruct Hv as [ |b|z|f Hl|s Hs|l Hl|items Hk Hi].
  - apply (Hlit 110); [reflexivity | lia].
  - destruct b; [apply (Hlit 116) | apply (Hlit 102)]; (reflexivity || lia).
  - destruct (str_int_head z) as (c & t & E & H). exists c, t.
    split; [exact E | now apply number_start].
  - destruct (float_literal_head _ Hl) as (c & t & E & H). exists c, t.
    split; [exact E | now apply number_start].
  - apply (Hlit 34); [reflexivity | lia].
  - apply (Hlit 91); [reflexivity | lia].
  - apply (Hlit 123); [reflexivity | lia].
Qed.

Lemma skip_ws_start (c : N) (r : text) :
  value_start c -> skip_ws (c :: r) = c :: r.
Proof. intros [H _]. unfold skip_ws. now apply dropwhile_head. Qed.

Lemma skip_ws_dumps (v : json) (rest : text) :
  representable v -> skip_ws (json_dumps v ++ rest) = json_dumps v ++ rest.
Proof.
  intros Hv. destruct (dumps_head v Hv) as (c & r & E & Hc).
  rewrite E. now apply skip_ws_start.
Qed.

(** A text that opens with a digit or a minus sign is scanned as a number. *)
Lemma scan_once_number (n d : nat) (s rest : text) (v : json) :
  match_number s = Some (v, rest) ->
  scan_once (S n) d s = Scanned (v, rest).
Proof.
  intros H.
  assert (Hh : exists c t, s = c :: t /\ (is_digit c = true \/ c = 45)).
  { unfold match_number in H.
    destruct (match_integer s) as [[i r]|] eqn:E; [|discriminate].
    eapply match_integer_head; eauto. }
  destruct Hh as (c & t & -> & Hc).
  assert (Hr : 45 <= c <= 57).
  { destruct Hc as [Hc| ->]; [apply is_digit_range in Hc|]; lia. }
  cbn [scan_once].
  replace (c =? 34) with false by (symmetry; apply N.eqb_neq; lia).
  replace (c =? 123) with false by (symmetry; apply N.eqb_neq; lia).
  replace (c =? 91) with false by (symmetry; apply N.eqb_neq; lia).
  change (u "null") with [110; 117; 108; 108].
  change (u "true") with [116; 114; 117; 101].
  change (u "false") with [102; 97; 108; 115; 101].
  cbn [strip_prefix].
  replace (110 =? c) with false by (symmetry; apply N.eqb_neq; lia).
  replace (116 =? c) with false by (symmetry; apply N.eqb_neq; lia).
  replace (102 =? c) with false by (symmetry; apply N.eqb_neq; lia).
  now rewrite H.
Qed.

(** ** Dictionaries *)

Lemma dict_set_fresh (d : list (text * json)) (k : text) (v : json) :
  ~ In k (map fst d) -> dict_set d k v = d ++ [(k, v)].
Proof.
  induction d as [|[k' v'] d IH]; intros Hk; simpl.
  - reflexivity.
  - rewrite text_eqb_neq by (intros ->; apply Hk; now left).
    rewrite IH; [reflexivity | intros H; apply Hk; now right].
Qed.

Lemma dict_fold_nodup (items acc : list (text * json)) :
  NoDup (map fst (acc ++ items)) ->
  fold_left (fun d kv => dict_set d (fst kv) (snd kv)) items acc = acc ++ items.
Proof.
  revert acc. induction items as [|[k v] items IH]; intros acc Hnd; simpl.
  - now rewrite List.app_nil_r.
  - rewrite dict_set_fresh.
    + rewrite IH; rewrite <- app_assoc; [reflexivity | exact Hnd].
    + rewrite map_app in Hnd. simpl in Hnd.
      apply NoDup_remove_2 in Hnd. intros H. apply Hnd.
      apply in_or_app. now left.
Qed.

Lemma dict_nodup (items : list (text * json)) :
  NoDup (map fst items) -> dict items = items.
Proof. intros H. unfold dict. now rewrite dict_fold_nodup. Qed.

(** ** [json.loads] after [json.dumps] *)

Lemma skip_ws_space (s : text) : skip_ws (32 :: s) = skip_ws s.
Proof. reflexivity. Qed.

Lemma join_comma_cons (p : text) (q : text) (ps : list text) :
  join_comma (p :: q :: ps) = p ++ 44 :: 32 :: join_comma (q :: ps).
Proof. reflexivity. Qed.

Lemma join_comma_head (c : N) (r : text) (ps : list text) :
  exists r', join_comma ((c :: r) :: ps) = c :: r'.
Proof. destruct ps; cbn [join_comma app]; eexists; reflexivity. Qed.

Lemma skip_ws_join (y : json) (l : list json) (t : text) :
  representable y ->
  skip_ws (join_comma (map json_dumps (y :: l)) ++ t)
  = join_comma (map json_dumps (y :: l)) ++ t.
Proof.
  intros Hy. destruct (dumps_head y Hy) as (c & r & E & Hc).
  change (map json_dumps (y :: l)) with (json_dumps y :: map json_dumps l).
  rewrite E.
  destruct (join_comma_head c r (map json_dumps l)) as (r' & Hj).
  rewrite Hj.
  now apply skip_ws_start.
Qed.

Section ItemsRoundTrip.

Variable scan : text -> scanned (json * text).

(** What the scanner of one value is assumed to do on a serialized [x]. *)
Let scans (x : json) : Prop :=
  forall rest, num_end rest = true -> scan (json_dumps x ++ rest) = Scanned (reread x, rest).

Lemma array_items_dumps (l : list json) (m : nat) (rest : text) :
  l <> [] -> Forall representable l -> Forall scans l ->
  (List.length l <= m)%nat ->
  array_items scan m (join_comma (map json_dumps l) ++ 93 :: rest)
  = Scanned (map reread l, rest).
Proof.
  revert m. induction l as [|x l IH]; intros m Hne Hrep Hscan Hm; [congruence|].
  inversion Hrep as [|? ? Hx Hl]; subst. inversion Hscan as [|? ? Sx Sl]; subst.
  destruct m as [|m]; [simpl in Hm; lia|].
  destruct l as [|y l].
  - cbn [map join_comma array_items]. rewrite Sx by reflexivity.
    cbn. reflexivity.
  - cbn [map]. rewrite join_comma_cons, <- app_assoc.
    cbn [array_items]. rewrite Sx by reflexivity.
    cbn [app]. rewrite skip_ws_start by (split; [reflexivity | lia]).
    cbn [N.eqb Pos.eqb]. rewrite skip_ws_space.
    inversion Hl as [|? ? Hy _]; subst.
    change (json_dumps y :: map json_dumps l) with (map json_dumps (y :: l)).
    rewrite skip_ws_join by assumption.
    rewrite IH; auto; [congruence | simpl in *; lia].
Qed.

Let item (kv : text * json) : text :=
  encode_basestring_ascii (fst kv) ++ 58 :: 32 :: json_dumps (snd kv).

Lemma object_items_dumps (items : list (text * json)) (m : nat) (body rest : text) :
  items <> [] ->
  Forall (fun kv => forallb scalar (fst kv) = true /\ representable (snd kv)) items ->
  Forall (fun kv => scans (snd kv)) items ->
  (List.length items <= m)%nat ->
  join_comma (map item items) ++ 125 :: rest = 34 :: body ->
  object_items scan m body
  = Scanned (map (fun kv => (fst kv, reread (snd kv))) items, rest).
Proof.
  revert m body. induction items as [|[k x] items IH];
    intros m body Hne Hrep Hscan Hm Hbody; [congruence|].
  inversion Hrep as [|? ? [Hk Hx] Hl]; subst.
  inversion Hscan as [|? ? Sx Sl]; subst. cbn [fst snd] in *.
  destruct m as [|m]; [simpl in Hm; lia|].
  assert (Hkey : forall t, num_end t = true ->
            object_items scan (S m)
              (flat_map escape_char k ++ 34 :: 58 :: 32 :: json_dumps x ++ t)
            = match skip_ws t with
              | [] => NoJSON
              | c2 :: r3 =>
                  if c2 =? 125 then Scanned ([(k, reread x)], r3)
                  else if c2 =? 44 then
                    match skip_ws r3 with
                    | [] => NoJSON
                    | q :: r4 =>
                        if q =? 34 then
                          match object_items scan m r4 with
                          | Scanned (kvs, r5) => Scanned ((k, reread x) :: kvs, r5)
                          | other => other
                          end
                        else NoJSON
                    end
                  else NoJSON
              end).
  { intros t Ht. cbn [object_items]. rewrite scanstring_encoded by assumption.
    rewrite skip_ws_start by (split; [reflexivity | lia]).
    cbn [N.eqb Pos.eqb]. rewrite skip_ws_space.
    rewrite skip_ws_dumps by assumption.
    now rewrite Sx by assumption. }
  destruct items as [|[k' y] items].
  - cbn [map join_comma] in Hbody. unfold item, encode_basestring_ascii in Hbody.
    cbn [fst snd] in Hbody.
    rewrite <- !app_assoc in Hbody. cbn [app] in Hbody.
    rewrite <- !app_assoc in Hbody. cbn [app] in Hbody.
    injection Hbody as <-.
    rewrite Hkey by reflexivity. reflexivity.
  - cbn [map] in Hbody. rewrite join_comma_cons in Hbody.
    assert (Htail : exists body',
              join_comma (item (k', y) :: map item items) ++ 125 :: rest
              = 34 :: body').
    { generalize (map item items). intros [|q qs]; eexists; reflexivity. }
    destruct Htail as (body' & Hb').
    specialize (IH m body').
    change (item (k', y) :: map item items)
      with (map item ((k', y) :: items)) in Hbody, Hb'.
    remember (join_comma (map item ((k', y) :: items))) as tail eqn:Etail.
    unfold item at 1 in Hbody. unfold encode_basestring_ascii in Hbody.
    cbn [fst snd] in Hbody.
    rewrite <- !app_assoc in Hbody. cbn [app] in Hbody.
    rewrite <- !app_assoc in Hbody. cbn [app] in Hbody.
    injection Hbody as <-.
    rewrite Hkey by reflexivity.
    rewrite skip_ws_start by (split; [reflexivity | lia]).
    cbn [N.eqb Pos.eqb]. rewrite skip_ws_space, Hb'.
    rewrite skip_ws_start by (split; [reflexivity | lia]).
    cbn [N.eqb Pos.eqb].
    rewrite IH; auto; [congruence | simpl in *; lia].
Qed.




End ItemsRoundTrip.

Lemma join_comma_length_in (p : text) (parts : list text) :
  In p parts -> (List.length p <= List.length (join_comma parts))%nat.
Proof.
  induction parts as [|q parts IH]; intros Hin; [contradiction|].
  destruct parts as [|q' parts].
  - destruct Hin as [->|[]]. simpl. lia.
  - rewrite join_comma_cons, length_app.
    change (List.length (44 :: 32 :: join_comma (q' :: parts)))
      with (S (S (List.length (join_comma (q' :: parts))))).
    destruct Hin as [->|Hin]; [lia|]. specialize (IH Hin). lia.
Qed.

Lemma join_comma_length_ge (parts : list text) :
  Forall (fun p => p <> []) parts ->
  (List.length parts <= List.length (join_comma parts))%nat.
Proof.
  induction 1 as [|q parts Hq Hall IH]; [simpl; lia|].
  destruct parts as [|q' parts].
  - destruct q; [congruence | simpl; lia].
  - rewrite join_comma_cons, length_app.
    change (List.length (q :: q' :: parts)) with (S (List.length (q' :: parts))).
    change (List.length (44 :: 32 :: join_comma (q' :: parts)))
      with (S (S (List.length (join_comma (q' :: parts))))).
    lia.
Qed.

Lemma dumps_nonempty (v : json) : representable v -> json_dumps v <> [].
Proof.
  intros Hv. destruct (dumps_head v Hv) as (c & r & E & _). congruence.
Qed.

Lemma depth_in (e : json) (l : list json) :
  In e l -> (depth e <= list_max (map depth l))%nat.
Proof.
  intros He.
  assert (H : Forall (fun k => (k <= list_max (map depth l))%nat) (map depth l)).
  { apply list_max_le. lia. }
  rewrite Forall_forall in H. apply H. now apply in_map.
Qed.

Lemma depth_in_items (e : text * json) (items : list (text * json)) :
  In e items ->
  (depth (snd e) <= list_max (map (fun kv => depth (snd kv)) items))%nat.
Proof.
  intros He.
  assert (H : Forall (fun k => (k <= list_max (map (fun kv => depth (snd kv)) items))%nat)
                     (map (fun kv => depth (snd kv)) items)).
  { apply list_max_le. lia. }
  rewrite Forall_forall in H. apply H.
  now apply (in_map (fun kv => depth (snd kv))).
Qed.

Lemma reread_float_free (v : json) : float_free v = true -> reread v = v.
Proof.
  induction v as [ |b|z|f|s|l IH|items IH] using json_induction;
    cbn [float_free reread]; intros H; try reflexivity; try discriminate.
  - f_equal. rewrite forallb_forall in H. rewrite Forall_forall in IH.
    rewrite <- (map_id l) at 2. apply map_ext_in. intros e He. auto.
  - f_equal. rewrite forallb_forall in H. rewrite Forall_forall in IH.
    rewrite <- (map_id items) at 2. apply map_ext_in. intros [k x] He.
    cbn [fst snd]. f_equal. apply (IH (k, x) He). apply (H (k, x) He).
Qed.

Lemma scan_once_dumps (v : json) :
  representable v ->
  forall (n d : nat) (rest : text),
    (List.length (json_dumps v) < n)%nat ->
    (depth v <= d)%nat ->
    num_end rest = true ->
    scan_once n d (json_dumps v ++ rest) = Scanned (reread v, rest).
Proof.
  induction v as [ |b|z|f|s|l IH|items IH] using json_induction;
    intros Hrep n d rest Hn Hd Hrest; (destruct n as [|n]; [lia|]).
  - reflexivity.
  - destruct b; reflexivity.
  - apply scan_once_number. now apply match_number_int.
  - inversion Hrep; subst. apply scan_once_number.
    now apply match_number_float.
  - inversion Hrep; subst. cbn [json_dumps]. unfold encode_basestring_ascii.
    rewrite <- app_comm_cons, <- app_assoc. cbn [scan_once N.eqb Pos.eqb app].
    now rewrite scanstring_encoded.
  - inversion Hrep as [ | | | | |? Hl| ]; subst.
    cbn [depth] in Hd. destruct d as [|d]; [lia|].
    destruct l as [|x l]; [reflexivity|].
    cbn [json_dumps] in *. rewrite <- app_comm_cons, <- app_assoc.
    cbn [List.length] in Hn. rewrite length_app in Hn. cbn [List.length] in Hn.
    cbn [scan_once N.eqb Pos.eqb app].
    inversion Hl as [|? ? Hx Hl']; subst.
    rewrite skip_ws_join by assumption.
    destruct (dumps_head x Hx) as (c & r & E & Hc1 & Hc2).
    assert (Hj : exists r', join_comma (map json_dumps (x :: l)) = c :: r').
    { cbn [map]. rewrite E. apply join_comma_head. }
    destruct Hj as (r' & Hj).
    assert (Hitems : array_items (scan_once n d) n
                       (join_comma (map json_dumps (x :: l)) ++ 93 :: rest)
                     = Scanned (map reread (x :: l), rest)).
    { apply array_items_dumps; try assumption; [congruence | |].
      - rewrite Forall_forall in IH |- *. intros e He rest' Hr'.
        apply IH; [assumption | | | | assumption].
        + rewrite Forall_forall in Hl. now apply Hl.
        + pose proof (join_comma_length_in (json_dumps e)
                        (map json_dumps (x :: l)) (in_map _ _ _ He)). lia.
        + pose proof (depth_in e (x :: l) He). lia.
      - pose proof (join_comma_length_ge (map json_dumps (x :: l))) as Hge.
        rewrite length_map in Hge.
        assert (Hne : Forall (fun p : text => p <> []) (map json_dumps (x :: l))).
        { rewrite Forall_forall. intros p Hp. apply in_map_iff in Hp.
          destruct Hp as (e & <- & He). apply dumps_nonempty.
          rewrite Forall_forall in Hl. now apply Hl. }
        specialize (Hge Hne). lia. }
    rewrite Hitems. rewrite Hj. cbn [app].
    apply N.eqb_neq in Hc2. now rewrite Hc2.
  - inversion Hrep as [ | | | | | |? Hk Hi]; subst.
    cbn [depth] in Hd. destruct d as [|d]; [lia|].
    destruct items as [|[k x] items]; [reflexivity|].
    cbn [json_dumps] in *. rewrite <- app_comm_cons, <- app_assoc.
    cbn [List.length] in Hn. rewrite length_app in Hn. cbn [List.length] in Hn.
    set (item := fun kv : text * json =>
                   encode_basestring_ascii (fst kv) ++ 58 :: 32 :: json_dumps (snd kv)) in *.
    assert (Hb : exists body,
               join_comma (map item ((k, x) :: items)) ++ 125 :: rest = 34 :: body).
    { cbn [map]. generalize (map item items). intros [|q qs]; eexists; reflexivity. }
    destruct Hb as (body & Hb).
    assert (Hitems : object_items (scan_once n d) n body
                     = Scanned (map (fun kv => (fst kv, reread (snd kv)))
                                    ((k, x) :: items), rest)).
    { apply object_items_dumps; try assumption; [congruence | |].
      - rewrite Forall_forall in IH |- *. intros e He rest' Hr'.
        rewrite Forall_forall in Hi. destruct (Hi e He) as [_ Hre].
        apply IH; [assumption | assumption | | | assumption].
        + pose proof (join_comma_length_in (item e)
                        (map item ((k, x) :: items)) (in_map _ _ _ He)) as Hle.
          unfold item at 1 in Hle. rewrite length_app in Hle.
          cbn [List.length] in Hle. lia.
        + pose proof (depth_in_items e ((k, x) :: items) He). lia.
      - pose proof (join_comma_length_ge (map item ((k, x) :: items))) as Hge.
        rewrite length_map in Hge.
        assert (Hne : Forall (fun p : text => p <> []) (map item ((k, x) :: items))).
        { rewrite Forall_forall. intros p Hp. apply in_map_iff in Hp.
          destruct Hp as (e & <- & He). unfold item, encode_basestring_ascii.
          discriminate. }
        specialize (Hge Hne). lia. }
    cbn [scan_once N.eqb Pos.eqb app]. rewrite Hb.
    cbn [skip_ws dropwhile json_ws N.eqb Pos.eqb orb].
    rewrite Hitems. rewrite dict_nodup; [reflexivity|].
    now rewrite map_map, (map_ext _ fst) by reflexivity.
Qed.

(** The text of a value is read back as the value, each float in it having
    gone through [repr] and [float]. *)
Theorem json_loads_dumps (v : json) :
  readable v -> json_loads (json_dumps v) = Scanned (reread v).
Proof.
  intros (Hv & Hd). unfold json_loads.
  rewrite <- (List.app_nil_r (json_dumps v)) at 2.
  rewrite skip_ws_dumps by assumption.
  rewrite scan_once_dumps; auto.
Qed.




(** ** What [json.dumps] writes *)

Lemma forall_takewhile p (s : text) : Forall (fun c => p c = true) (takewhile p s).
Proof.
  induction s as [|c s IH]; simpl; [constructor|].
  destruct (p c) eqn:E; constructor; auto.
Qed.

Lemma digit_num_char (c : N) : is_digit c = true -> num_char c = true.
Proof. intros H. unfold num_char. now rewrite H. Qed.

Lemma digits_num_char (s : text) :
  Forall (fun c => num_char c = true) (takewhile is_digit s).
Proof.
  eapply Forall_impl; [|apply forall_takewhile]. apply digit_num_char.
Qed.

Lemma match_digits1_chars (s i r : text) :
  match_digits1 s = Some (i, r) -> Forall (fun c => num_char c = true) i.
Proof.
  destruct s as [|c s]; simpl; [discriminate|].
  destruct (c =? 48); [intros [= <- <-]; repeat constructor|].
  destruct (is_digit c) eqn:E; [|discriminate]. intros [= <- <-].
  constructor; [now apply digit_num_char | apply digits_num_char].
Qed.

Lemma match_integer_chars (s i r : text) :
  match_integer s = Some (i, r) -> Forall (fun c => num_char c = true) i.
Proof.
  destruct s as [|c s]; [discriminate|]. unfold match_integer.
  destruct (c =? 45).
  - destruct (match_digits1 s) as [[ds r']|] eqn:E; [|discriminate].
    intros [= <- <-]. constructor; [reflexivity|].
    eapply match_digits1_chars; eauto.
  - apply match_digits1_chars.
Qed.

Lemma match_frac_chars (s f r : text) :
  match_frac s = (f, r) -> Forall (fun c => num_char c = true) f.
Proof.
  destruct s as [|p [|c s]]; simpl; try (intros [= <- <-]; constructor).
  destruct (N.eqb_spec p 46) as [->|_]; simpl; [|intros [= <- <-]; constructor].
  destruct (is_digit c) eqn:E; intros [= <- <-]; [|constructor].
  repeat constructor; [now apply digit_num_char | apply digits_num_char].
Qed.

Lemma match_exp_chars (s e r : text) :
  match_exp s = (e, r) -> Forall (fun c => num_char c = true) e.
Proof.
  destruct s as [|x [|c s]]; simpl; try (intros [= <- <-]; constructor).
  destruct ((x =? 101) || (x =? 69)) eqn:Ex; [|intros [= <- <-]; constructor].
  assert (Hx : num_char x = true).
  { unfold num_char. apply orb_true_iff in Ex. destruct Ex as [-> | ->];
      now rewrite ?orb_true_r. }
  destruct (is_digit c) eqn:Ec.
  { intros [= <- <-].
    repeat constructor; [assumption | now apply digit_num_char | apply digits_num_char]. }
  destruct ((c =? 45) || (c =? 43)) eqn:Es; [|intros [= <- <-]; constructor].
  assert (Hc : num_char c = true).
  { unfold num_char. apply orb_true_iff in Es. destruct Es as [-> | ->];
      now rewrite ?orb_true_r. }
  destruct s as [|d s]; [intros [= <- <-]; constructor|].
  destruct (is_digit d) eqn:Ed; intros [= <- <-]; [|constructor].
  repeat constructor;
    [assumption | assumption | now apply digit_num_char | apply digits_num_char].
Qed.

Lemma float_literal_chars (s : text) :
  float_literal s = true -> Forall (fun c => num_char c = true) s.
Proof.
  unfold float_literal.
  destruct (match_integer s) as [[i r1]|] eqn:Ei; [|discriminate].
  destruct (match_frac r1) as [f r2] eqn:Ef.
  destruct (match_exp r2) as [e r3] eqn:Ee.
  intros H. apply andb_true_iff in H. destruct H as [_ H].
  destruct r3; [|discriminate].
  pose proof (match_integer_split _ _ _ Ei). pose proof (match_frac_split _ _ _ Ef).
  pose proof (match_exp_split _ _ _ Ee). subst.
  rewrite List.app_nil_r.
  apply Forall_app; split; [|apply Forall_app; split].
  - eapply match_integer_chars; eauto.
  - eapply match_frac_chars; eauto.
  - eapply match_exp_chars; eauto.
Qed.

Lemma num_char_printable (c : N) : num_char c = true -> printable c = true.
Proof.
  unfold num_char, printable, is_digit. intros H.
  repeat (apply orb_true_iff in H; destruct H as [H|H]);
    try (apply N.eqb_eq in H; subst; reflexivity).
  apply andb_true_iff in H. destruct H as [H1 H2].
  apply N.leb_le in H1, H2. apply andb_true_iff; split; apply N.leb_le; lia.
Qed.

Lemma printable_range (c : N) : printable c = true <-> 32 <= c <= 126.
Proof. unfold printable. rewrite andb_true_iff, !N.leb_le. tauto. Qed.

Lemma hexdigit_printable (d : N) : d < 16 -> printable (hexdigit d) = true.
Proof.
  intros H. apply printable_range. unfold hexdigit.
  destruct (N.ltb_spec d 10); lia.
Qed.

Lemma hex4_printable (n : N) :
  n < 65536 -> Forall (fun c => printable c = true) (hex4 n).
Proof.
  intros H. unfold hex4. repeat constructor; apply hexdigit_printable; nlia.
Qed.

Lemma escape_char_printable (c : N) :
  scalar c = true -> Forall (fun x => printable x = true) (escape_char c).
Proof.
  intros Hc. unfold escape_char.
  repeat match goal with
  | |- context [if c =? ?k then _ else _] =>
      destruct (N.eqb_spec c k) as [->|?]; [repeat constructor|]
  end.
  destruct ((32 <=? c) && (c <=? 126)) eqn:Hr; [repeat constructor; exact Hr|].
  destruct (N.ltb_spec c 65536) as [Hlt|Hge].
  - do 2 (constructor; [reflexivity|]). now apply hex4_printable.
  - assert (Hhi : c < 1114112).
    { unfold scalar in Hc. apply orb_true_iff in Hc. destruct Hc as [Hc|Hc].
      - apply N.ltb_lt in Hc. lia.
      - apply andb_true_iff in Hc. destruct Hc as [_ Hb]. now apply N.ltb_lt in Hb. }
    destruct (surrogate_pair c Hge Hhi) as (E1 & E2 & _).
    cbv zeta in E1, E2 |- *. rewrite E1, E2.
    apply Forall_app; split; do 2 (constructor; [reflexivity|]);
      apply hex4_printable; nlia.
Qed.

Lemma encode_printable (s : text) :
  forallb scalar s = true ->
  Forall (fun x => printable x = true) (encode_basestring_ascii s).
Proof.
  intros Hs. unfold encode_basestring_ascii. constructor; [reflexivity|].
  apply Forall_app; split; [|repeat constructor].
  induction s as [|c s IH]; [constructor|].
  simpl in Hs. apply andb_true_iff in Hs. destruct Hs as [Hc Hs].
  cbn [flat_map]. apply Forall_app; split; auto using escape_char_printable.
Qed.

Lemma join_comma_printable (parts : list text) :
  Forall (Forall (fun x => printable x = true)) parts ->
  Forall (fun x => printable x = true) (join_comma parts).
Proof.
  induction 1 as [|p parts Hp Hall IH]; [constructor|].
  destruct parts as [|q parts]; [exact Hp|].
  rewrite join_comma_cons. apply Forall_app; split; [exact Hp|].
  repeat constructor. exact IH.
Qed.

(** The encoder writes printable ASCII only: no line break in particular. *)
Lemma dumps_printable (v : json) :
  representable v -> Forall (fun x => printable x = true) (json_dumps v).
Proof.
  induction v as [ |b|z|f|s|l IH|items IH] using json_induction; intros Hrep.
  - repeat constructor.
  - destruct b; repeat constructor.
  - eapply Forall_impl; [apply num_char_printable|].
    eapply match_integer_chars. apply match_integer_str_int.
  - inversion Hrep; subst. eapply Forall_impl; [apply num_char_printable|].
    now apply float_literal_chars.
  - inversion Hrep; subst. now apply encode_printable.
  - inversion Hrep as [ | | | | |? Hl| ]; subst. cbn [json_dumps].
    constructor; [reflexivity|]. apply Forall_app; split; [|repeat constructor].
    apply join_comma_printable. apply Forall_forall.
    intros p Hp. apply in_map_iff in Hp. destruct Hp as (e & <- & He).
    rewrite Forall_forall in IH, Hl. apply IH; auto.
  - inversion Hrep as [ | | | | | |? Hk Hi]; subst. cbn [json_dumps].
    constructor; [reflexivity|]. apply Forall_app; split; [|repeat constructor].
    apply join_comma_printable. apply Forall_forall.
    intros p Hp. apply in_map_iff in Hp. destruct Hp as (e & <- & He).
    rewrite Forall_forall in IH, Hi.
    destruct (Hi e He) as [Hke Hve].
    apply Forall_app; split.
    + now apply encode_printable.
    + repeat constructor. apply IH; auto.
Qed.

Lemma dumps_no_newline (v : json) : representable v -> ~ In 10 (json_dumps v).
Proof.
  intros Hv Hin. pose proof (dumps_printable v Hv) as Hp.
  rewrite Forall_forall in Hp. specialize (Hp 10 Hin). discriminate.
Qed.

(** ** Whitespace *)

Lemma rstrip_with_nil p (s : text) :
  rstrip_with p s = [] <-> forallb p s = true.
Proof.
  induction s as [|c s IH]; simpl; [tauto|].
  destruct (rstrip_with p s) as [|x r] eqn:E.
  - destruct IH as [IH _]. rewrite (IH eq_refl), andb_true_r.
    destruct (p c); split; congruence.
  - split; [discriminate|]. intros H. apply andb_true_iff in H.
    destruct H as [_ H]. apply IH in H. discriminate.
Qed.

Lemma forallb_dropwhile p (s : text) :
  forallb p (dropwhile p s) = forallb p s.
Proof.
  induction s as [|c s IH]; simpl; [reflexivity|].
  destruct (p c) eqn:E; simpl; [exact IH | now rewrite E].
Qed.

Lemma unicode_strip_nil (k : text) :
  text_eqb (unicode_strip k) [] = blank k.
Proof.
  unfold unicode_strip, blank.
  rewrite <- (forallb_dropwhile unicode_isspace k).
  destruct (rstrip_with unicode_isspace (dropwhile unicode_isspace k)) eqn:E.
  - apply rstrip_with_nil in E. now rewrite E.
  - simpl. symmetry. apply not_true_is_false. intros H.
    apply rstrip_with_nil in H. congruence.
Qed.

(** ** The bounds of the scanner are no restriction

    [scan_once] and the two loops are bounded by the length of the text;
    every nested value and every element uses up at least one character, so
    any larger bound gives the same result. *)

Lemma dropwhile_length p (s : text) :
  (List.length (dropwhile p s) <= List.length s)%nat.
Proof.
  induction s as [|c s IH]; cbn; [lia|]. destruct (p c); cbn; lia.
Qed.

Lemma skip_ws_length (s : text) : (List.length (skip_ws s) <= List.length s)%nat.
Proof. apply dropwhile_length. Qed.

Lemma push_some (c : N) (x : option (text * text)) (k r : text) :
  push c x = Some (k, r) -> exists k', x = Some (k', r).
Proof.
  destruct x as [[k' r']|]; cbn; [|discriminate].
  intros [= <- <-]. eauto.
Qed.

Lemma scanstring_shorter (s k r : text) :
  scanstring s = Some (k, r) -> (List.length r < List.length s)%nat.
Proof.
  assert (Hle : (List.length s <= List.length s)%nat) by lia.
  revert Hle. generalize (List.length s) at 2. intros n.
  revert s k r. induction n as [|n IH]; intros s k r Hle H.
  - destruct s; [discriminate | cbn in Hle; lia].
  - destruct s as [|c s]; [discriminate|]. cbn [scanstring] in H.
    cbn [List.length] in Hle.
    assert (Hrec : forall t c' k' r',
               (List.length t <= n)%nat ->
               push c' (scanstring t) = Some (k', r') ->
               (List.length r' < S (List.length t))%nat).
    { intros t c' k' r' Ht Hp. apply push_some in Hp.
      destruct Hp as (k1 & Hp). apply IH in Hp; lia. }
    destruct (c =? 34); [injection H as <- <-; cbn; lia|].
    destruct (c =? 92).
    + destruct s as [|e r1]; [discriminate|]. cbn [List.length] in *.
      destruct (e =? 117).
      * destruct r1 as [|h1 [|h2 [|h3 [|h4 r2]]]]; try discriminate.
        cbn [List.length] in *.
        destruct (hex4_value h1 h2 h3 h4) as [uni|]; [|discriminate].
        destruct r2 as [|b [|x [|g1 [|g2 [|g3 [|g4 r3]]]]]];
          try (apply Hrec in H; cbn [List.length] in *; lia).
        cbn [List.length] in *.
        destruct ((55296 <=? uni) && (uni <=? 56319) && (b =? 92) && (x =? 117)).
        -- destruct (hex4_value g1 g2 g3 g4) as [uni2|]; [|discriminate].
           destruct ((56320 <=? uni2) && (uni2 <=? 57343));
             apply Hrec in H; cbn [List.length] in *; lia.
        -- apply Hrec in H; cbn [List.length] in *; lia.
      * destruct (backslash e); [|discriminate]. apply Hrec in H; lia.
    + destruct (c <? 32); [discriminate|]. apply Hrec in H; cbn; lia.
Qed.

Lemma strip_prefix_length (p s r : text) :
  strip_prefix p s = Some r -> List.length s = (List.length p + List.length r)%nat.
Proof.
  revert s. induction p as [|x p IH]; intros [|y s]; cbn; try discriminate.
  - now intros [= <-].
  - now intros [= <-].
  - destruct (x =? y); [|discriminate]. intros H. apply IH in H. lia.
Qed.

Lemma match_number_shorter (s r : text) (v : json) :
  match_number s = Some (v, r) -> (List.length r < List.length s)%nat.
Proof.
  unfold match_number.
  destruct (match_integer s) as [[i r1]|] eqn:Ei; [|discriminate].
  destruct (match_frac r1) as [f r2] eqn:Ef.
  destruct (match_exp r2) as [e r3] eqn:Ee.
  intros H.
  assert (r = r3) as -> by (destruct (is_nil f && is_nil e); congruence).
  destruct (match_integer_head _ _ _ Ei) as (c & t & Hs & _).
  pose proof (match_integer_split _ _ _ Ei) as H1.
  pose proof (match_frac_split _ _ _ Ef) as H2.
  pose proof (match_exp_split _ _ _ Ee) as H3.
  assert (Hi : i <> []).
  { intros ->. subst s. unfold match_integer in Ei.
    destruct (c =? 45).
    - destruct (match_digits1 t) as [[ds r']|]; discriminate.
    - cbn in Ei. destruct (c =? 48); [discriminate|].
      destruct (is_digit c); discriminate. }
  subst s r1 r2. rewrite H1, !length_app. destruct i; [congruence|]. cbn. lia.
Qed.

Section ItemsBounds.

Variables scan1 scan2 : text -> scanned (json * text).
Variable k : nat.
Hypothesis scan_agree :
  forall t, (List.length t <= k)%nat -> scan1 t = scan2 t.
Hypothesis scan_shorter :
  forall t v r, scan1 t = Scanned (v, r) -> (List.length r < List.length t)%nat.

Lemma array_items_shorter (a : nat) (s r : text) (vs : list json) :
  array_items scan1 a s = Scanned (vs, r) -> (List.length r < List.length s)%nat.
Proof.
  revert s vs r. induction a as [|a IH]; intros s vs r; [discriminate|].
  cbn [array_items]. destruct (scan1 s) as [[v r1]| |] eqn:E; try discriminate.
  apply scan_shorter in E. pose proof (skip_ws_length r1).
  destruct (skip_ws r1) as [|c r2] eqn:E1; [discriminate|].
  cbn [List.length] in *.
  destruct (c =? 93); [intros [= <- <-]; lia|].
  destruct (c =? 44); [|discriminate].
  destruct (array_items scan1 a (skip_ws r2)) as [[vs' r3]| |] eqn:E2;
    try discriminate.
  intros [= <- <-]. apply IH in E2. pose proof (skip_ws_length r2). lia.
Qed.

Lemma array_items_agree (a b : nat) (s : text) :
  (List.length s <= k)%nat ->
  (List.length s < a)%nat -> (List.length s < b)%nat ->
  array_items scan1 a s = array_items scan2 b s.
Proof.
  revert b s. induction a as [|a IH]; intros b s Hk Ha Hb; [lia|].
  destruct b as [|b]; [lia|]. cbn [array_items].
  rewrite <- scan_agree by assumption.
  destruct (scan1 s) as [[v r1]| |] eqn:E; try reflexivity.
  apply scan_shorter in E. pose proof (skip_ws_length r1).
  destruct (skip_ws r1) as [|c r2] eqn:E1; [reflexivity|].
  cbn [List.length] in *.
  destruct (c =? 93); [reflexivity|].
  destruct (c =? 44); [|reflexivity].
  pose proof (skip_ws_length r2).
  rewrite (IH b (skip_ws r2)) by lia. reflexivity.
Qed.

Lemma object_items_shorter (a : nat) (s r : text) (kvs : list (text * json)) :
  object_items scan1 a s = Scanned (kvs, r) -> (List.length r < List.length s)%nat.
Proof.
  revert s kvs r. induction a as [|a IH]; intros s kvs r; [discriminate|].
  cbn [object_items].
  destruct (scanstring s) as [[key r0]|] eqn:E0; [|discriminate].
  apply scanstring_shorter in E0. pose proof (skip_ws_length r0).
  destruct (skip_ws r0) as [|c r1] eqn:E1; [discriminate|].
  cbn [List.length] in *.
  destruct (c =? 58); [|discriminate].
  pose proof (skip_ws_length r1).
  destruct (scan1 (skip_ws r1)) as [[v r2]| |] eqn:E; try discriminate.
  apply scan_shorter in E. pose proof (skip_ws_length r2).
  destruct (skip_ws r2) as [|c2 r3] eqn:E2; [discriminate|].
  cbn [List.length] in *.
  destruct (c2 =? 125); [intros [= <- <-]; lia|].
  destruct (c2 =? 44); [|discriminate].
  pose proof (skip_ws_length r3).
  destruct (skip_ws r3) as [|q r4] eqn:E3; [discriminate|].
  cbn [List.length] in *.
  destruct (q =? 34); [|discriminate].
  destruct (object_items scan1 a r4) as [[kvs' r5]| |] eqn:E4; try discriminate.
  intros [= <- <-]. apply IH in E4. lia.
Qed.

Lemma object_items_agree (a b : nat) (s : text) :
  (List.length s <= k)%nat ->
  (List.length s < a)%nat -> (List.length s < b)%nat ->
  object_items scan1 a s = object_items scan2 b s.
Proof.
  revert b s. induction a as [|a IH]; intros b s Hk Ha Hb; [lia|].
  destruct b as [|b]; [lia|]. cbn [object_items].
  destruct (scanstring s) as [[key r0]|] eqn:E0; [|reflexivity].
  apply scanstring_shorter in E0. pose proof (skip_ws_length r0).
  destruct (skip_ws r0) as [|c r1] eqn:E1; [reflexivity|].
  cbn [List.length] in *.
  destruct (c =? 58); [|reflexivity].
  pose proof (skip_ws_length r1).
  rewrite <- scan_agree by lia.
  destruct (scan1 (skip_ws r1)) as [[v r2]| |] eqn:E; try reflexivity.
  apply scan_shorter in E. pose proof (skip_ws_length r2).
  destruct (skip_ws r2) as [|c2 r3] eqn:E2; [reflexivity|].
  cbn [List.length] in *.
  destruct (c2 =? 125); [reflexivity|].
  destruct (c2 =? 44); [|reflexivity].
  pose proof (skip_ws_length r3).
  destruct (skip_ws r3) as [|q r4] eqn:E3; [reflexivity|].
  cbn [List.length] in *.
  destruct (q =? 34); [|reflexivity].
  rewrite (IH b r4) by lia. reflexivity.
Qed.

End ItemsBounds.

Lemma scan_once_shorter (n d : nat) (s : text) (v : json) (r : text) :
  scan_once n d s = Scanned (v, r) -> (List.length r < List.length s)%nat.
Proof.
  revert d s v r. induction n as [|n IH]; intros d s v r; [discriminate|].
  destruct s as [|c t]; [discriminate|]. cbn [scan_once].
  destruct (c =? 34).
  { destruct (scanstring t) as [[str rest]|] eqn:E; [|discriminate].
    intros [= <- <-]. apply scanstring_shorter in E. cbn. lia. }
  destruct (c =? 123).
  { destruct d as [|d]; [discriminate|].
    pose proof (skip_ws_length t).
    destruct (skip_ws t) as [|c' r'] eqn:E; [discriminate|].
    cbn [List.length] in *.
    destruct (c' =? 125); [intros [= <- <-]; lia|].
    destruct (c' =? 34); [|discriminate].
    destruct (object_items (scan_once n d) n r') as [[pairs rest]| |] eqn:E';
      try discriminate.
    intros [= <- <-]. apply (object_items_shorter _ (IH d)) in E'. lia. }
  destruct (c =? 91).
  { destruct d as [|d]; [discriminate|].
    pose proof (skip_ws_length t).
    destruct (skip_ws t) as [|c' r'] eqn:E; [discriminate|].
    destruct (c' =? 93); [intros [= <- <-]; cbn [List.length] in *; lia|].
    destruct (array_items (scan_once n d) n (c' :: r')) as [[vs rest]| |] eqn:E';
      try discriminate.
    intros [= <- <-]. apply (array_items_shorter _ (IH d)) in E'.
    cbn [List.length] in *. lia. }
  repeat match goal with
  | |- match strip_prefix ?p ?x with _ => _ end = _ -> _ =>
      let E := fresh "E" in
      destruct (strip_prefix p x) as [rest|] eqn:E;
      [intros [= <- <-]; apply strip_prefix_length in E;
       revert E; cbn [List.length]; intros E;
       match type of E with
       | _ = (List.length ?q + _)%nat =>
           let l := eval vm_compute in (List.length q) in
           change (List.length q) with l in E
       end; lia|]
  | |- match match_number ?x with _ => _ end = _ -> _ =>
      let E := fresh "E" in
      destruct (match_number x) as [[v' r']|] eqn:E;
      [intros [= <- <-]; now apply match_number_shorter in E|]
  end.
  discriminate.
Qed.

(** [scan_once] does not depend on its bound, once above the length. *)
Lemma scan_once_bound (k n m d : nat) (s : text) :
  (List.length s <= k)%nat ->
  (List.length s < n)%nat -> (List.length s < m)%nat ->
  scan_once n d s = scan_once m d s.
Proof.
  revert n m d s. induction k as [|k IH]; intros n m d s Hk Hn Hm;
    (destruct n as [|n]; [lia|]); (destruct m as [|m]; [lia|]);
    (destruct s as [|c t]; [reflexivity|]); cbn [List.length] in *; [lia|].
  cbn [scan_once].
  destruct (c =? 34); [reflexivity|].
  destruct (c =? 123).
  { destruct d as [|d]; [reflexivity|].
    pose proof (skip_ws_length t).
    destruct (skip_ws t) as [|c' r'] eqn:E; [reflexivity|].
    cbn [List.length] in *.
    destruct (c' =? 125); [reflexivity|].
    destruct (c' =? 34); [|reflexivity].
    rewrite (object_items_agree (scan_once n d) (scan_once m d) (List.length t))
      with (b := m); [reflexivity | | | lia | lia | lia].
    - intros t0 Ht0. apply IH; lia.
    - apply scan_once_shorter. }
  destruct (c =? 91).
  { destruct d as [|d]; [reflexivity|].
    pose proof (skip_ws_length t).
    destruct (skip_ws t) as [|c' r'] eqn:E; [reflexivity|].
    destruct (c' =? 93); [reflexivity|].
    rewrite (array_items_agree (scan_once n d) (scan_once m d) (List.length t))
      with (b := m); [reflexivity | | | | | ]; cbn [List.length] in *; try lia.
    - intros t0 Ht0. apply IH; lia.
    - apply scan_once_shorter. }
  reflexivity.
Qed.

(** [json.loads] with any larger bound reads the same value. *)
Theorem json_loads_bound (s : text) (n : nat) :
  (List.length s < n)%nat ->
  json_loads s
  = match scan_once n loads_depth (skip_ws s) with
    | Scanned (v, r) => match skip_ws r with [] => Scanned v | _ :: _ => NoJSON end
    | NoJSON => NoJSON
    | TooDeep => TooDeep
    end.
Proof.
  intros Hn. unfold json_loads. pose proof (skip_ws_length s).
  rewrite (scan_once_bound (List.length s) (S (List.length s)) n); [reflexivity | lia..].
Qed.

(** ** The two halves of the line codec *)

Lemma dumped_fits (v : json) :
  (depth v <= dumps_depth)%nat -> dumped v = Some (json_dumps v).
Proof.
  intros H. unfold dumped. apply Nat.leb_le in H. now rewrite H.
Qed.

Lemma dumped_deep (v : json) :
  (dumps_depth < depth v)%nat -> dumped v = None.
Proof.
  intros H. unfold dumped. apply Nat.leb_gt in H. now rewrite H.
Qed.

Lemma dumped_some (v : json) (s : text) :
  dumped v = Some s -> s = json_dumps v /\ (depth v <= dumps_depth)%nat.
Proof.
  unfold dumped. destruct (Nat.leb_spec (depth v) dumps_depth); [|discriminate].
  intros [= <-]. auto.
Qed.

(** An envelope whose elements are strings is within the limit. *)
Lemma dumped_heartbeat :
  dumped (JArr [JStr (u "heartbeat")])
  = Some (json_dumps (JArr [JStr (u "heartbeat")])).
Proof.
  apply dumped_fits. pose proof dumps_depth_min.
  change (depth (JArr [JStr (u "heartbeat")])) with 1%nat. lia.
Qed.

Lemma dumped_result_string (s : text) :
  dumped (JArr [JStr (u "result"); JStr s])
  = Some (json_dumps (JArr [JStr (u "result"); JStr s])).
Proof.
  apply dumped_fits. pose proof dumps_depth_min.
  change (depth (JArr [JStr (u "result"); JStr s])) with 1%nat. lia.
Qed.

Lemma depth_result (v : json) :
  depth (JArr [JStr (u "result"); v]) = S (depth v).
Proof. cbn [depth map list_max fold_right]. now rewrite Nat.max_0_r. Qed.

Lemma send_ipc_message_cases (m : json) (st : state) :
  _send_ipc_message m st
  = match dumped m with
    | None => Raise RuntimeError st
    | Some s => if to_lock st then Hangs else Return tt (sent s st)
    end.
Proof.
  unfold _send_ipc_message, py_json_dumps, bind.
  destruct (dumped m) as [s|]; [|reflexivity]. cbn [ret].
  unfold acquire_to, sent. destruct (to_lock st) eqn:Hl; reflexivity.
Qed.

Lemma send_ipc_message_spec (msg_obj : json) (st : state) :
  to_lock st = false ->
  (depth msg_obj <= dumps_depth)%nat ->
  _send_ipc_message msg_obj st = Return tt (sent (json_dumps msg_obj) st).
Proof.
  intros H Hd. now rewrite send_ipc_message_cases, dumped_fits, H.
Qed.

Lemma receive_ipc_message_spec (st : state) :
  from_lock st = false ->
  _receive_ipc_message st =
  match json_loads (str_rstrip (next_line st)) with
  | NoJSON => Raise ValueError (after_line st)
  | TooDeep => Raise RuntimeError (after_line st)
  | Scanned v =>
      match envelope_of v with
      | Some env => Return env (after_line st)
      | None => Raise (decode_failure v) (after_line st)
      end
  end.
Proof.
  intros H. unfold _receive_ipc_message, bind, acquire_from, readline,
    py_json_loads, str_rstrip, next_line, after_line. rewrite H.
  cbn [from_lock to_lock fh_from_manager fh_to_manager].
  destruct (split_line (fh_from_manager st)) as [line rest].
  cbn [release_from from_lock to_lock fh_from_manager fh_to_manager fst snd].
  destruct (json_loads (rstrip_with str_isspace line)) as [v| |];
    [|reflexivity|reflexivity].
  destruct v as [ |b|z|f|s|l|items]; try reflexivity.
  - destruct s as [|c s]; [reflexivity|].
    destruct (unicode_isspace c) eqn:E;
      cbn -[unicode_isspace]; rewrite ?E; cbn -[unicode_isspace]; rewrite ?E;
      reflexivity.
  - destruct l as [|x l]; [reflexivity|].
    destruct x as [ |b|z|f|k|l'|items]; try reflexivity.
    cbn -[unicode_strip blank]. rewrite unicode_strip_nil.
    destruct (blank k); reflexivity.
  - destruct items as [|kv items]; reflexivity.
Qed.

(** ** The receive loop *)

Lemma after_line_from_lock (st : state) :
  from_lock (after_line st) = from_lock st.
Proof. reflexivity. Qed.

Lemma receive_return_inv (st st' : state) (env : json * json) :
  from_lock st = false ->
  _receive_ipc_message st = Return env st' ->
  st' = after_line st /\ fh_from_manager st <> [].
Proof.
  intros Hl H. rewrite receive_ipc_message_spec in H by assumption.
  split.
  - destruct (json_loads (str_rstrip (next_line st))) as [v| |];
      try discriminate.
    destruct (envelope_of v); congruence.
  - intros He. unfold next_line in H. rewrite He in H.
    unfold json_loads in H. cbn in H. discriminate.
Qed.

Lemma after_line_shorter (st : state) :
  fh_from_manager st <> [] ->
  (List.length (fh_from_manager (after_line st))
   < List.length (fh_from_manager st))%nat.
Proof. intros H. now apply split_line_length. Qed.

(** Any bound above the length of the unread text gives the same result:
    every pass of the loop reads at least one character or raises. *)
Lemma receive_loop_fuel (n m : nat) (st : state) :
  from_lock st = false ->
  (List.length (fh_from_manager st) < n)%nat ->
  (List.length (fh_from_manager st) < m)%nat ->
  receive_loop n st = receive_loop m st.
Proof.
  revert m st. induction n as [|n IH]; intros m st Hl Hn Hm; [lia|].
  destruct m as [|m]; [lia|]. cbn [receive_loop]. unfold bind.
  destruct (_receive_ipc_message st) as [[keyword data] st'|e st'|] eqn:E;
    try reflexivity.
  destruct (py_eq_str keyword (u "message")); [reflexivity|].
  destruct (receive_return_inv _ _ _ Hl E) as [-> Hne].
  pose proof (after_line_shorter st Hne).
  apply IH; [now rewrite after_line_from_lock | lia | lia].
Qed.

Lemma receive_loop_never_hangs (n : nat) (st : state) :
  from_lock st = false ->
  (List.length (fh_from_manager st) < n)%nat ->
  receive_loop n st <> Hangs.
Proof.
  revert st. induction n as [|n IH]; intros st Hl Hn; [lia|].
  cbn [receive_loop]. unfold bind.
  destruct (_receive_ipc_message st) as [[keyword data] st'|e st'|] eqn:E.
  - destruct (receive_return_inv _ _ _ Hl E) as [-> Hne].
    destruct (py_eq_str keyword (u "message")).
    + destruct data; cbn; try discriminate;
        match goal with |- context [py_assert ?b] => destruct b end;
        discriminate.
    + pose proof (after_line_shorter st Hne).
      apply IH; [now rewrite after_line_from_lock | lia].
  - discriminate.
  - rewrite receive_ipc_message_spec in E by assumption.
    destruct (json_loads (str_rstrip (next_line st))) as [v| |];
      try discriminate.
    destruct (envelope_of v); discriminate.
Qed.

(** With the inbound lock free [receive_message] comes back: it returns
    or it raises. *)
Lemma receive_message_comes_back (decode : option text) (st : state) :
  from_lock st = false -> receive_message decode st <> Hangs.
Proof.
  intros Hl. unfold receive_message, bind.
  assert (Htail : forall (b : bool) data st',
            match py_getitem data 0 st' with
            | Return a st'' =>
                (if b then py_json_loads a else ret a) st''
            | Raise e st'' => Raise e st''
            | Hangs => Hangs
            end <> Hangs).
  { intros b data st'.
    destruct data as [ | | | |s|l|d]; cbn; try discriminate.
    - destruct s; cbn; [discriminate|].
      destruct b; cbn; [|discriminate].
      destruct (json_loads _); discriminate.
    - destruct l as [|x l]; cbn; [discriminate|].
      destruct b; cbn; [|discriminate].
      destruct x; cbn; try discriminate.
      destruct (json_loads _); discriminate. }
  pose proof (receive_loop_never_hangs (S (List.length (fh_from_manager st))) st Hl
                (Nat.lt_succ_diag_r _)) as Hloop.
  destruct decode as [d|]; [destruct (text_eqb d (u "json"))|]; cbn [ret raise];
    try discriminate;
    (destruct (receive_loop (S (List.length (fh_from_manager st))) st)
       as [data st'|e st'|]; [|discriminate | congruence]).
  - apply (Htail true).
  - apply (Htail false).
Qed.

Lemma known_selector_cases (sel : option text) :
  known_selector sel ->
  match sel with
  | Some d => text_eqb d (u "json") = true
  | None => True
  end.
Proof. intros [-> | ->]; [exact I | reflexivity]. Qed.

(** An envelope with another keyword is dropped: the call goes on as if it
    had started after it. *)
Lemma receive_message_skip (decode : option text) (st st' : state)
      (keyword data : json) :
  known_selector decode ->
  from_lock st = false ->
  _receive_ipc_message st = Return (keyword, data) st' ->
  py_eq_str keyword (u "message") = false ->
  receive_message decode st = receive_message decode st'.
Proof.
  intros Hsel Hl E Hk. apply known_selector_cases in Hsel.
  destruct (receive_return_inv _ _ _ Hl E) as [-> Hne].
  pose proof (after_line_shorter st Hne) as Hlen.
  assert (Hloop : receive_loop (S (List.length (fh_from_manager st))) st
                  = receive_loop (S (List.length (fh_from_manager (after_line st))))
                                 (after_line st)).
  { transitivity (receive_loop (List.length (fh_from_manager st)) (after_line st)).
    - cbn [receive_loop]. unfold bind. now rewrite E, Hk.
    - apply receive_loop_fuel; [now rewrite after_line_from_lock | lia | lia]. }
  unfold receive_message, bind.
  destruct decode as [d|]; [rewrite Hsel|]; cbn [ret]; now rewrite Hloop.
Qed.

Lemma receive_message_discards (decode : option text) (st st' : state) :
  known_selector decode ->
  from_lock st = false ->
  discards st st' ->
  receive_message decode st = receive_message decode st' /\ from_lock st' = false.
Proof.
  intros Hsel Hl Hd. induction Hd as [st|st keyword data st1 st2 E Hk Hd IH].
  - auto.
  - destruct (receive_return_inv _ _ _ Hl E) as [-> _].
    rewrite (receive_message_skip decode st _ keyword data Hsel Hl E Hk).
    apply IH. now rewrite after_line_from_lock.
Qed.

(** The envelope with the keyword ["message"] ends the loop. *)
Lemma receive_message_hit (decode : option text) (st st' : state) (data : json) :
  known_selector decode ->
  _receive_ipc_message st = Return (JStr (u "message"), data) st' ->
  receive_message decode st =
  (n <- py_len data ;;
   py_assert (n =? 1)%nat ;;;
   msg_content <- py_getitem data 0 ;;
   match decode with
   | Some _ => py_json_loads msg_content
   | None => ret msg_content
   end) st'.
Proof.
  intros Hsel E. apply known_selector_cases in Hsel.
  unfold receive_message.
  destruct decode as [d|]; [rewrite Hsel|]; unfold bind at 1; cbn [ret];
    unfold bind at 1; cbn [receive_loop]; unfold bind at 1; rewrite E;
    change (py_eq_str (JStr (u "message")) (u "message")) with true; cbv iota;
    unfold bind; destruct (py_len data st') as [n s|e s|]; try reflexivity;
    destruct (py_assert (n =? 1)%nat s) as [[] s'|e s'|]; reflexivity.
Qed.

(** ** The line of an envelope, read back *)

Lemma str_rstrip_line (l : list json) :
  str_rstrip (json_dumps (JArr l) ++ [10]) = json_dumps (JArr l).
Proof.
  unfold str_rstrip. rewrite rstrip_with_app_space by reflexivity.
  cbn [json_dumps]. rewrite app_comm_cons.
  now apply rstrip_with_app_last.
Qed.

Lemma receive_dumped (l : list json) (tl : bool) (out : outfile) (rest : text) :
  readable (JArr l) ->
  _receive_ipc_message (mkState false tl ((json_dumps (JArr l) ++ [10]) ++ rest) out)
  = match envelope_of (JArr (map reread l)) with
    | Some env => Return env (mkState false tl rest out)
    | None =>
        Raise (decode_failure (JArr (map reread l))) (mkState false tl rest out)
    end.
Proof.
  intros Hrep. rewrite receive_ipc_message_spec by reflexivity.
  unfold next_line, after_line. cbn [fh_from_manager from_lock to_lock fh_to_manager].
  rewrite <- app_assoc. cbn [app].
  rewrite split_line_app by (apply dumps_no_newline, Hrep).
  cbn [fst snd]. rewrite str_rstrip_line, json_loads_dumps by assumption.
  reflexivity.
Qed.


Lemma representable_result (v : json) :
  representable v -> representable (JArr [JStr (u "result"); v]).
Proof. intros Hv. constructor. repeat constructor. exact Hv. Qed.

Lemma readable_result (v : json) :
  representable v ->
  (S (depth v) <= loads_depth)%nat ->
  readable (JArr [JStr (u "result"); v]).
Proof.
  intros Hv Hd. split; [now apply representable_result|].
  now rewrite depth_result.
Qed.


(** C4. An unknown decoder is refused before anything is read: the call
    raises with the state as it was, whatever the locks and the stream. *)
Theorem receive_message_unknown_decoder (d : text) (st : state) :
  d <> u "json" ->
  receive_message (Some d) st = Raise (Exception (u "No such decoder: " ++ d)) st.
Proof.
  intros Hd. unfold receive_message, bind. now rewrite text_eqb_neq.
Qed.

(** C5. A ["message"] envelope whose payload does not have exactly one
    element makes [receive_message] raise [AssertionError]; no content is
    returned.  The envelope may come after any number of dropped ones. *)
Theorem message_payload_shape (decode : option text) (st st1 st2 : state)
        (payload : list json) :
  known_selector decode ->
  from_lock st = false ->
  discards st st1 ->
  _receive_ipc_message st1 = Return (JStr (u "message"), JArr payload) st2 ->
  List.length payload <> 1%nat ->
  receive_message decode st = Raise AssertionError st2.
Proof.
  intros Hsel Hl Hd E Hlen.
  destruct (receive_message_discards decode st st1 Hsel Hl Hd) as [-> Hl1].
  rewrite (receive_message_hit decode st1 st2 (JArr payload) Hsel E).
  unfold bind. cbn [py_len ret].
  destruct (Nat.eqb_spec (List.length payload) 1); [contradiction|]. reflexivity.
Qed.

(** C7. An unknown encoder is refused before anything is serialized or
    written: the call raises with the state as it was. *)
Theorem send_result_unknown_encoder (result : json) (e : text) (st : state) :
  e <> u "json" ->
  send_result result (Some e) st = Raise (Exception (u "No such encoder: " ++ e)) st.
Proof.
  intros He. unfold send_result, encode_result, bind. now rewrite text_eqb_neq.
Qed.

(** C9, within the recursion limit. Without an encoder [send_result]
    takes any value as it is, of whatever type: when the value, inside the
    envelope, is nested no deeper than [json.dumps] can go, the line written
    is the list of ["result"] and the value's own JSON text, serialized
    once, and it decodes to [["result", result]] (a float in it read as
    [float(repr(f))]); when it is nested deeper, [json.dumps] raises
    [RuntimeError] and nothing is written. *)
Theorem send_result_plain (result : json) (st : state) :
  to_lock st = false ->
  let line := wire "['result', " ++ json_dumps result ++ u "]" in
  ((S (depth result) <= dumps_depth)%nat ->
   send_result result None st = Return tt (sent line st))
  /\ ((dumps_depth < S (depth result))%nat ->
      send_result result None st = Raise RuntimeError st)
  /\ (readable (JArr [JStr (u "result"); result]) ->
      json_loads line = Scanned (JArr [JStr (u "result"); reread result])).
Proof.
  intros Hl line. split; [|split].
  - intros Hd. unfold send_result, encode_result, bind. cbn [ret].
    rewrite send_ipc_message_spec; [reflexivity | assumption |].
    now rewrite depth_result.
  - intros Hd. unfold send_result, encode_result, bind. cbn [ret].
    rewrite send_ipc_message_cases, dumped_deep; [reflexivity|].
    now rewrite depth_result.
  - intros Hv.
    change line with (json_dumps (JArr [JStr (u "result"); result])).
    now rewrite json_loads_dumps.
Qed.

Lemma blank_app (a b : text) : blank (a ++ b) = blank a && blank b.
Proof. apply forallb_app. Qed.

Lemma receive_message_here (decode : option text) (st1 st2 : state)
      (content : json) :
  known_selector decode ->
  _receive_ipc_message st1 = Return (JStr (u "message"), JArr [content]) st2 ->
  receive_message decode st1 = deliver decode content st2.
Proof.
  intros Hsel E.
  rewrite (receive_message_hit decode st1 st2 (JArr [content]) Hsel E).
  destruct decode as [d|]; [|reflexivity].
  destruct content; try reflexivity.
  unfold bind. cbn. now destruct (json_loads s).
Qed.

Lemma receive_message_raise_here (decode : option text) (st1 st2 : state)
      (e : exn) :
  known_selector decode ->
  _receive_ipc_message st1 = Raise e st2 ->
  receive_message decode st1 = Raise e st2.
Proof.
  intros Hsel E. apply known_selector_cases in Hsel.
  unfold receive_message, bind.
  destruct decode as [d|]; [rewrite Hsel|]; cbn [ret receive_loop];
    unfold bind; now rewrite E.
Qed.

Lemma receive_at_end (tl : bool) (out : outfile) :
  _receive_ipc_message (mkState false tl [] out)
  = Raise ValueError (mkState false tl [] out).
Proof. now rewrite receive_ipc_message_spec by reflexivity. Qed.

(** A value of the examples: representable, without floats, and within
    the limits that [PyLimit] guarantees. *)
Ltac shallow :=
  first
    [ split;
      [ repeat first [ apply rep_obj | apply rep_arr | apply rep_str
                     | apply rep_int | apply rep_null | constructor
                     | (intros [H|H]; [discriminate H | destruct H])
                     | (intros H; destruct H) ]
      | pose proof loads_depth_min;
        cbn [depth map list_max fold_right Nat.max]; lia ]
    | pose proof dumps_depth_min; pose proof loads_depth_min;
      cbn [depth map list_max fold_right Nat.max snd]; lia ].

(** C10. The keyword is compared as it stands: an envelope whose first
    element is ["message"] with whitespace around it passes the checks of
    [_receive_ipc_message], and [receive_message] drops it, whatever its
    payload, and goes on with the next line: the call comes back, and when
    the next line is a proper message it is that message's element that is
    delivered. *)
Theorem padded_message_discarded (decode : option text) (st : state)
        (pre post : text) (payload : list json) :
  known_selector decode ->
  from_lock st = false ->
  blank pre = true -> blank post = true -> pre ++ post <> [] ->
  json_loads (str_rstrip (next_line st))
  = Scanned (JArr (JStr (pre ++ u "message" ++ post) :: payload)) ->
  _receive_ipc_message st
  = Return (JStr (pre ++ u "message" ++ post), JArr payload) (after_line st)
  /\ receive_message decode st = receive_message decode (after_line st)
  /\ receive_message decode st <> Hangs
  /\ (forall content st2,
        _receive_ipc_message (after_line st)
        = Return (JStr (u "message"), JArr [content]) st2 ->
        receive_message decode st = deliver decode content st2)
  /\ (forall e st2,
        _receive_ipc_message (after_line st) = Raise e st2 ->
        receive_message decode st = Raise e st2).
Proof.
  intros Hsel Hl Hpre Hpost Hne Hline.
  assert (E : _receive_ipc_message st
              = Return (JStr (pre ++ u "message" ++ post), JArr payload)
                       (after_line st)).
  { rewrite receive_ipc_message_spec, Hline by assumption.
    cbn [envelope_of]. rewrite !blank_app, Hpre, Hpost. reflexivity. }
  assert (Hskip : receive_message decode st = receive_message decode (after_line st)).
  { apply (receive_message_skip decode st _ _ _ Hsel Hl E).
    cbn [py_eq_str]. apply text_eqb_neq. intros H.
    apply (f_equal (@List.length N)) in H. rewrite !length_app in H.
    change (List.length (u "message")) with 7%nat in H.
    destruct pre, post; cbn [List.length] in H; try lia. now apply Hne. }
  split; [exact E|]. split; [exact Hskip|]. split; [|split].
  - now apply receive_message_comes_back.
  - intros content st2 E2. rewrite Hskip. now apply receive_message_here.
  - intros e st2 E2. rewrite Hskip. now apply receive_message_raise_here.
Qed.

(** ** Scenarios *)

(** C2, as the code has it. On the stream [["heartbeat"]],
    [["message", "X"]], [["other", 1]] the call returns ["X"]: the heartbeat
    envelope is read and dropped, and the loop ends at the message, so the
    third line stays unread on the stream.  A further call reads and drops
    it, then meets the end of the stream. *)
Theorem filtering (tl : bool) (out : outfile) :
  receive_message None (mkState false tl filtering_stream out)
  = Return (JStr (u "X")) (mkState false tl (wire "['other', 1]" ++ [10]) out)
  /\ receive_message None (mkState false tl (wire "['other', 1]" ++ [10]) out)
     = Raise ValueError (mkState false tl [] out).
Proof.
  assert (Hsel : known_selector None) by now left.
  split.
  - change filtering_stream
      with ((json_dumps (JArr [JStr (u "heartbeat")]) ++ [10])
            ++ (json_dumps (JArr [JStr (u "message"); JStr (u "X")]) ++ [10])
            ++ (wire "['other', 1]" ++ [10])).
    rewrite (receive_message_skip None _
               (mkState false tl
                  ((json_dumps (JArr [JStr (u "message"); JStr (u "X")]) ++ [10])
                   ++ (wire "['other', 1]" ++ [10])) out)
               (JStr (u "heartbeat")) (JArr []));
      [ | assumption | reflexivity
        | rewrite receive_dumped by shallow; reflexivity | reflexivity ].
    rewrite (receive_message_here None _
               (mkState false tl (wire "['other', 1]" ++ [10]) out)
               (JStr (u "X")));
      [ reflexivity | assumption
        | rewrite receive_dumped by shallow; reflexivity ].
  - change (wire "['other', 1]" ++ [10])
      with ((json_dumps (JArr [JStr (u "other"); JInt 1]) ++ [10]) ++ []).
    rewrite (receive_message_skip None _ (mkState false tl [] out)
               (JStr (u "other")) (JArr [JInt 1]));
      [ | assumption | reflexivity
        | rewrite receive_dumped by shallow; reflexivity | reflexivity ].
    apply receive_message_raise_here; [assumption | apply receive_at_end].
Qed.

(** C6. In JSON mode the result is serialized twice: once by the encoder,
    once more, as a string, by the envelope.  The line written for
    [{"a": [1, 2, 3]}] decodes to the keyword ["result"] and a payload whose
    only element is the string [{"a": [1, 2, 3]}]. *)
Theorem send_result_json_mode (st : state) (tl : bool) (out : outfile)
        (rest : text) :
  to_lock st = false ->
  send_result (JObj [(u "a", JArr [JInt 1; JInt 2; JInt 3])]) (Some (u "json")) st
  = Return tt (sent json_mode_line st)
  /\ _receive_ipc_message (mkState false tl ((json_mode_line ++ [10]) ++ rest) out)
     = Return (JStr (u "result"), JArr [JStr (wire "{'a': [1, 2, 3]}")])
              (mkState false tl rest out).
Proof.
  intros Hl. split.
  - unfold send_result, encode_result, py_json_dumps, bind.
    change (text_eqb (u "json") (u "json")) with true.
    rewrite dumped_fits by shallow. cbn [ret].
    rewrite send_ipc_message_cases, dumped_result_string, Hl. reflexivity.
  - change json_mode_line
      with (json_dumps (JArr [JStr (u "result"); JStr (wire "{'a': [1, 2, 3]}")])).
    rewrite receive_dumped by shallow. reflexivity.
Qed.

(** ** Threads *)

Lemma nth_error_set_nth {A} (ts : list A) (i : nat) (t : A) :
  nth_error ts i = Some t ->
  exists l1 l2, ts = l1 ++ t :: l2
                /\ forall t', set_nth i t' ts = l1 ++ t' :: l2.
Proof.
  revert i. induction ts as [|x ts IH]; intros [|i] H; try discriminate.
  - injection H as ->. exists [], ts. split; reflexivity.
  - destruct (IH i H) as (l1 & l2 & -> & Hset).
    exists (x :: l1), l2. split; [reflexivity|].
    intros t'. cbn. now rewrite Hset.
Qed.

Lemma existsb_nth_error {A} (p : A -> bool) (ts : list A) :
  existsb p ts = true -> exists i t, nth_error ts i = Some t /\ p t = true.
Proof.
  intros H. apply existsb_exists in H. destruct H as (t & Hin & Hp).
  apply In_nth_error in Hin. destruct Hin as (i & Hi). eauto.
Qed.

Lemma existsb_filter_nil {A} (p : A -> bool) (ts : list A) :
  existsb p ts = false -> filter p ts = [].
Proof.
  induction ts as [|t ts IH]; cbn; [reflexivity|].
  destruct (p t); cbn; [discriminate | exact IH].
Qed.

Lemma filter_nil_existsb {A} (p : A -> bool) (ts : list A) :
  filter p ts = [] -> existsb p ts = false.
Proof.
  induction ts as [|t ts IH]; cbn; [reflexivity|].
  destruct (p t); cbn; [discriminate | exact IH].
Qed.

Lemma Forall2_middle {A B} (R : A -> B -> Prop) (cs : list A) (l1 l2 : list B)
      (t t' : B) :
  Forall2 R cs (l1 ++ t :: l2) ->
  (forall c, R c t -> R c t') ->
  Forall2 R cs (l1 ++ t' :: l2).
Proof.
  intros H Ht. apply Forall2_app_inv_r in H.
  destruct H as (c1 & c2 & H1 & H2 & ->).
  inversion H2 as [|c ? c2' ? Hc H2']; subst.
  apply Forall2_app; [exact H1|]. constructor; auto.
Qed.

Lemma critical_not_terminated (t : thread) :
  critical t = true -> terminated t = false.
Proof. destruct t; cbn; congruence. Qed.

(** A thread steps out of [Called] without touching the state: into
    [Dumped] when its selector is a known one, into [Raised] otherwise. *)
Lemma thread_step_called (c : call) (st : state) :
  exists t', thread_step (Called c) st = Some (t', st)
             /\ follows c t' /\ critical t' = false
             /\ returned_texts [t'] = [].
Proof.
  destruct c as [|r [e|]]; cbn [thread_step];
    unfold advance, encode_result, py_json_dumps, bind, line_of_call.
  - destruct (dumped (JArr [JStr (u "heartbeat")])) as [s|] eqn:E;
      cbn [ret raise]; eexists; (split; [reflexivity|]);
      (split; [exact E | split; reflexivity]).
  - destruct (text_eqb e (u "json")) eqn:Ee; cbn [ret raise].
    + destruct (dumped r) as [s|] eqn:E; cbn [ret raise].
      * destruct (dumped (JArr [JStr (u "result"); JStr s])) as [s'|] eqn:E';
          cbn [ret raise]; eexists; (split; [reflexivity|]);
          (split; [|split; reflexivity]); cbn [follows line_of_call];
          now rewrite Ee, E, E'.
      * eexists; (split; [reflexivity|]); (split; [|split; reflexivity]).
        cbn [follows line_of_call]. now rewrite Ee, E.
    + eexists; (split; [reflexivity|]); (split; [|split; reflexivity]).
      cbn [follows line_of_call]. now rewrite Ee.
  - cbn [ret].
    destruct (dumped (JArr [JStr (u "result"); r])) as [s|] eqn:E;
      cbn [ret raise]; eexists; (split; [reflexivity|]);
      (split; [exact E | split; reflexivity]).
Qed.

Lemma file_at_single (f : text) (l1 l2 : list thread) (t : thread) (o : outfile) :
  critical t = true ->
  file_at f (filter critical (l1 ++ t :: l2)) = Some o ->
  filter critical l1 = [] /\ filter critical l2 = [] /\ file_at f [t] = Some o.
Proof.
  intros Ht. rewrite filter_app. cbn [filter]. rewrite Ht.
  destruct (filter critical l1) as [|a [|b l]]; cbn [app].
  - destruct (filter critical l2) as [|a l]; [auto|].
    destruct t; discriminate.
  - destruct a; discriminate.
  - destruct a; discriminate.
Qed.

Lemma filter_middle (l1 l2 : list thread) (t : thread) :
  filter critical l1 = [] -> filter critical l2 = [] ->
  filter critical (l1 ++ t :: l2) = if critical t then [t] else [].
Proof.
  intros H1 H2. rewrite filter_app. cbn [filter]. rewrite H1, H2.
  now destruct (critical t).
Qed.

Lemma existsb_middle (l1 l2 : list thread) (t : thread) :
  filter critical l1 = [] -> filter critical l2 = [] ->
  existsb critical (l1 ++ t :: l2) = critical t.
Proof.
  intros H1 H2. rewrite existsb_app. cbn [existsb].
  rewrite (filter_nil_existsb _ _ H1), (filter_nil_existsb _ _ H2).
  now rewrite orb_false_r.
Qed.

Lemma returned_texts_middle (l1 l2 : list thread) (t : thread) :
  returned_texts (l1 ++ t :: l2)
  = returned_texts l1 ++ returned_texts [t] ++ returned_texts l2.
Proof.
  unfold returned_texts. rewrite flat_map_app. cbn [flat_map].
  now rewrite List.app_nil_r.
Qed.

Lemma lines_app (a b : list text) : lines (a ++ b) = lines a ++ lines b.
Proof. unfold lines. now rewrite map_app, concat_app. Qed.

Lemma serialized_init (calls : list call) (st0 : state) :
  to_lock st0 = false ->
  pending (fh_to_manager st0) = [] ->
  serialized calls st0 (st0, map Called calls).
Proof.
  intros Hl Hp. exists []. repeat split.
  - induction calls; cbn; auto.
  - induction calls; cbn; constructor; auto. reflexivity.
  - rewrite Hl. induction calls; cbn; auto.
  - replace (filter critical (map Called calls)) with (@nil thread)
      by (induction calls; cbn; auto).
    cbn. rewrite List.app_nil_r. destruct (fh_to_manager st0); cbn in *.
    now subst.
Qed.

Lemma serialized_step (calls : list call) (st0 : state)
      (cfg cfg' : state * list thread) (i : nat) :
  serialized calls st0 cfg -> step cfg i = Some cfg' ->
  serialized calls st0 cfg'.
Proof.
  destruct cfg as [st ts], cfg' as [st' ts'].
  intros (done & Hperm & Hfol & Hlock & Hfile) Hstep.
  unfold step in Hstep.
  destruct (nth_error ts i) as [t|] eqn:Hi; [|discriminate].
  destruct (thread_step t st) as [[t' st1]|] eqn:Ht; [|discriminate].
  injection Hstep as <- <-.
  destruct (nth_error_set_nth ts i t Hi) as (l1 & l2 & -> & Hset).
  rewrite Hset. clear Hset Hi.
  set (F := flushed (fh_to_manager st0) ++ lines done) in *.
  destruct t as [c|s|s|s|s|s|s|e]; try discriminate.
  - (* the call starts *)
    destruct (thread_step_called c st) as (t1 & E & Hf & Hc & Hrt).
    rewrite E in Ht. injection Ht as <- <-.
    exists done. rewrite returned_texts_middle in *.
    rewrite filter_app in *. rewrite existsb_app in *.
    cbn [filter existsb critical] in *. rewrite Hc, Hrt.
    repeat split; try assumption.
    eapply Forall2_middle; [exact Hfol|]. cbn. now intros c' <-.
  - (* acquire *)
    cbn in Ht. unfold advance, acquire_to in Ht.
    destruct (to_lock st) eqn:Hl; [discriminate|]. injection Ht as <- <-.
    symmetry in Hlock. pose proof (existsb_filter_nil _ _ Hlock) as Hnil.
    rewrite filter_app in Hnil. cbn [filter critical] in Hnil.
    apply app_eq_nil in Hnil. destruct Hnil as [H1 H2].
    exists done. rewrite returned_texts_middle in *.
    rewrite (filter_middle l1 l2) in * by assumption.
    rewrite (existsb_middle l1 l2) by assumption.
    cbn [critical] in *. repeat split; try assumption.
    eapply Forall2_middle; [exact Hfol|]. cbn. auto.
  - (* write(s) *)
    cbn in Ht. unfold advance, write in Ht. injection Ht as <- <-.
    destruct (file_at_single F l1 l2 (Locked s) _ eq_refl Hfile) as (H1 & H2 & Hf).
    exists done. rewrite returned_texts_middle in *.
    rewrite (filter_middle l1 l2) in * by assumption.
    rewrite (existsb_middle l1 l2) in * by assumption.
    cbn [critical to_lock fh_to_manager] in *. repeat split; try assumption.
    + eapply Forall2_middle; [exact Hfol|]. cbn. auto.
    + cbn in Hf |- *. injection Hf as <-. reflexivity.
  - (* write('\n') *)
    cbn in Ht. unfold advance, write in Ht. injection Ht as <- <-.
    destruct (file_at_single F l1 l2 (WroteText s) _ eq_refl Hfile) as (H1 & H2 & Hf).
    exists done. rewrite returned_texts_middle in *.
    rewrite (filter_middle l1 l2) in * by assumption.
    rewrite (existsb_middle l1 l2) in * by assumption.
    cbn [critical to_lock fh_to_manager] in *. repeat split; try assumption.
    + eapply Forall2_middle; [exact Hfol|]. cbn. auto.
    + cbn in Hf |- *. injection Hf as <-. reflexivity.
  - (* flush() *)
    cbn in Ht. unfold advance, flush in Ht. injection Ht as <- <-.
    destruct (file_at_single F l1 l2 (WroteNewline s) _ eq_refl Hfile) as (H1 & H2 & Hf).
    exists done. rewrite returned_texts_middle in *.
    rewrite (filter_middle l1 l2) in * by assumption.
    rewrite (existsb_middle l1 l2) in * by assumption.
    cbn [critical to_lock fh_to_manager] in *. repeat split; try assumption.
    + eapply Forall2_middle; [exact Hfol|]. cbn. auto.
    + cbn in Hf |- *. injection Hf as <-. reflexivity.
  - (* release() *)
    destruct (file_at_single F l1 l2 (Flushed s) _ eq_refl Hfile) as (H1 & H2 & Hf).
    rewrite (existsb_middle l1 l2) in Hlock by assumption.
    cbn in Ht. unfold advance, release_to in Ht. rewrite Hlock in Ht.
    cbn [critical] in Ht. injection Ht as <- <-.
    exists (done ++ [s]). rewrite returned_texts_middle in *.
    rewrite (filter_middle l1 l2) in * by assumption.
    rewrite (existsb_middle l1 l2) by assumption.
    cbn [critical to_lock fh_to_manager returned_texts flat_map app] in *.
    repeat split.
    + eapply Permutation_trans; [apply Permutation_app_comm|].
      cbn [app]. now apply Permutation_cons_app.
    + eapply Forall2_middle; [exact Hfol|]. cbn. auto.
    + cbn in Hf |- *. injection Hf as <-. rewrite lines_app.
      unfold lines at 2. cbn. unfold F.
      rewrite List.app_nil_r, <- !app_assoc. reflexivity.
Qed.

Lemma reachable_serialized (calls : list call) (st0 : state)
      (cfg : state * list thread) :
  to_lock st0 = false ->
  pending (fh_to_manager st0) = [] ->
  reachable (st0, map Called calls) cfg ->
  serialized calls st0 cfg.
Proof.
  intros Hl Hp Hr. induction Hr as [|c i c' _ IH Hs].
  - now apply serialized_init.
  - eapply serialized_step; eauto.
Qed.

Lemma printable_scalar (s : text) :
  Forall (fun c => printable c = true) s -> forallb scalar s = true.
Proof.
  intros H. apply forallb_forall. rewrite Forall_forall in H.
  intros c Hc. specialize (H c Hc). apply printable_range in H.
  unfold scalar. apply orb_true_iff. left. apply N.ltb_lt. lia.
Qed.

Lemma line_of_call_no_newline (c : call) (s : text) :
  call_representable c -> line_of_call c = Some s -> ~ In 10 s.
Proof.
  destruct c as [|r [e|]]; cbn [call_representable line_of_call]; intros Hr H.
  - apply dumped_some in H. destruct H as [-> _].
    apply dumps_no_newline. repeat constructor.
  - destruct (text_eqb e (u "json")); [|discriminate].
    destruct (dumped r) as [s'|] eqn:E; [|discriminate].
    apply dumped_some in E. destruct E as [-> _].
    apply dumped_some in H. destruct H as [-> _].
    apply dumps_no_newline. constructor. repeat constructor.
    now apply printable_scalar, dumps_printable.
  - apply dumped_some in H. destruct H as [-> _].
    apply dumps_no_newline. constructor. repeat constructor. exact Hr.
Qed.

Lemma terminated_not_critical (ts : list thread) :
  forallb terminated ts = true -> filter critical ts = [].
Proof.
  induction ts as [|t ts IH]; cbn; [reflexivity|].
  intros H. apply andb_true_iff in H. destruct H as [Ht H].
  destruct t; try discriminate; cbn; auto.
Qed.

Lemma returned_texts_follows (calls : list call) (ts : list thread) :
  Forall2 follows calls ts ->
  forallb terminated ts = true ->
  returned_texts ts
  = flat_map (fun c => match line_of_call c with
                       | Some s => [s]
                       | None => []
                       end) calls.
Proof.
  induction 1 as [|c t calls ts Hf _ IH]; [reflexivity|].
  intros H. cbn [forallb] in H. apply andb_true_iff in H. destruct H as [Ht H].
  unfold returned_texts in *. cbn [flat_map]. rewrite (IH H).
  destruct t; try discriminate; cbn [follows] in Hf; now rewrite Hf.
Qed.

(** While a call is unfinished some thread can take a step: no deadlock. *)
Lemma serialized_progress (calls : list call) (st0 st : state) (ts : list thread) :
  serialized calls st0 (st, ts) ->
  forallb terminated ts = false ->
  exists i cfg', step (st, ts) i = Some cfg'.
Proof.
  intros (done & _ & _ & Hlock & _) Hq.
  destruct (existsb critical ts) eqn:Hc.
  - destruct (existsb_nth_error _ _ Hc) as (i & t & Hi & Ht).
    exists i. unfold step. rewrite Hi.
    destruct t; try discriminate; cbn; unfold advance, release_to;
      rewrite ?Hlock; cbn; eauto.
  - assert (Hex : existsb (fun t => negb (terminated t)) ts = true).
    { clear -Hq. induction ts as [|t ts IH]; cbn in *; [discriminate|].
      destruct (terminated t); cbn in *; auto. }
    destruct (existsb_nth_error _ _ Hex) as (i & t & Hi & Ht).
    assert (Hnc : critical t = false).
    { apply nth_error_In in Hi.
      destruct (critical t) eqn:E; [|reflexivity].
      assert (existsb critical ts = true) by (apply existsb_exists; eauto).
      congruence. }
    exists i. unfold step. rewrite Hi.
    destruct t as [c|s|s|s|s|s|s|e]; try discriminate.
    + destruct (thread_step_called c st) as (t1 & -> & _). eauto.
    + cbn. unfold advance, acquire_to. rewrite Hlock. eauto.
Qed.

(** What a call does before it asks for the lock, as the method and as
    the first step of its thread: the line is ready, or the call is over
    with an exception and nothing has changed. *)
Lemma call_prelude (c : call) (st : state) :
  (exists s, line_of_call c = Some s
             /\ thread_step (Called c) st = Some (Dumped s, st)
             /\ run_call c st = if to_lock st then Hangs else Return tt (sent s st))
  \/ (exists e, line_of_call c = None
                /\ thread_step (Called c) st = Some (Raised e, st)
                /\ run_call c st = Raise e st).
Proof.
  destruct c as [|r [e|]]; cbn [thread_step run_call line_of_call];
    unfold send_heartbeat, send_result, advance, encode_result, bind.
  - rewrite send_ipc_message_cases. unfold py_json_dumps.
    destruct (dumped (JArr [JStr (u "heartbeat")])) as [s|];
      cbn [ret raise]; [left | right]; eauto.
  - destruct (text_eqb e (u "json")); cbn [ret raise]; [|right; eauto].
    unfold py_json_dumps.
    destruct (dumped r) as [s|]; cbn [ret raise]; [|right; eauto].
    rewrite send_ipc_message_cases.
    destruct (dumped (JArr [JStr (u "result"); JStr s])) as [s'|];
      cbn [ret raise]; [left | right]; eauto.
  - cbn [ret]. rewrite send_ipc_message_cases. unfold py_json_dumps.
    destruct (dumped (JArr [JStr (u "result"); r])) as [s|];
      cbn [ret raise]; [left | right]; eauto.
Qed.

Lemma run_thread_dumped (s : text) (st : state) :
  run_thread 5 (Dumped s) st
  = if to_lock st then (Dumped s, st) else (Returned s, sent s st).
Proof.
  cbn [run_thread thread_step]. unfold advance, acquire_to.
  destruct (to_lock st) eqn:Hl; [reflexivity|]. cbn. unfold sent.
  now rewrite Hl.
Qed.

(** A thread on its own, run to its end, does what the method does. *)
Lemma thread_runs_the_call (c : call) (st : state) :
  match run_call c st with
  | Return _ st' =>
      exists s, line_of_call c = Some s /\ st' = sent s st
                /\ run_thread 6 (Called c) st = (Returned s, st')
  | Raise e st' =>
      line_of_call c = None /\ st' = st
      /\ run_thread 6 (Called c) st = (Raised e, st)
  | Hangs =>
      exists s, line_of_call c = Some s /\ to_lock st = true
                /\ run_thread 6 (Called c) st = (Dumped s, st)
  end.
Proof.
  change (run_thread 6 (Called c) st)
    with (match thread_step (Called c) st with
          | Some (t', st') => run_thread 5 t' st'
          | None => (Called c, st)
          end).
  destruct (call_prelude c st) as [(s & Hs & -> & ->) | (e & He & -> & ->)].
  - rewrite run_thread_dumped. destruct (to_lock st); eauto.
  - auto.
Qed.

(** C8. Any number of concurrent [send_heartbeat] and [send_result] calls,
    under every interleaving of their statements.  A thread is the method
    executed statement by statement: run on its own from any state it ends
    as the method does, with the same line written, the same exception, or
    waiting for the lock.  In every state the threads can reach together,
    the outbound stream is the initial text, then the whole lines of the
    calls that have returned (each exactly once), then what the one thread
    inside the critical section has written of its own line so far.  The
    lock is held exactly while a thread is inside; no line holds a newline
    of its own; when all calls are over everything is flushed and every
    call that got as far as the lock has its line; and until then some
    thread can always move. *)
Theorem outbound_lines_never_interleave (calls : list call) (st0 st : state)
        (ts : list thread) :
  to_lock st0 = false ->
  pending (fh_to_manager st0) = [] ->
  reachable (st0, map Called calls) (st, ts) ->
  (forall c s0, In c calls ->
     match run_call c s0 with
     | Return _ s1 =>
         exists line, line_of_call c = Some line /\ s1 = sent line s0
                      /\ run_thread 6 (Called c) s0 = (Returned line, s1)
     | Raise e s1 =>
         line_of_call c = None /\ s1 = s0
         /\ run_thread 6 (Called c) s0 = (Raised e, s0)
     | Hangs =>
         exists line, line_of_call c = Some line /\ to_lock s0 = true
                      /\ run_thread 6 (Called c) s0 = (Dumped line, s0)
     end)
  /\ exists done : list text,
    Permutation done (returned_texts ts)
    /\ (List.length (filter critical ts) <= 1)%nat
    /\ to_lock st = existsb critical ts
    /\ out st = out st0 ++ lines done ++ concat (map written (filter critical ts))
    /\ (forall c s, In c calls -> call_representable c ->
        line_of_call c = Some s -> ~ In 10 s)
    /\ (forallb terminated ts = true ->
        fh_to_manager st = mkOut (flushed (fh_to_manager st0) ++ lines done) []
        /\ returned_texts ts
           = flat_map (fun c => match line_of_call c with
                                | Some s => [s]
                                | None => []
                                end) calls)
    /\ (forallb terminated ts = false ->
        exists i cfg', step (st, ts) i = Some cfg').
Proof.
  intros Hl Hp Hr.
  split; [intros c s0 _; apply thread_runs_the_call|].
  pose proof (reachable_serialized calls st0 (st, ts) Hl Hp Hr) as Hs.
  pose proof Hs as (done & Hperm & Hfol & Hlock & Hfile).
  exists done. split; [exact Hperm|].
  assert (Hout : out st0 = flushed (fh_to_manager st0)).
  { unfold out. now rewrite Hp, List.app_nil_r. }
  split; [|split; [exact Hlock|split; [|split; [|split]]]].
  - destruct (filter critical ts) as [|a [|b l]]; cbn; try lia.
    destruct a; discriminate.
  - rewrite Hout. unfold out.
    destruct (filter critical ts) as [|a [|b l]]; cbn in Hfile |- *.
    + injection Hfile as <-. cbn. now rewrite !List.app_nil_r.
    + destruct a; try discriminate; injection Hfile as <-; cbn;
        rewrite ?List.app_nil_r, <- ?app_assoc; reflexivity.
    + destruct a; discriminate.
  - intros c s _. apply line_of_call_no_newline.
  - intros Hq. rewrite (terminated_not_critical ts Hq) in Hfile.
    cbn in Hfile. injection Hfile as <-.
    split; [reflexivity | now apply returned_texts_follows].
  - intros Hq. eapply serialized_progress; eauto.
Qed.

Lemma run_schedule_reachable (c0 c : state * list thread) (schedule : list nat) :
  run_schedule c0 schedule = Some c -> reachable c0 c.
Proof.
  assert (H : forall c1, reachable c0 c1 ->
                         run_schedule c1 schedule = Some c -> reachable c0 c).
  { induction schedule as [|i rest IH]; intros c1 Hr Hrun; cbn in Hrun.
    - now injection Hrun as <-.
    - destruct (step c1 i) as [c2|] eqn:E; [|discriminate].
      apply (IH c2); [|exact Hrun]. eapply reach_step; eauto. }
  apply H. constructor.
Qed.

(** ** What [receive_message] returns, and when *)

Lemma split_line_concat (s : text) :
  fst (split_line s) ++ snd (split_line s) = s.
Proof.
  induction s as [|c s IH]; cbn; [reflexivity|].
  destruct (c =? 10); cbn; [reflexivity|].
  destruct (split_line s) as [l r]; cbn in *. now rewrite IH.
Qed.

Lemma py_eq_str_true (o : json) (s : text) :
  py_eq_str o s = true -> o = JStr s.
Proof.
  destruct o; cbn; try discriminate.
  intros H. destruct (text_eqb_spec s0 s); congruence.
Qed.

(** X1. What [_receive_ipc_message] hands back is read off the line it
    has consumed: the line decodes to a list whose first element is a
    string that is not blank, which is the keyword, the rest of the list
    being the payload; or it decodes to a string whose first character is
    not whitespace, and then that character is the keyword and the rest of
    the string the payload. *)
Theorem receive_ipc_message_returns (st st' : state) (keyword data : json) :
  from_lock st = false ->
  _receive_ipc_message st = Return (keyword, data) st' ->
  st' = after_line st
  /\ ((exists k payload,
         json_loads (str_rstrip (next_line st)) = Scanned (JArr (JStr k :: payload))
         /\ keyword = JStr k /\ data = JArr payload /\ blank k = false)
      \/ (exists c s,
            json_loads (str_rstrip (next_line st)) = Scanned (JStr (c :: s))
            /\ keyword = JStr [c] /\ data = JStr s
            /\ unicode_isspace c = false)).
Proof.
  intros Hl H. rewrite receive_ipc_message_spec in H by assumption.
  destruct (json_loads (str_rstrip (next_line st))) as [v| |]; try discriminate.
  destruct (envelope_of v) as [env|] eqn:E; [|discriminate].
  injection H as -> <-. split; [reflexivity|].
  destruct v as [ | | | |s|l|d]; try discriminate.
  - destruct s as [|c s]; [discriminate|]. cbn in E.
    destruct (unicode_isspace c) eqn:Ec; [discriminate|].
    injection E as <- <-. right. eauto 6.
  - destruct l as [|x l]; [discriminate|].
    destruct x; try discriminate. cbn in E.
    destruct (blank s) eqn:Eb; [discriminate|].
    injection E as <- <-. left. eauto 6.
Qed.

Lemma receive_message_payload (st st' : state) (data : json) :
  from_lock st = false ->
  _receive_ipc_message st = Return (JStr (u "message"), data) st' ->
  exists payload, data = JArr payload.
Proof.
  intros Hl H. rewrite receive_ipc_message_spec in H by assumption.
  destruct (json_loads (str_rstrip (next_line st))) as [v| |]; try discriminate.
  destruct (envelope_of v) as [env|] eqn:E; [|discriminate].
  injection H as -> _.
  destruct v as [ | | | |s|l|d]; try discriminate.
  - destruct s as [|c s]; [discriminate|]. cbn in E.
    destruct (unicode_isspace c); discriminate.
  - destruct l as [|x l]; [discriminate|].
    destruct x; try discriminate. cbn in E.
    destruct (blank s); [discriminate|]. injection E as _ <-. eauto.
Qed.

Lemma discards_from_lock (st st' : state) :
  from_lock st = false -> discards st st' -> from_lock st' = false.
Proof.
  intros Hl Hd. induction Hd as [st|st keyword data st1 st2 E Hk Hd IH]; [assumption|].
  apply IH. destruct (receive_return_inv _ _ _ Hl E) as [-> _].
  now rewrite after_line_from_lock.
Qed.

Lemma discards_snoc (st st1 st2 : state) (keyword data : json) :
  discards st st1 ->
  _receive_ipc_message st1 = Return (keyword, data) st2 ->
  py_eq_str keyword (u "message") = false ->
  discards st st2.
Proof.
  intros Hd E Hk. induction Hd as [st|st kw d sta stb E' Hk' Hd IH].
  - eapply discards_cons; eauto. constructor.
  - eapply discards_cons; eauto.
Qed.

(** X2. The first envelope with the keyword ["message"] decides the call:
    after any number of envelopes with other keywords, a message with one
    element gives that element as it is without a decoder, and with the
    decoder ["json"] the value the element denotes, [ValueError] when the
    element is a string that is no JSON text, [RuntimeError] when it is
    JSON text nested deeper than [json.loads] can go, [TypeError] when it
    is no string.  The stream is left just after the message. *)
Theorem receive_message_delivers (decode : option text) (st st1 st2 : state)
        (content : json) :
  known_selector decode ->
  from_lock st = false ->
  discards st st1 ->
  _receive_ipc_message st1 = Return (JStr (u "message"), JArr [content]) st2 ->
  receive_message decode st = deliver decode content st2.
Proof.
  intros Hsel Hl Hd E.
  destruct (receive_message_discards decode st st1 Hsel Hl Hd) as [-> _].
  now apply receive_message_here.
Qed.

(** X3. A line that cannot be decoded ends the call with its exception:
    the envelopes dropped before it are gone, the lines after it stay
    unread. *)
Theorem receive_message_propagates (decode : option text) (st st1 st2 : state)
        (e : exn) :
  known_selector decode ->
  from_lock st = false ->
  discards st st1 ->
  _receive_ipc_message st1 = Raise e st2 ->
  receive_message decode st = Raise e st2.
Proof.
  intros Hsel Hl Hd E.
  destruct (receive_message_discards decode st st1 Hsel Hl Hd) as [-> _].
  now apply receive_message_raise_here.
Qed.

(** X4. At the end of the stream there is nothing to wait for: once every
    line has been read and dropped, the call raises [ValueError]. *)
Theorem receive_message_end_of_stream (decode : option text) (st st1 : state) :
  known_selector decode ->
  from_lock st = false ->
  discards st st1 ->
  fh_from_manager st1 = [] ->
  receive_message decode st = Raise ValueError st1.
Proof.
  intros Hsel Hl Hd He.
  destruct (receive_message_discards decode st st1 Hsel Hl Hd) as [-> Hl1].
  apply receive_message_raise_here; [assumption|].
  rewrite receive_ipc_message_spec by assumption.
  unfold next_line, after_line. rewrite He. cbn.
  destruct st1 as [fl tl i o]; cbn in *. now subst.
Qed.

Lemma receive_loop_returns (n : nat) (st st' : state) (data : json) :
  from_lock st = false ->
  receive_loop n st = Return data st' ->
  exists st1 content,
    discards st st1
    /\ _receive_ipc_message st1 = Return (JStr (u "message"), JArr [content]) st'
    /\ data = JArr [content].
Proof.
  revert st. induction n as [|n IH]; intros st Hl H; [discriminate|].
  cbn [receive_loop] in H. unfold bind in H.
  destruct (_receive_ipc_message st) as [[keyword d] sta|e sta|] eqn:E;
    try discriminate.
  destruct (py_eq_str keyword (u "message")) eqn:Hk.
  - apply py_eq_str_true in Hk. subst keyword.
    destruct (receive_message_payload _ _ _ Hl E) as (payload & ->).
    cbn [py_len ret] in H.
    destruct payload as [|content [|x payload]]; try discriminate.
    cbn in H. injection H as <- <-.
    exists st, content. repeat split; [constructor | exact E].
  - destruct (receive_return_inv _ _ _ Hl E) as [-> _].
    destruct (IH (after_line st)) as (st1 & content & Hd & E1 & ->);
      [now rewrite after_line_from_lock | exact H |].
    exists st1, content. repeat split; [|exact E1].
    eapply discards_cons; eauto.
Qed.

(** X5. Nothing but a message is ever returned: [receive_message] returns
    [v] exactly when, after envelopes with other keywords, a ["message"]
    envelope with one element is met and that element delivers [v]. *)
Theorem receive_message_returns_iff (decode : option text) (st st' : state)
        (v : json) :
  known_selector decode ->
  from_lock st = false ->
  (receive_message decode st = Return v st'
   <-> exists st1 content,
         discards st st1
         /\ _receive_ipc_message st1
            = Return (JStr (u "message"), JArr [content]) st'
         /\ deliver decode content st' = Return v st').
Proof.
  intros Hsel Hl. split.
  - intros H. pose proof (known_selector_cases _ Hsel) as Hc.
    unfold receive_message, bind in H.
    assert (Hloop : exists data sta,
               receive_loop (S (List.length (fh_from_manager st))) st
               = Return data sta
               /\ match py_getitem data 0 sta with
                  | Return a stb =>
                      match decode with
                      | Some _ => py_json_loads a stb
                      | None => ret a stb
                      end
                  | Raise e stb => Raise e stb
                  | Hangs => Hangs
                  end = Return v st').
    { destruct decode as [d|]; [rewrite Hc in H|]; cbn [ret] in H;
        destruct (receive_loop (S (List.length (fh_from_manager st))) st)
          as [data sta|e sta|]; try discriminate; eauto. }
    destruct Hloop as (data & sta & Hloop & Hrest).
    destruct (receive_loop_returns _ _ _ _ Hl Hloop)
      as (st1 & content & Hd & E & ->).
    cbn [py_getitem nth_error ret] in Hrest.
    assert (sta = st') as ->.
    { unfold py_json_loads, ret, raise in Hrest.
      destruct decode as [d|]; [|congruence].
      destruct content; try discriminate.
      destruct (json_loads s); congruence. }
    exists st1, content. repeat split; try assumption.
    unfold py_json_loads, ret, raise in Hrest.
    destruct decode as [d|]; [|exact Hrest].
    destruct content; try exact Hrest. cbn [deliver].
    now destruct (json_loads s).
  - intros (st1 & content & Hd & E & Hv).
    destruct (receive_message_discards decode st st1 Hsel Hl Hd) as [-> _].
    now rewrite (receive_message_here decode st1 st' content).
Qed.

(** ** Streams of envelopes *)

Lemma droppable_line (e : text * list json) (tl : bool) (out : outfile)
      (rest : text) :
  droppable e ->
  _receive_ipc_message
    (mkState false tl (envelope_line (fst e) (snd e) ++ rest) out)
  = Return (JStr (fst e), JArr (map reread (snd e))) (mkState false tl rest out)
  /\ py_eq_str (JStr (fst e)) (u "message") = false.
Proof.
  intros (Hb & Hk & Hrep). split.
  - unfold envelope_line. rewrite receive_dumped by assumption.
    cbn [map reread envelope_of]. now rewrite Hb.
  - cbn [py_eq_str]. now apply text_eqb_neq.
Qed.

Lemma discards_lines (skipped : list (text * list json)) (tl : bool)
      (out : outfile) (rest : text) :
  Forall droppable skipped ->
  discards
    (mkState false tl
       (concat (map (fun e => envelope_line (fst e) (snd e)) skipped) ++ rest) out)
    (mkState false tl rest out).
Proof.
  induction 1 as [|e skipped He _ IH]; cbn [map concat app]; [constructor|].
  rewrite <- app_assoc.
  destruct (droppable_line e tl out
              (concat (map (fun e => envelope_line (fst e) (snd e)) skipped) ++ rest)
              He) as [E Hk].
  eapply discards_cons; eauto.
Qed.

Lemma readable_message (content : json) :
  representable content ->
  (S (depth content) <= loads_depth)%nat ->
  readable (JArr [JStr (u "message"); content]).
Proof.
  intros Hv Hd. split.
  - constructor. repeat constructor. exact Hv.
  - cbn [depth map list_max fold_right]. now rewrite Nat.max_0_r.
Qed.

Lemma receive_message_wire (decode : option text)
      (skipped : list (text * list json)) (content : json)
      (tl : bool) (out : outfile) (rest : text) :
  known_selector decode ->
  Forall droppable skipped ->
  readable (JArr [JStr (u "message"); content]) ->
  receive_message decode
    (mkState false tl
       (concat (map (fun e => envelope_line (fst e) (snd e)) skipped)
        ++ envelope_line (u "message") [content] ++ rest) out)
  = deliver decode (reread content) (mkState false tl rest out).
Proof.
  intros Hsel Hsk Hc.
  pose proof (discards_lines skipped tl out
                (envelope_line (u "message") [content] ++ rest) Hsk) as Hd.
  destruct (fun Hl => receive_message_discards decode _ _ Hsel Hl Hd)
    as [-> _]; [reflexivity|].
  apply receive_message_here; [assumption|].
  unfold envelope_line. now rewrite receive_dumped.
Qed.

(** X6. Filtering, in general: whatever envelopes with other keywords come
    first, [receive_message()] returns the element of the first
    ["message"] envelope and leaves the stream just after that envelope.
    The envelopes are JSON values nested no deeper than [json.loads] can
    go; the element is returned unchanged, but for a float in it, which is
    read as [float(repr(f))]. *)
Theorem receive_message_filters (skipped : list (text * list json))
        (content : json) (tl : bool) (out : outfile) (rest : text) :
  Forall droppable skipped ->
  representable content ->
  (S (depth content) <= loads_depth)%nat ->
  receive_message None
    (mkState false tl
       (concat (map (fun e => envelope_line (fst e) (snd e)) skipped)
        ++ envelope_line (u "message") [content] ++ rest) out)
  = Return (reread content) (mkState false tl rest out)
  /\ (float_free content = true -> reread content = content).
Proof.
  intros Hsk Hc Hd. split; [|apply reread_float_free].
  rewrite (receive_message_wire None);
    [reflexivity | now left | assumption | now apply readable_message].
Qed.

(** X7. The decoder ["json"] undoes [json.dumps]: when the message carries
    the JSON text of a value as its one element, [receive_message('json')]
    returns that value, if it is nested no deeper than [json.loads] can
    go: unchanged, but for a float in it, which is read as
    [float(repr(f))]. *)
Theorem receive_message_json_round_trip (skipped : list (text * list json))
        (v : json) (tl : bool) (out : outfile) (rest : text) :
  Forall droppable skipped ->
  representable v ->
  (depth v <= loads_depth)%nat ->
  receive_message (Some (u "json"))
    (mkState false tl
       (concat (map (fun e => envelope_line (fst e) (snd e)) skipped)
        ++ envelope_line (u "message") [JStr (json_dumps v)] ++ rest) out)
  = Return (reread v) (mkState false tl rest out)
  /\ (float_free v = true -> reread v = v).
Proof.
  intros Hsk Hv Hd. split; [|apply reread_float_free].
  rewrite (receive_message_wire (Some (u "json")));
    [| now right | assumption |].
  - cbn [deliver reread]. rewrite json_loads_dumps; [reflexivity|].
    split; assumption.
  - apply readable_message; [| apply loads_depth_min].
    constructor. now apply printable_scalar, dumps_printable.
Qed.

(** ** The two channels are independent *)

Lemma receive_ipc_message_held (st : state) :
  from_lock st = true -> _receive_ipc_message st = Hangs.
Proof.
  intros H. unfold _receive_ipc_message, bind, acquire_from. now rewrite H.
Qed.

Lemma receive_frame_refl (st : state) : receive_frame st st.
Proof. repeat split. now exists []. Qed.

Lemma receive_frame_trans (a b c : state) :
  receive_frame a b -> receive_frame b c -> receive_frame a c.
Proof.
  intros (H1 & H2 & H3 & (x & H4)) (G1 & G2 & G3 & (y & G4)).
  repeat split; try congruence.
  exists (x ++ y). rewrite H4, G4. now rewrite app_assoc.
Qed.

Lemma receive_frame_after_line (st : state) : receive_frame st (after_line st).
Proof.
  repeat split. exists (next_line st). unfold next_line, after_line.
  cbn [fh_from_manager]. symmetry. apply split_line_concat.
Qed.

Lemma receive_ipc_message_frame (st : state) :
  match _receive_ipc_message st with
  | Return _ st' | Raise _ st' => receive_frame st st' /\ from_lock st = false
  | Hangs => from_lock st = true
  end.
Proof.
  destruct (from_lock st) eqn:Hl.
  - now rewrite receive_ipc_message_held.
  - rewrite receive_ipc_message_spec by assumption.
    destruct (json_loads (str_rstrip (next_line st))) as [v| |];
      [destruct (envelope_of v)| |];
      (split; [apply receive_frame_after_line | reflexivity]).
Qed.

Lemma receive_loop_frame (n : nat) (st : state) :
  match receive_loop n st with
  | Return _ st' | Raise _ st' => receive_frame st st'
  | Hangs => True
  end.
Proof.
  revert st. induction n as [|n IH]; intros st; [exact I|].
  cbn [receive_loop]. unfold bind.
  pose proof (receive_ipc_message_frame st) as Hf.
  destruct (_receive_ipc_message st) as [[keyword data] st1|e st1|];
    [|tauto|exact I].
  destruct Hf as [Hf _].
  destruct (py_eq_str keyword (u "message")).
  - destruct data; cbn; try exact Hf;
      match goal with |- context [py_assert ?b] => destruct b end; exact Hf.
  - specialize (IH st1).
    destruct (receive_loop n st1); try exact I;
      eapply receive_frame_trans; eauto.
Qed.

(** X8. A receive never touches the outbound side and never gives back
    what it has read: when [receive_message] returns or raises, both locks
    are as they were, stdout is untouched, and the inbound text left is a
    suffix of what was there.  A send in progress (the outbound lock held)
    does not stop it. *)
Theorem receive_message_frame (decode : option text) (st : state) :
  match receive_message decode st with
  | Return _ st' | Raise _ st' => receive_frame st st'
  | Hangs => True
  end.
Proof.
  unfold receive_message, bind.
  assert (Htail : forall (b : bool) data st',
            receive_frame st st' ->
            match
              match py_getitem data 0 st' with
              | Return a st'' => (if b then py_json_loads a else ret a) st''
              | Raise e st'' => Raise e st''
              | Hangs => Hangs
              end
            with
            | Return _ s | Raise _ s => receive_frame st s
            | Hangs => True
            end).
  { intros b data st' Hf.
    destruct data as [ | | | |s|l|d]; cbn; try exact Hf.
    - destruct s; cbn; [exact Hf|]. destruct b; cbn; [|exact Hf].
      destruct (json_loads _); exact Hf.
    - destruct l as [|x l]; cbn; [exact Hf|]. destruct b; cbn; [|exact Hf].
      destruct x; cbn; try exact Hf. destruct (json_loads _); exact Hf. }
  pose proof (receive_loop_frame (S (List.length (fh_from_manager st))) st) as Hloop.
  destruct decode as [d|]; [destruct (text_eqb d (u "json"))|]; cbn [ret raise];
    try apply receive_frame_refl;
    (destruct (receive_loop (S (List.length (fh_from_manager st))) st)
       as [data st'|e st'|]; [|exact Hloop | exact I]).
  - now apply (Htail true).
  - now apply (Htail false).
Qed.

(** X9. With a known decoder [receive_message] fails to come back in one
    case only: the inbound lock is held.  On a stream that ends, the loop
    ends. *)
Theorem receive_message_hangs_iff (decode : option text) (st : state) :
  known_selector decode ->
  (receive_message decode st = Hangs <-> from_lock st = true).
Proof.
  intros Hsel. split.
  - intros H. destruct (from_lock st) eqn:Hl; [reflexivity|].
    now apply receive_message_comes_back in H.
  - intros Hl. apply known_selector_cases in Hsel.
    unfold receive_message, bind.
    destruct decode as [d|]; [rewrite Hsel|]; cbn [ret receive_loop];
      unfold bind; now rewrite receive_ipc_message_held.
Qed.

Lemma line_of_call_known (c : call) :
  call_known c -> call_fits c -> exists s, line_of_call c = Some s.
Proof.
  destruct c as [|r [e|]]; cbn [call_known call_fits line_of_call]; intros Hk Hf.
  - rewrite dumped_heartbeat. eauto.
  - destruct Hk as [H|H]; [discriminate|]. injection H as ->.
    rewrite text_eqb_refl, (dumped_fits r), dumped_result_string by assumption.
    eauto.
  - rewrite dumped_fits; [eauto|]. now rewrite depth_result.
Qed.

Lemma run_call_known (c : call) (st : state) :
  call_known c ->
  call_fits c ->
  to_lock st = false ->
  exists s, line_of_call c = Some s /\ run_call c st = Return tt (sent s st).
Proof.
  intros Hc Hf Hl. destruct (line_of_call_known c Hc Hf) as (s & Hs).
  exists s. split; [exact Hs|].
  destruct (call_prelude c st) as [(s' & Hs' & _ & ->) | (e & He & _)];
    [|congruence].
  rewrite Hl. congruence.
Qed.

(** X10. What a send does is decided by its selector, the depth of its
    result and the outbound lock alone.  With an unknown encoder, or a
    result nested deeper than [json.dumps] can go, it raises and leaves the
    state as it was; otherwise it waits when the outbound lock is held, and
    else returns with its line appended and flushed, the lock free again
    and the inbound side untouched.  The inbound lock plays no part. *)
Theorem run_call_outcome (c : call) (st : state) :
  match line_of_call c with
  | None => exists e, run_call c st = Raise e st
  | Some s =>
      run_call c st = if to_lock st then Hangs else Return tt (sent s st)
  end.
Proof.
  destruct (call_prelude c st) as [(s & -> & _ & H) | (e & -> & _ & H)];
    [exact H | eauto].
Qed.

(** ** Calls in a row *)

(** X11. Sends compose: calls with known selectors and results within the
    recursion limit, made one after the other with the outbound lock free,
    all return, and stdout then holds, flushed, what it held before
    followed by their lines in the order of the calls. *)
Theorem run_calls_lines (cs : list call) (st : state) :
  Forall call_known cs ->
  Forall call_fits cs ->
  to_lock st = false ->
  pending (fh_to_manager st) = [] ->
  exists ls,
    Forall2 (fun c s => line_of_call c = Some s) cs ls
    /\ run_calls cs st
       = Return tt (mkState (from_lock st) false (fh_from_manager st)
                            (mkOut (flushed (fh_to_manager st) ++ lines ls) [])).
Proof.
  intros Hk. revert st. induction Hk as [|c cs Hc _ IH]; intros st Hf Hl Hp.
  - exists []. split; [constructor|]. cbn. unfold lines. cbn.
    rewrite List.app_nil_r. destruct st as [fl tl i [f pd]]; cbn in *. now subst.
  - inversion Hf as [|? ? Hfc Hfs]; subst.
    destruct (run_call_known c st Hc Hfc Hl) as (s & Hs & Ho).
    destruct (IH (sent s st)) as (ls & Hls & Hrun);
      [assumption | exact Hl | reflexivity |].
    exists (s :: ls). split; [now constructor|].
    cbn [run_calls]. unfold bind. rewrite Ho, Hrun.
    unfold sent, lines.
    cbn [from_lock to_lock fh_from_manager fh_to_manager flushed pending
         map concat].
    rewrite Hp. cbn [app]. now rewrite <- !app_assoc.
Qed.

(** ** What was sent, read back *)

Lemma line_of_call_shape (c : call) (s : text) :
  call_representable c ->
  line_of_call c = Some s ->
  exists l, s = json_dumps (JArr l)
            /\ representable (JArr l)
            /\ envelope_of (JArr (map reread l)) = Some (envelope_read c)
            /\ (call_readable c -> readable (JArr l)).
Proof.
  destruct c as [|r [e|]];
    cbn [call_representable call_readable line_of_call]; intros Hr H.
  - apply dumped_some in H. destruct H as [-> _].
    exists [JStr (u "heartbeat")]. split; [reflexivity|].
    split; [repeat constructor|]. split; [reflexivity|].
    intros _. shallow.
  - destruct (text_eqb e (u "json")); [|discriminate].
    destruct (dumped r) as [s'|] eqn:E; [|discriminate].
    apply dumped_some in E. destruct E as [-> _].
    apply dumped_some in H. destruct H as [-> _].
    assert (Hs : representable (JStr (json_dumps r))).
    { constructor. now apply printable_scalar, dumps_printable. }
    exists [JStr (u "result"); JStr (json_dumps r)]. split; [reflexivity|].
    split; [apply rep_arr; constructor;
            [constructor; reflexivity | constructor; [exact Hs | constructor]]|].
    split; [reflexivity|].
    intros _. apply readable_result; [exact Hs | apply loads_depth_min].
  - apply dumped_some in H. destruct H as [-> _].
    exists [JStr (u "result"); r]. split; [reflexivity|].
    split; [apply rep_arr; constructor;
            [constructor; reflexivity | constructor; [exact Hr | constructor]]|].
    split; [reflexivity|].
    intros Hd. now apply readable_result.
Qed.

(** X12. The stream round trip: the lines of any sequence of calls, in the
    order they were written, are read back by as many
    [_receive_ipc_message] calls as the envelopes the senders built, in the
    same order, and the reader stops exactly behind the last of them.  A
    result sent as it is fits the limit of the reader; a float in it is
    read as [float(repr(f))], and without floats the envelopes read are
    the envelopes built. *)
Theorem sent_lines_read_back (cs : list call) (ls : list text) (tl : bool)
        (out : outfile) (rest : text) :
  Forall call_representable cs ->
  Forall call_readable cs ->
  Forall2 (fun c s => line_of_call c = Some s) cs ls ->
  receive_n (List.length cs) (mkState false tl (lines ls ++ rest) out)
  = Return (map envelope_read cs) (mkState false tl rest out)
  /\ (forall c, float_free (snd (envelope_of_call c)) = true ->
      envelope_read c = envelope_of_call c).
Proof.
  intros Hrep Hrd Hls. split.
  - induction Hls as [|c s cs ls Hs _ IH]; [reflexivity|].
    inversion Hrep as [|? ? Hc Hcs]; subst.
    inversion Hrd as [|? ? Hd Hds]; subst.
    destruct (line_of_call_shape c s Hc Hs) as (l & -> & _ & He & Hl).
    unfold lines. cbn [map concat List.length receive_n].
    rewrite <- app_assoc. unfold bind.
    rewrite receive_dumped by auto. rewrite He.
    unfold lines in IH. rewrite (IH Hcs Hds). reflexivity.
  - intros c Hf. unfold envelope_read. rewrite reread_float_free by assumption.
    now destruct (envelope_of_call c).
Qed.

(** X13. A message is one line of printable ASCII: whatever a sender that
    returns has written is its old buffer, then characters between [' ']
    and ['~'] only, then the newline, all of it flushed. *)
Theorem sent_line_is_ascii (c : call) (st st' : state) :
  call_representable c ->
  run_call c st = Return tt st' ->
  exists s, st' = sent s st /\ Forall (fun ch => printable ch = true) s.
Proof.
  intros Hc H.
  pose proof (thread_runs_the_call c st) as Hrun. rewrite H in Hrun.
  destruct Hrun as (s & Hs & -> & _).
  exists s. split; [reflexivity|].
  destruct (line_of_call_shape c s Hc Hs) as (l & -> & Hrep & _).
  now apply dumps_printable.
Qed.

(** ** Before and after [init()] *)

Lemma receive_message_on_readline (decode : option text) :
  receive_message_on readline decode = receive_message decode.
Proof. reflexivity. Qed.

Lemma p_receive_message_bound (decode : option text) (p : process) :
  bound p = true ->
  p_receive_message decode p = in_process (receive_message decode) p.
Proof.
  intros Hb. unfold p_receive_message, in_process, p_readline. rewrite Hb.
  now rewrite receive_message_on_readline.
Qed.

Lemma p_run_call_bound (c : call) (p : process) :
  bound p = true ->
  p_run_call c p = in_process (run_call c) p.
Proof.
  intros Hb. destruct c as [|r e]; cbn [p_run_call run_call];
    unfold p_send_heartbeat, p_send_result, p_write, p_flush; now rewrite Hb.
Qed.

Lemma receive_message_held (decode : option text) (st : state) :
  known_selector decode ->
  from_lock st = true ->
  receive_message decode st = Hangs.
Proof.
  intros Hsel Hl. apply known_selector_cases in Hsel.
  unfold receive_message, bind.
  destruct decode as [d|]; [rewrite Hsel|]; cbn [ret receive_loop];
    unfold bind; now rewrite receive_ipc_message_held.
Qed.

(** X15. A receive before [init()] is not harmless: the handle is still
    [None], so the call raises [AttributeError] with nothing read, and it
    does so after taking the inbound lock, which it never gives back.
    Every later receive with a decoder that is accepted, [init()] or not,
    waits for ever; one with an unknown decoder is refused as ever, before
    it asks for the lock. *)
Theorem receive_before_init (decode decode' : option text) (p : process) :
  bound p = false ->
  from_lock (std p) = false ->
  known_selector decode ->
  known_selector decode' ->
  exists p',
    p_receive_message decode p = PRaise AttributeError p'
    /\ std p' = mkState true (to_lock (std p)) (fh_from_manager (std p))
                        (fh_to_manager (std p))
    /\ p_receive_message decode' p' = PHangs
    /\ p_receive_message decode' (p_init p') = PHangs
    /\ (forall d, d <> u "json" ->
        p_receive_message (Some d) (p_init p')
        = PRaise (Exception (u "No such decoder: " ++ d)) (p_init p')).
Proof.
  intros Hb Hl Hsel Hsel'.
  assert (Hraise : p_receive_message decode p
                   = PRaise AttributeError
                       (mkProcess (mkState true (to_lock (std p))
                                     (fh_from_manager (std p))
                                     (fh_to_manager (std p)))
                          (bound p) (sys_stdout p) (stderr_text p))).
  { apply known_selector_cases in Hsel.
    unfold p_receive_message, in_process, receive_message_on, p_readline, bind.
    rewrite Hb.
    destruct decode as [d|]; [rewrite Hsel|]; cbn [ret receive_loop_on];
      unfold receive_ipc_message_on, bind, acquire_from; rewrite Hl;
      reflexivity. }
  eexists. split; [exact Hraise|]. split; [reflexivity|]. split; [|split].
  - apply known_selector_cases in Hsel'.
    unfold p_receive_message, in_process, receive_message_on, bind.
    cbn [std].
    destruct decode' as [d|]; [rewrite Hsel'|]; cbn [ret receive_loop_on];
      unfold receive_ipc_message_on, bind, acquire_from; reflexivity.
  - rewrite p_receive_message_bound by reflexivity.
    unfold in_process. cbn [p_init std].
    now rewrite receive_message_held.
  - intros d Hd. rewrite p_receive_message_bound by reflexivity.
    unfold in_process, receive_message, bind.
    now rewrite text_eqb_neq.
Qed.

(** What a call does in the process, up to the lock. *)
Lemma p_call_prelude (c : call) (p : process) :
  (exists s,
      line_of_call c = Some s
      /\ p_run_call c p
         = in_process (acquire_to ;;; p_write p s ;;; p_write p [10] ;;;
                       p_flush p ;;; release_to) p)
  \/ (exists e, line_of_call c = None /\ p_run_call c p = in_process (raise e) p).
Proof.
  destruct c as [|r [e|]]; cbn [p_run_call line_of_call];
    unfold p_send_heartbeat, p_send_result, send_heartbeat_on, send_result_on,
      send_ipc_message_on, in_process, encode_result, py_json_dumps, bind.
  - destruct (dumped (JArr [JStr (u "heartbeat")])) as [s|];
      cbn [ret raise]; [left | right]; eauto.
  - destruct (text_eqb e (u "json")); cbn [ret raise]; [|right; eauto].
    destruct (dumped r) as [s|]; cbn [ret raise]; [|right; eauto].
    destruct (dumped (JArr [JStr (u "result"); JStr s])) as [s'|];
      cbn [ret raise]; [left | right]; eauto.
  - cbn [ret].
    destruct (dumped (JArr [JStr (u "result"); r])) as [s|];
      cbn [ret raise]; [left | right]; eauto.
Qed.

Lemma p_run_call_held (c : call) (s : text) (p : process) :
  line_of_call c = Some s ->
  to_lock (std p) = true ->
  p_run_call c p = PHangs.
Proof.
  intros Hs Hl.
  destruct (p_call_prelude c p) as [(s' & _ & ->) | (e & He & _)]; [|congruence].
  unfold in_process, bind, acquire_to. now rewrite Hl.
Qed.

(** X16. The same on the outbound side: a sender that gets as far as the
    lock (a known selector, a result within the recursion limit), called
    before [init()], raises [AttributeError] with nothing written and
    leaves the outbound lock held; after that every such send waits for
    ever, [init()] or not, and a send with an unknown encoder is refused as
    ever, before it asks for the lock. *)
Theorem send_before_init (c c' : call) (p : process) :
  bound p = false ->
  to_lock (std p) = false ->
  call_known c -> call_fits c ->
  call_known c' -> call_fits c' ->
  exists p',
    p_run_call c p = PRaise AttributeError p'
    /\ std p' = mkState (from_lock (std p)) true (fh_from_manager (std p))
                        (fh_to_manager (std p))
    /\ p_run_call c' p' = PHangs
    /\ p_run_call c' (p_init p') = PHangs
    /\ (forall r e, e <> u "json" ->
        p_run_call (Result r (Some e)) (p_init p')
        = PRaise (Exception (u "No such encoder: " ++ e)) (p_init p')).
Proof.
  intros Hb Hl Hc Hf Hc' Hf'.
  destruct (line_of_call_known c Hc Hf) as (s & Hs).
  destruct (line_of_call_known c' Hc' Hf') as (s' & Hs').
  assert (Hraise : p_run_call c p
                   = PRaise AttributeError
                       (mkProcess (mkState (from_lock (std p)) true
                                     (fh_from_manager (std p))
                                     (fh_to_manager (std p)))
                          (bound p) (sys_stdout p) (stderr_text p))).
  { destruct (p_call_prelude c p) as [(s1 & _ & ->) | (e & He & _)];
      [|congruence].
    unfold in_process, bind, acquire_to, p_write. now rewrite Hl, Hb. }
  eexists. split; [exact Hraise|]. split; [reflexivity|].
  split; [|split].
  - now apply (p_run_call_held c' s').
  - now apply (p_run_call_held c' s').
  - intros r e He. rewrite p_run_call_bound by reflexivity.
    unfold in_process. cbn [run_call].
    unfold send_result, encode_result, bind. now rewrite text_eqb_neq.
Qed.

Lemma run_actions_initialized (acts : list action) (p : process) :
  Forall action_known acts ->
  Forall action_fits acts ->
  bound p = true ->
  sys_stdout p = ToStderr ->
  to_lock (std p) = false ->
  pending (fh_to_manager (std p)) = [] ->
  run_actions acts p
  = PReturn tt
      (mkProcess
         (mkState (from_lock (std p)) false (fh_from_manager (std p))
            (mkOut (flushed (fh_to_manager (std p)) ++ lines (sent_lines acts)) []))
         true ToStderr (stderr_text p ++ printed acts)).
Proof.
  intros Hk. revert p.
  induction Hk as [|a acts Ha _ IH]; intros p Hf Hb Ht Hl Hp.
  - cbn [run_actions sent_lines printed]. unfold lines. cbn [map concat].
    rewrite !List.app_nil_r.
    destruct p as [[fl tl i [f pd]] b t e]; cbn in *. now subst.
  - inversion Hf as [|? ? Hfa Hfs]; subst.
    destruct a as [s|c];
      cbn [run_actions sent_lines printed action_known action_fits] in *.
    + assert (Hq : p_print s p
                   = mkProcess (std p) (bound p) (sys_stdout p)
                               (stderr_text p ++ s ++ [10])).
      { unfold p_print. now rewrite Ht. }
      rewrite Hq, IH by assumption.
      cbn [std bound sys_stdout stderr_text].
      now rewrite <- !app_assoc.
    + destruct (run_call_known c (std p) Ha Hfa Hl) as (s & Hs & Ho).
      rewrite p_run_call_bound by assumption.
      unfold in_process. rewrite Ho, Hs.
      rewrite IH by (try assumption; reflexivity).
      cbn [std bound sys_stdout stderr_text].
      unfold sent, lines.
      cbn [from_lock to_lock fh_from_manager fh_to_manager flushed pending
           map concat].
      rewrite Hp. cbn [app]. now rewrite <- !app_assoc.
Qed.

(** X17. What [init()] is for: from then on stdout belongs to the
    protocol.  Whatever the program prints and sends after [init()], with
    known selectors and results within the recursion limit, stdout
    receives the lines of the sends and nothing else, in order and
    flushed, and everything printed goes to stderr. *)
Theorem init_redirects_print (acts : list action) (p : process) :
  Forall action_known acts ->
  Forall action_fits acts ->
  to_lock (std p) = false ->
  pending (fh_to_manager (std p)) = [] ->
  exists p',
    run_actions acts (p_init p) = PReturn tt p'
    /\ fh_to_manager (std p')
       = mkOut (flushed (fh_to_manager (std p)) ++ lines (sent_lines acts)) []
    /\ stderr_text p' = stderr_text p ++ printed acts.
Proof.
  intros Hk Hf Hl Hp. eexists. split.
  - apply run_actions_initialized; try assumption; reflexivity.
  - split; reflexivity.
Qed.

(** X18. And what happens without it: a [print] made while [sys.stdout] is
    still the process's stdout sits in the buffer the protocol writes to,
    so the next send that gets through flushes the printed text to the
    manager in front of its own line. *)
Theorem print_before_init_reaches_manager (s : text) (c : call) (p : process) :
  sys_stdout p = ToStdout ->
  call_known c ->
  call_fits c ->
  to_lock (std p) = false ->
  exists l p',
    line_of_call c = Some l
    /\ p_run_call c (p_init (p_print s p)) = PReturn tt p'
    /\ fh_to_manager (std p')
       = mkOut (out (std p) ++ s ++ [10] ++ l ++ [10]) [].
Proof.
  intros Ht Hc Hf Hl.
  assert (Hl' : to_lock (std (p_init (p_print s p))) = false).
  { unfold p_print. now rewrite Ht. }
  destruct (run_call_known c _ Hc Hf Hl') as (l & Hs & Ho).
  exists l. eexists. split; [exact Hs|]. split.
  - rewrite p_run_call_bound by reflexivity.
    unfold in_process. rewrite Ho. reflexivity.
  - unfold p_print. rewrite Ht. unfold sent, out.
    cbn [std p_init fh_to_manager flushed pending].
    now rewrite <- !app_assoc.
Qed.

(** ** Values nested deep *)

Lemma nest_representable (n : nat) (v : json) :
  representable v -> representable (nest n v).
Proof.
  intros Hv. induction n as [|n IH]; [exact Hv|].
  cbn [nest]. constructor. constructor; [exact IH | constructor].
Qed.

Lemma nest_depth (n : nat) (v : json) : depth (nest n v) = (n + depth v)%nat.
Proof.
  induction n as [|n IH]; [reflexivity|].
  cbn [nest depth map list_max fold_right]. rewrite Nat.max_0_r, IH. reflexivity.
Qed.

End Theory.

(** * Instances

    The statements above, at concrete inputs.  Floats are read as the
    literal that denotes them; none occurs below.  The recursion limit is
    the default one. *)

#[local] Existing Instance literal_float.
#[local] Existing Instance default_limit.

Ltac fits := apply Nat.leb_le; vm_compute; reflexivity.

Ltac plain :=
  repeat first [ apply rep_obj | apply rep_arr | apply rep_str | apply rep_int
               | apply rep_null | constructor
               | (intros [H|H]; [discriminate H | destruct H])
               | (intros H; destruct H) ].

Ltac easy_read := split; [plain | fits].



(** C3. The line ["ab"] holds a JSON string, not a list, and the decode
    step does not refuse it: the first character is handed back as the
    keyword and the rest of the string as the payload. *)
Lemma json_string_line_is_accepted :
  json_loads (str_rstrip (wire "'ab'" ++ [10])) = Scanned (JStr (u "ab"))
  /\ _receive_ipc_message (idle (wire "'ab'" ++ [10]))
     = Return (JStr (u "a"), JStr (u "b")) (idle [])
  /\ receive_message None
       (idle (wire "'ab'" ++ 10 :: wire "['message', 'X']" ++ [10]))
     = Return (JStr (u "X")) (idle []).
Proof. repeat split; vm_compute; reflexivity. Qed.

(** C2, as the spec words it, fails: after the call has returned ["X"] the
    envelope [["other", 1]] has not been consumed. *)
Lemma filtering_leaves_other_unread :
  ~ (exists st', receive_message None (idle filtering_stream)
                 = Return (JStr (u "X")) st'
                 /\ fh_from_manager st' = []).
Proof.
  intros (st' & H & He). vm_compute in H. injection H as <-. discriminate He.
Qed.

Lemma receive_message_unknown_decoder_witness :
  receive_message (Some (u "xml")) (idle filtering_stream)
  = Raise (Exception (u "No such decoder: xml")) (idle filtering_stream).
Proof.
  apply (receive_message_unknown_decoder (u "xml") (idle filtering_stream)).
  discriminate.
Defined.

Lemma message_payload_shape_witness :
  receive_message None
    (idle (wire "['heartbeat']" ++ 10 :: wire "['message', 'a', 'b']" ++ [10]))
  = Raise AssertionError (idle []).
Proof.
  apply (message_payload_shape None
           (idle (wire "['heartbeat']" ++ 10 :: wire "['message', 'a', 'b']" ++ [10]))
           (idle (wire "['message', 'a', 'b']" ++ [10]))
           (idle [])
           [JStr (u "a"); JStr (u "b")]).
  - left. reflexivity.
  - reflexivity.
  - apply (discards_cons _ (JStr (u "heartbeat")) (JArr [])
                         (idle (wire "['message', 'a', 'b']" ++ [10])) _);
      [reflexivity | reflexivity | apply discards_nil].
  - reflexivity.
  - discriminate.
Defined.

Lemma send_result_json_mode_witness :
  send_result (JObj [(u "a", JArr [JInt 1; JInt 2; JInt 3])]) (Some (u "json"))
              (idle [])
  = Return tt (sent json_mode_line (idle [])).
Proof.
  apply (proj1 (send_result_json_mode (idle []) false (mkOut [] []) [] eq_refl)).
Defined.

Lemma send_result_unknown_encoder_witness :
  send_result (JStr (u "test")) (Some (u "xml")) (idle [])
  = Raise (Exception (u "No such encoder: xml")) (idle []).
Proof.
  apply (send_result_unknown_encoder (JStr (u "test")) (u "xml") (idle [])).
  discriminate.
Defined.

Lemma send_result_plain_witness :
  send_result (JArr [JInt 1; JBool true; JNull]) None (idle [])
  = Return tt (sent (wire "['result', [1, true, null]]") (idle [])).
Proof.
  apply (proj1 (send_result_plain (JArr [JInt 1; JBool true; JNull]) (idle [])
                                  eq_refl)).
  fits.
Defined.

(** C9, as the spec words it, fails: [null] inside 1500 lists is a JSON
    value, and the call does not succeed: it raises, and nothing is
    written. *)
Lemma deep_result_is_not_sent :
  representable (nest 1500 JNull)
  /\ send_result (nest 1500 JNull) None (idle []) = Raise RuntimeError (idle [])
  /\ ~ (exists st', send_result (nest 1500 JNull) None (idle []) = Return tt st').
Proof.
  assert (Hr : send_result (nest 1500 JNull) None (idle [])
               = Raise RuntimeError (idle [])) by (vm_compute; reflexivity).
  split; [apply nest_representable; constructor|]. split; [exact Hr|].
  intros (st' & H). rewrite Hr in H. discriminate.
Qed.

(** The padded envelope is dropped, with its two elements, and the message
    behind it is the one that is returned. *)
Lemma padded_message_discarded_witness :
  receive_message None
    (idle (wire "[' message ', 'a', 'b']" ++ 10 :: wire "['message', 'X']" ++ [10]))
  = Return (JStr (u "X")) (idle []).
Proof.
  apply (proj1 (proj2 (proj2 (proj2
           (padded_message_discarded None
              (idle (wire "[' message ', 'a', 'b']" ++ 10
                     :: wire "['message', 'X']" ++ [10]))
              [32] [32] [JStr (u "a"); JStr (u "b")]
              (or_introl eq_refl) eq_refl eq_refl eq_refl
              ltac:(discriminate) eq_refl))))
           (JStr (u "X")) (idle [])).
  reflexivity.
Defined.

(** Three threads: a heartbeat, a result and a call with an unknown
    encoder.  The result has gone out whole, the heartbeat is half written,
    the third call has raised.  On its own the heartbeat is the method
    [send_heartbeat]. *)
Lemma outbound_lines_never_interleave_witness :
  let calls := [Heartbeat; Result (JStr (u "test")) None;
                Result JNull (Some (u "xml"))] in
  let ts := [WroteText (wire "['heartbeat']");
             Returned (wire "['result', 'test']");
             Raised (Exception (u "No such encoder: xml"))] in
  let st := mkState false true []
                    (mkOut (wire "['result', 'test']" ++ [10])
                           (wire "['heartbeat']")) in
  (exists line,
      line_of_call Heartbeat = Some line
      /\ sent (wire "['heartbeat']") (idle []) = sent line (idle [])
      /\ run_thread 6 (Called Heartbeat) (idle [])
         = (Returned line, sent (wire "['heartbeat']") (idle [])))
  /\ exists done,
    Permutation done (returned_texts ts)
    /\ out st = out (idle []) ++ lines done
                ++ concat (map written (filter critical ts)).
Proof.
  intros calls ts st.
  destruct (outbound_lines_never_interleave calls (idle []) st ts eq_refl eq_refl)
    as (Hmethod & done & Hperm & _ & _ & Hout & _).
  - apply (run_schedule_reachable _ _ [0; 1; 2; 1; 1; 1; 1; 1; 0; 0]%nat).
    reflexivity.
  - split.
    + exact (Hmethod Heartbeat (idle []) (or_introl eq_refl)).
    + exists done. split; assumption.
Defined.

(** ** Receiving *)

Lemma receive_ipc_message_returns_witness :
  idle [] = after_line (idle (wire "['message', 'X']" ++ [10]))
  /\ ((exists k payload,
          json_loads (str_rstrip (next_line (idle (wire "['message', 'X']" ++ [10]))))
          = Scanned (JArr (JStr k :: payload))
          /\ JStr (u "message") = JStr k /\ JArr [JStr (u "X")] = JArr payload
          /\ blank k = false)
      \/ (exists c s,
             json_loads (str_rstrip (next_line (idle (wire "['message', 'X']" ++ [10]))))
             = Scanned (JStr (c :: s))
             /\ JStr (u "message") = JStr [c] /\ JArr [JStr (u "X")] = JStr s
             /\ unicode_isspace c = false)).
Proof.
  apply (receive_ipc_message_returns
           (idle (wire "['message', 'X']" ++ [10])) (idle [])
           (JStr (u "message")) (JArr [JStr (u "X")]));
    reflexivity.
Defined.

(** A heartbeat, then a message whose element is the JSON text of a list. *)
Lemma receive_message_delivers_witness :
  receive_message (Some (u "json"))
    (idle (wire "['heartbeat']" ++ 10 :: wire "['message', '[1, 2]']" ++ [10]))
  = Return (JArr [JInt 1; JInt 2]) (idle []).
Proof.
  transitivity (deliver (Some (u "json")) (JStr (u "[1, 2]")) (idle []));
    [|vm_compute; reflexivity].
  apply (receive_message_delivers (Some (u "json"))
           (idle (wire "['heartbeat']" ++ 10 :: wire "['message', '[1, 2]']" ++ [10]))
           (idle (wire "['message', '[1, 2]']" ++ [10]))
           (idle [])
           (JStr (u "[1, 2]"))).
  - right. reflexivity.
  - reflexivity.
  - apply (discards_cons _ (JStr (u "heartbeat")) (JArr [])
                         (idle (wire "['message', '[1, 2]']" ++ [10])) _);
      [reflexivity | reflexivity | apply discards_nil].
  - reflexivity.
Defined.

(** A heartbeat, then a line that is no JSON, then a message that stays
    unread. *)
Lemma receive_message_propagates_witness :
  receive_message None
    (idle (wire "['heartbeat']" ++ 10 :: u "oops" ++ 10
           :: wire "['message', 'X']" ++ [10]))
  = Raise ValueError (idle (wire "['message', 'X']" ++ [10])).
Proof.
  apply (receive_message_propagates None
           (idle (wire "['heartbeat']" ++ 10 :: u "oops" ++ 10
                  :: wire "['message', 'X']" ++ [10]))
           (idle (u "oops" ++ 10 :: wire "['message', 'X']" ++ [10]))
           (idle (wire "['message', 'X']" ++ [10]))
           ValueError).
  - left. reflexivity.
  - reflexivity.
  - apply (discards_cons _ (JStr (u "heartbeat")) (JArr [])
                         (idle (u "oops" ++ 10 :: wire "['message', 'X']" ++ [10])) _);
      [reflexivity | reflexivity | apply discards_nil].
  - reflexivity.
Defined.

Lemma receive_message_end_of_stream_witness :
  receive_message None (idle (wire "['heartbeat']" ++ [10]))
  = Raise ValueError (idle []).
Proof.
  apply (receive_message_end_of_stream None
           (idle (wire "['heartbeat']" ++ [10])) (idle [])).
  - left. reflexivity.
  - reflexivity.
  - apply (discards_cons _ (JStr (u "heartbeat")) (JArr []) (idle []) _);
      [reflexivity | reflexivity | apply discards_nil].
  - reflexivity.
Defined.

Lemma receive_message_returns_iff_witness :
  exists st1 content,
    discards (idle (wire "['heartbeat']" ++ 10 :: wire "['message', 'X']" ++ [10]))
             st1
    /\ _receive_ipc_message st1
       = Return (JStr (u "message"), JArr [content]) (idle [])
    /\ deliver None content (idle []) = Return (JStr (u "X")) (idle []).
Proof.
  apply (proj1 (receive_message_returns_iff None
                  (idle (wire "['heartbeat']" ++ 10
                         :: wire "['message', 'X']" ++ [10]))
                  (idle []) (JStr (u "X")) (or_introl eq_refl) eq_refl)).
  reflexivity.
Defined.

Lemma receive_message_filters_witness :
  receive_message None
    (idle (wire "['heartbeat']" ++ 10 :: wire "['other', 1]" ++ 10
           :: wire "['message', 'X']" ++ 10 :: wire "['message', 'Y']" ++ [10]))
  = Return (JStr (u "X")) (idle (wire "['message', 'Y']" ++ [10])).
Proof.
  apply (fun Hs Hc Hd =>
           proj1 (receive_message_filters
                    [(u "heartbeat", []); (u "other", [JInt 1])]
                    (JStr (u "X")) false (mkOut [] [])
                    (wire "['message', 'Y']" ++ [10]) Hs Hc Hd)).
  - constructor; [|constructor; [|constructor]];
      (split; [reflexivity | split; [discriminate | easy_read]]).
  - constructor. reflexivity.
  - fits.
Defined.

Lemma receive_message_json_round_trip_witness :
  receive_message (Some (u "json"))
    (idle (wire "['heartbeat']" ++ 10
           :: wire "['message', '{\'a\': [1, 2, 3]}']" ++ [10]))
  = Return (JObj [(u "a", JArr [JInt 1; JInt 2; JInt 3])]) (idle []).
Proof.
  apply (fun Hs Hv Hd =>
           proj1 (receive_message_json_round_trip
                    [(u "heartbeat", [])]
                    (JObj [(u "a", JArr [JInt 1; JInt 2; JInt 3])])
                    false (mkOut [] []) [] Hs Hv Hd)).
  - constructor; [|constructor].
    split; [reflexivity | split; [discriminate | easy_read]].
  - plain.
  - fits.
Defined.

(** The inbound lock held: the message on stdin is never read. *)
Lemma receive_message_hangs_iff_witness :
  receive_message (Some (u "json"))
    (mkState true false (wire "['message', '1']" ++ [10]) (mkOut [] []))
  = Hangs.
Proof.
  apply (proj2 (receive_message_hangs_iff (Some (u "json"))
                  (mkState true false (wire "['message', '1']" ++ [10])
                           (mkOut [] []))
                  (or_intror eq_refl))).
  reflexivity.
Defined.

(** ** Sending *)

Lemma run_calls_lines_witness :
  let cs := [Heartbeat; Result (JStr (u "test")) None;
             Result (JArr [JInt 1]) (Some (u "json"))] in
  exists ls,
    Forall2 (fun c s => line_of_call c = Some s) cs ls
    /\ run_calls cs (idle [])
       = Return tt (mkState false false [] (mkOut ([] ++ lines ls) [])).
Proof.
  intros cs.
  apply (run_calls_lines cs (idle [])).
  - constructor; [exact I|].
    constructor; [left; reflexivity|].
    constructor; [right; reflexivity | constructor].
  - constructor; [exact I|].
    constructor; [cbn [call_fits]; fits|].
    constructor; [cbn [call_fits]; fits | constructor].
  - reflexivity.
  - reflexivity.
Defined.

Lemma sent_lines_read_back_witness :
  receive_n 2
    (idle (lines [wire "['heartbeat']"; wire "['result', 'test']"] ++ []))
  = Return [(JStr (u "heartbeat"), JArr []);
            (JStr (u "result"), JArr [JStr (u "test")])] (idle []).
Proof.
  apply (fun Hr Hd Hl =>
           proj1 (sent_lines_read_back
                    [Heartbeat; Result (JStr (u "test")) None]
                    [wire "['heartbeat']"; wire "['result', 'test']"]
                    false (mkOut [] []) [] Hr Hd Hl)).
  - constructor; [exact I|]. constructor; [|constructor].
    constructor. reflexivity.
  - constructor; [exact I|]. constructor; [|constructor].
    cbn [call_readable]. fits.
  - constructor; [reflexivity|]. constructor; [reflexivity | constructor].
Defined.

(** A result with a letter outside ASCII: it travels escaped. *)
Lemma sent_line_is_ascii_witness :
  exists s,
    sent (json_dumps (JArr [JStr (u "result"); JStr [233]])) (idle [])
    = sent s (idle [])
    /\ Forall (fun ch => printable ch = true) s.
Proof.
  apply (sent_line_is_ascii (Result (JStr [233]) None) (idle [])).
  - constructor. reflexivity.
  - reflexivity.
Defined.

(** ** The process *)

Lemma receive_before_init_witness :
  let p := mkProcess (idle (wire "['message', 'X']" ++ [10])) false ToStdout [] in
  exists p',
    p_receive_message None p = PRaise AttributeError p'
    /\ std p' = mkState true false (wire "['message', 'X']" ++ [10]) (mkOut [] [])
    /\ p_receive_message (Some (u "json")) p' = PHangs
    /\ p_receive_message (Some (u "json")) (p_init p') = PHangs
    /\ (forall d, d <> u "json" ->
        p_receive_message (Some d) (p_init p')
        = PRaise (Exception (u "No such decoder: " ++ d)) (p_init p')).
Proof.
  intros p.
  apply (receive_before_init None (Some (u "json")) p eq_refl eq_refl
           (or_introl eq_refl) (or_intror eq_refl)).
Defined.

Lemma send_before_init_witness :
  let p := mkProcess (idle []) false ToStdout [] in
  exists p',
    p_run_call Heartbeat p = PRaise AttributeError p'
    /\ std p' = mkState false true [] (mkOut [] [])
    /\ p_run_call (Result (JStr (u "test")) None) p' = PHangs
    /\ p_run_call (Result (JStr (u "test")) None) (p_init p') = PHangs
    /\ (forall r e, e <> u "json" ->
        p_run_call (Result r (Some e)) (p_init p')
        = PRaise (Exception (u "No such encoder: " ++ e)) (p_init p')).
Proof.
  intros p.
  apply (send_before_init Heartbeat (Result (JStr (u "test")) None) p
           eq_refl eq_refl I I (or_introl eq_refl)).
  cbn [call_fits]. fits.
Defined.

Lemma init_redirects_print_witness :
  let acts := [Print (u "hello"); Send Heartbeat; Print (u "bye");
               Send (Result (JStr (u "test")) None)] in
  let p := mkProcess (idle []) false ToStdout [] in
  exists p',
    run_actions acts (p_init p) = PReturn tt p'
    /\ fh_to_manager (std p')
       = mkOut (wire "['heartbeat']" ++ 10 :: wire "['result', 'test']" ++ [10]) []
    /\ stderr_text p' = u "hello" ++ 10 :: u "bye" ++ [10].
Proof.
  intros acts p.
  destruct (init_redirects_print acts p) as (p' & Hrun & Hout & Herr).
  - constructor; [exact I|]. constructor; [exact I|].
    constructor; [exact I|]. constructor; [left; reflexivity | constructor].
  - constructor; [exact I|]. constructor; [exact I|].
    constructor; [exact I|].
    constructor; [cbn [action_fits call_fits]; fits | constructor].
  - reflexivity.
  - reflexivity.
  - exists p'. split; [exact Hrun|]. split.
    + rewrite Hout. vm_compute. reflexivity.
    + rewrite Herr. vm_compute. reflexivity.
Defined.

Lemma print_before_init_reaches_manager_witness :
  let p := mkProcess (idle []) false ToStdout [] in
  exists l p',
    line_of_call Heartbeat = Some l
    /\ p_run_call Heartbeat (p_init (p_print (u "hello") p)) = PReturn tt p'
    /\ fh_to_manager (std p') = mkOut (u "hello" ++ [10] ++ l ++ [10]) [].
Proof.
  intros p.
  apply (print_before_init_reaches_manager (u "hello") Heartbeat p
           eq_refl I I eq_refl).
Defined.
